(** * Legislative alignment networks: FrenteNetwork and VotingNetwork

    A shallow embedding of [src/networks/base_network.py],
    [src/networks/frente_network.py] and [src/networks/voting_network.py].

    The Python code works on a pandas [DataFrame] and mutates a networkx
    [Graph].  Both libraries are modelled by the part of their behaviour
    that the three source files use:

    - cell values are integers or strings ([value]), compared as Python
      compares them; null cells and floats are not represented;
    - a Python [dict] is an insertion-ordered association list
      ([dget], [dset]);
    - a [DataFrame] is a list of column labels and a list of rows; a
      subscript with a label that is not a column raises [KeyError] with
      the argument pandas gives it, the label or a message;
    - a [Graph] has the two dictionaries networkx keeps ([_node], [_adj])
      and a store of edge attribute dictionaries, so that the object
      shared by [_adj[u][v]] and [_adj[v][u]] is one cell of the store;
    - [build_network] runs in a state-and-exception monad over the graph
      the instance owns.

    The file has three parts: the embedding and the vocabulary of the
    statements, the supporting lemmas, and the statements C1 to C10. *)

From Stdlib Require Import ZArith String List.
From stdpp Require Import base option list sorting gmap sets strings.

(* stdpp's solvers clear hypotheses that may be gone already; no induction
   scheme is needed for the nested type of JSON values. *)
#[global] Set Warnings "-clear-no-such-hyp,-register-all".

(** ** Cell values *)

Inductive value :=
  | VInt (z : Z)
  | VStr (s : string).

#[global] Instance value_eq_dec : EqDecision value.
Proof. solve_decision. Defined.

#[global] Instance value_countable : Countable value :=
  inj_countable'
    (λ v, match v with VInt z => inl z | VStr s => inr s end)
    (λ x, match x with inl z => VInt z | inr s => VStr s end)
    (λ v, match v with VInt _ => eq_refl | VStr _ => eq_refl end).

(** The order pandas uses to sort group keys: numbers before strings,
    numbers by value, strings lexicographically. *)
Definition value_leb (a b : value) : bool :=
  match a, b with
  | VInt x, VInt y => (x <=? y)%Z
  | VInt _, VStr _ => true
  | VStr _, VInt _ => false
  | VStr s, VStr t => String.leb s t
  end.

(** ** Python dictionaries: insertion-ordered, one entry per key *)

Section dict.
Context {K V : Type} `{EqDecision K}.

(** [d.get(k)] *)
Fixpoint dget (k : K) (d : list (K * V)) : option V :=
  match d with
  | [] => None
  | (k', v) :: d' => if decide (k = k') then Some v else dget k d'
  end.

(** [d[k] = v]: an existing key keeps its position, a new key goes last. *)
Fixpoint dset (k : K) (v : V) (d : list (K * V)) : list (K * V) :=
  match d with
  | [] => [(k, v)]
  | (k', v') :: d' =>
      if decide (k = k') then (k', v) :: d' else (k', v') :: dset k v d'
  end.

(** [list(d.keys())] *)
Definition dkeys (d : list (K * V)) : list K := fst <$> d.

(** [dict(items)]: later items overwrite earlier ones. *)
Definition dict_of (items : list (K * V)) : list (K * V) :=
  foldl (λ d kv, dset kv.1 kv.2 d) [] items.
End dict.

(** ** Sequences: [sorted], [drop_duplicates], [itertools.combinations] *)

Section seqs.
Context {A : Type}.

Fixpoint insert_sorted (leb : A → A → bool) (x : A) (l : list A) : list A :=
  match l with
  | [] => [x]
  | y :: l' => if leb x y then x :: y :: l' else y :: insert_sorted leb x l'
  end.

(** A stable sort: among elements that compare equal the input order is
    kept, as Python's [sorted] guarantees. *)
Definition stable_sort (leb : A → A → bool) (l : list A) : list A :=
  foldr (insert_sorted leb) [] l.

(** [sorted(l, key=key)] for an integer key. *)
Definition sorted (key : A → Z) (l : list A) : list A :=
  stable_sort (λ x y, (key x <=? key y)%Z) l.

(** [itertools.combinations(l, 2)] *)
Fixpoint combinations (l : list A) : list (A * A) :=
  match l with
  | [] => []
  | x :: l' => (pair x <$> l') ++ combinations l'
  end.

Context `{EqDecision A}.

(** [drop_duplicates()] with [keep='first']. *)
Fixpoint drop_duplicates (l : list A) : list A :=
  match l with
  | [] => []
  | x :: l' => x :: filter (λ y, y ≠ x) (drop_duplicates l')
  end.
End seqs.

(** ** Exceptions and results *)

Inductive exn :=
  | KeyError (args : list value)
  | IndexError.

Inductive outcome (A : Type) :=
  | Ok (a : A)
  | Raise (e : exn).
Arguments Ok {A} a.
Arguments Raise {A} e.

#[global] Instance outcome_ret : MRet outcome := λ A a, Ok a.
#[global] Instance outcome_bind : MBind outcome := λ A B f o,
  match o with Ok a => f a | Raise e => Raise e end.
#[global] Instance outcome_fmap : FMap outcome := λ A B f o,
  match o with Ok a => Ok (f a) | Raise e => Raise e end.

(** ** The pandas operations used by the two builders *)

(** A table: its column labels and its rows.  A row gives the cell of every
    column; only the cells of columns listed in [columns] are ever read. *)
Record DataFrame := {
  columns : list string;
  rows : list (string → value)
}.

(** Python's [repr] of a label and of a list of labels, [['a', 'b']], for
    labels that need no escaping. *)
Definition py_repr (label : string) : string := "'" +:+ label +:+ "'".

Definition py_repr_list (labels : list string) : string :=
  "[" +:+ String.concat ", " (py_repr <$> labels) +:+ "]".

(** [df[c]]; a label that is not a column raises [KeyError(c)]. *)
Definition getitem (df : DataFrame) (c : string) : outcome (list value) :=
  if decide (c ∈ columns df) then Ok ((λ r, r c) <$> rows df)
  else Raise (KeyError [VStr c]).

(** [df[[c1, c2]].itertuples(index=False)].  When a label is not a column
    pandas raises [KeyError] with one message: [None of [Index([...],
    dtype='object')] are in the [columns]] when no label is a column (as
    pandas 2 prints an index of labels), and [[...] not in index], listing
    the labels that are not columns, otherwise. *)
Definition getitem2 (df : DataFrame) (c1 c2 : string)
  : outcome (list (value * value)) :=
  match filter (λ c, c ∉ columns df) [c1; c2] with
  | [] => Ok ((λ r, (r c1, r c2)) <$> rows df)
  | [_; _] =>
      Raise (KeyError [VStr ("None of [Index(" +:+ py_repr_list [c1; c2]
                             +:+ ", dtype='object')] are in the [columns]")])
  | missing => Raise (KeyError [VStr (py_repr_list missing +:+ " not in index")])
  end.

(** [df.loc[df[idc] == k, c].iloc[0]] *)
Definition loc_iloc0 (df : DataFrame) (idc : string) (k : value) (c : string)
  : outcome value :=
  _ ← getitem df idc;
  if decide (c ∈ columns df) then
    match filter (λ r, r idc = k) (rows df) with
    | r :: _ => Ok (r c)
    | [] => Raise IndexError
    end
  else Raise (KeyError [VStr c]).

(** [df.groupby(c)]: one sub-table per distinct key, keys in sorted order,
    rows of a group in table order. *)
Definition groupby (df : DataFrame) (c : string)
  : outcome (list (value * DataFrame)) :=
  ks ← getitem df c;
  Ok ((λ k, (k, {| columns := columns df;
                    rows := filter (λ r, r c = k) (rows df) |}))
        <$> stable_sort value_leb (drop_duplicates ks)).

(** [df.groupby(c)[t].apply(set).to_dict()]; selecting a label that is not
    a column from the groups raises [KeyError('Column not found: t')]. *)
Definition groupby_apply_set (df : DataFrame) (c t : string)
  : outcome (list (value * gset value)) :=
  groupby df c ≫= λ groups : list (value * DataFrame),
  if decide (t ∈ columns df) then
    Ok ((λ kg : value * DataFrame,
           (kg.1, list_to_set ((λ r : string → value, r t) <$> rows kg.2)))
        <$> groups)
  else Raise (KeyError [VStr ("Column not found: " +:+ t)]).

(** [g.set_index(i)[c].to_dict()]; [set_index] raises [KeyError("None of
    ['i'] are in the columns")] when [i] is not a column, and the subscript
    raises [KeyError(c)] when [c] is not a column of what is left. *)
Definition set_index_to_dict (g : DataFrame) (i c : string)
  : outcome (list (value * value)) :=
  if decide (i ∈ columns g) then
    if decide (c ∈ columns g ∧ c ≠ i) then
      Ok (dict_of ((λ r, (r i, r c)) <$> rows g))
    else Raise (KeyError [VStr c])
  else Raise (KeyError [VStr ("None of " +:+ py_repr_list [i]
                              +:+ " are in the columns")]).

(** [d[k]] *)
Definition subscript {V} (d : list (value * V)) (k : value) : outcome V :=
  match dget k d with
  | Some v => Ok v
  | None => Raise (KeyError [k])
  end.

(** ** The networkx graph *)

(** The attributes [add_node] is called with. *)
Record NodeAttrs := {
  nome : value;
  partido : value;
  uf : value
}.

#[global] Instance NodeAttrs_eq_dec : EqDecision NodeAttrs.
Proof. solve_decision. Defined.

(** [_node] maps a node to its attribute dict: [None] is the empty dict of a
    node created implicitly by [add_edge], [Some a] the dict written by
    [add_node].  [_adj] maps a node to its neighbours, each with a reference
    into [edge_data]; every edge attribute dict of this program is
    [{'weight': w}] and is stored as [w].  References are allocated in
    order, so the reference of an edge is its creation index. *)
Record Graph := {
  _node : list (value * option NodeAttrs);
  _adj : list (value * list (value * nat));
  edge_data : list Z
}.

(** [nx.Graph()] *)
Definition nx_Graph : Graph := {| _node := []; _adj := []; edge_data := [] |}.

(** [G.add_node(n, nome=.., partido=.., uf=..)] *)
Definition add_node (n : value) (a : NodeAttrs) (G : Graph) : Graph :=
  match dget n (_node G) with
  | None =>
      {| _node := dset n (Some a) (_node G);
         _adj := dset n [] (_adj G);
         edge_data := edge_data G |}
  | Some _ =>
      {| _node := dset n (Some a) (_node G);
         _adj := _adj G;
         edge_data := edge_data G |}
  end.

(** The first lines of [add_edge]: an endpoint that is not a node yet
    becomes one, without attributes. *)
Definition ensure_node (n : value) (G : Graph) : Graph :=
  match dget n (_node G) with
  | None =>
      {| _node := dset n None (_node G);
         _adj := dset n [] (_adj G);
         edge_data := edge_data G |}
  | Some _ => G
  end.

(** [G._adj[u][v] = r] *)
Definition adj_set (u v : value) (r : nat)
    (adj : list (value * list (value * nat))) : list (value * list (value * nat)) :=
  dset u (dset v r (default [] (dget u adj))) adj.

(** [G.add_edge(u, v, weight=w)] *)
Definition add_edge (u v : value) (w : Z) (G : Graph) : Graph :=
  let G := ensure_node v (ensure_node u G) in
  match dget v (default [] (dget u (_adj G))) with
  | Some r =>
      {| _node := _node G;
         _adj := adj_set v u r (adj_set u v r (_adj G));
         edge_data := <[r := w]> (edge_data G) |}
  | None =>
      let r := length (edge_data G) in
      {| _node := _node G;
         _adj := adj_set v u r (adj_set u v r (_adj G));
         edge_data := edge_data G ++ [w] |}
  end.

(** [G.has_edge(u, v)] *)
Definition has_edge (u v : value) (G : Graph) : bool :=
  match dget u (_adj G) with
  | Some nbrs => bool_decide (is_Some (dget v nbrs))
  | None => false
  end.

(** [datadict['weight']] for the dict behind reference [r]. *)
Definition weight_at (G : Graph) (r : nat) : Z := default 0%Z (edge_data G !! r).

(** [G.edges(data=True)]: nodes in insertion order, for each its neighbours
    in insertion order, skipping neighbours already visited as nodes. *)
Fixpoint edges_from (adj : list (value * list (value * nat))) (seen : list value)
  : list (value * value * nat) :=
  match adj with
  | [] => []
  | (n, nbrs) :: adj' =>
      ((λ nr, (n, nr.1, nr.2)) <$> filter (λ nr, nr.1 ∉ seen) nbrs)
      ++ edges_from adj' (n :: seen)
  end.

Definition edges (G : Graph) : list (value * value * nat) :=
  edges_from (_adj G) [].

(** ** The builder monad: the owned graph as state, exceptions as results *)

Definition M (A : Type) : Type := Graph → outcome A * Graph.

#[global] Instance M_ret : MRet M := λ A a G, (Ok a, G).
#[global] Instance M_bind : MBind M := λ A B f m G,
  match m G with
  | (Ok a, G') => f a G'
  | (Raise e, G') => (Raise e, G')
  end.

Definition lift {A} (o : outcome A) : M A := λ G, (o, G).
Definition modify (f : Graph → Graph) : M unit := λ G, (Ok tt, f G).
Definition gets {A} (f : Graph → A) : M A := λ G, (Ok (f G), G).

(** [for x in l: body(x)] *)
Fixpoint for_each {A} (l : list A) (body : A → M unit) : M unit :=
  match l with
  | [] => mret tt
  | x :: l' => body x ;; for_each l' body
  end.

(** [G[u][v]['weight'] += d] *)
Definition iadd_weight (u v : value) (d : Z) : M unit := λ G,
  match dget u (_adj G) with
  | None => (Raise (KeyError [u]), G)
  | Some nbrs =>
      match dget v nbrs with
      | None => (Raise (KeyError [v]), G)
      | Some r =>
          (Ok tt, {| _node := _node G;
                     _adj := _adj G;
                     edge_data := alter (λ w, (w + d)%Z) r (edge_data G) |})
      end
  end.

(** ** base_network.py *)

Module BaseNetwork.
Definition get_network : M Graph := gets id.

Definition get_sorted_edges : M (list (value * value * nat)) :=
  G ← get_network;
  mret (sorted (λ x, weight_at G x.2) (edges G)).
End BaseNetwork.

(** The node-population loop both builders start with; [c_nome],
    [c_partido], [c_uf] are the policy's column labels. *)
Definition add_nodes (df : DataFrame) (c_nome c_partido c_uf : string) : M unit :=
  pairs ← lift (drop_duplicates <$> getitem2 df "id_deputado" c_nome);
  for_each pairs (λ p,
    let '(dep_id, dep_nome) := p in
    partido ← lift (loc_iloc0 df "id_deputado" dep_id c_partido);
    uf ← lift (loc_iloc0 df "id_deputado" dep_id c_uf);
    modify (add_node dep_id {| nome := dep_nome; partido := partido; uf := uf |})).

(** ** frente_network.py *)

Module FrenteNetwork.
Definition build_network (df : DataFrame) : M unit :=
  add_nodes df "nome_deputado" "siglaPartido_deputado" "siglaUf_deputado";;
  deputados ← lift (fmap fst <$>
    (drop_duplicates <$> getitem2 df "id_deputado" "nome_deputado"));
  dep_frentes ← lift (groupby_apply_set df "id_deputado" "titulo");
  for_each (combinations deputados) (λ p,
    let '(dep1, dep2) := p in
    let frentes_compartilhadas : gset value :=
      default ∅ (dget dep1 dep_frentes) ∩ default ∅ (dget dep2 dep_frentes) in
    let peso := size frentes_compartilhadas in
    if bool_decide (0 < peso) then
      modify (add_edge dep1 dep2 (Z.of_nat peso))
    else mret tt).
End FrenteNetwork.

(** ** voting_network.py *)

Module VotingNetwork.
Definition build_network (df : DataFrame) : M unit :=
  add_nodes df "nome" "siglaPartido" "siglaUf";;
  groups ← lift (groupby df "id");
  for_each groups (λ vg,
    let '(votacao_id, grupo) := vg in
    votos ← lift (set_index_to_dict grupo "id_deputado" "tipoVoto");
    let deputados := dkeys votos in
    for_each (combinations deputados) (λ p,
      let '(dep1, dep2) := p in
      b ← gets (has_edge dep1 dep2);
      (if negb b then modify (add_edge dep1 dep2 0) else mret tt);;
      v1 ← lift (subscript votos dep1);
      v2 ← lift (subscript votos dep2);
      if decide (v1 = v2) then iadd_weight dep1 dep2 1
      else iadd_weight dep1 dep2 (-1))).
End VotingNetwork.

(** ** The graph seen through its edges *)

(** The reference stored at [adj[u][v]]. *)
Definition aref (adj : list (value * list (value * nat))) (u v : value)
  : option nat :=
  dget u adj ≫= dget v.

Definition edge_ref (G : Graph) (u v : value) : option nat := aref (_adj G) u v.

(** [G[u][v]['weight']], when the edge exists. *)
Definition edge_weight (G : Graph) (u v : value) : option Z :=
  edge_ref G u v ≫= λ r, edge_data G !! r.

(** [(a, b)] is the pair [(u, v)] in one of its two orientations. *)
Definition same_pair (u v a b : value) : Prop :=
  (a = u ∧ b = v) ∨ (a = v ∧ b = u).

#[global] Instance same_pair_dec u v a b : Decision (same_pair u v a b).
Proof. unfold same_pair. apply _. Defined.

(** The invariant of the graphs the builders produce: both directions of an
    edge share one attribute dict, every reference is allocated, different
    edges have different dicts, and only nodes have neighbours. *)
Record wf (G : Graph) : Prop := {
  wf_sym : ∀ u v, edge_ref G u v = edge_ref G v u;
  wf_bound : ∀ u v r, edge_ref G u v = Some r → r < length (edge_data G);
  wf_inj : ∀ u v a b r,
    edge_ref G u v = Some r → edge_ref G a b = Some r → same_pair u v a b;
  wf_node : ∀ u v, is_Some (edge_ref G u v) → is_Some (dget u (_node G))
}.

(** The reference [add_edge u v] writes to: the edge's own dict, or a new one. *)
Definition edge_slot (G : Graph) (u v : value) : nat :=
  default (length (edge_data G)) (edge_ref G u v).

(** What [iadd_weight] does to the graph when the edge exists. *)
Definition bump (u v : value) (d : Z) (G : Graph) : Graph :=
  match edge_ref G u v with
  | Some r =>
      {| _node := _node G;
         _adj := _adj G;
         edge_data := alter (λ w, (w + d)%Z) r (edge_data G) |}
  | None => G
  end.

(** ** The builders as folds

    What [build_network] does to the graph when no exception is raised,
    written without the monad. *)

(** The distinct (id, name) pairs of the table, in order of first occurrence. *)
Definition dep_pairs (df : DataFrame) (c_nome : string) : list (value * value) :=
  drop_duplicates ((λ r : string → value, (r "id_deputado", r c_nome)) <$> rows df).

(** The first row of the table with legislator id [k]. *)
Definition first_row (df : DataFrame) (k : value) : option (string → value) :=
  head (filter (λ r : string → value, r "id_deputado" = k) (rows df)).

Definition node_step (df : DataFrame) (c_partido c_uf : string)
    (G : Graph) (p : value * value) : Graph :=
  match first_row df p.1 with
  | Some r => add_node p.1 {| nome := p.2; partido := r c_partido; uf := r c_uf |} G
  | None => G
  end.

Definition nodes_of (df : DataFrame) (c_nome c_partido c_uf : string)
    (G : Graph) : Graph :=
  foldl (node_step df c_partido c_uf) G (dep_pairs df c_nome).

(** The set of [titulo] values on the rows of legislator [k]. *)
Definition frentes (df : DataFrame) (k : value) : gset value :=
  list_to_set ((λ r : string → value, r "titulo")
               <$> filter (λ r : string → value, r "id_deputado" = k) (rows df)).

Definition shared (df : DataFrame) (a b : value) : nat :=
  size (frentes df a ∩ frentes df b).

Definition frente_step (df : DataFrame) (G : Graph) (p : value * value) : Graph :=
  if bool_decide (0 < shared df p.1 p.2)
  then add_edge p.1 p.2 (Z.of_nat (shared df p.1 p.2)) G
  else G.

Definition frente_graph (df : DataFrame) (G : Graph) : Graph :=
  foldl (frente_step df)
    (nodes_of df "nome_deputado" "siglaPartido_deputado" "siglaUf_deputado" G)
    (combinations ((dep_pairs df "nome_deputado").*1)).

(** The ballot ids of the table, in the order [groupby] visits them. *)
Definition ballots (df : DataFrame) : list value :=
  stable_sort value_leb (drop_duplicates ((λ r : string → value, r "id") <$> rows df)).

(** The [votos] dictionary of ballot [k]. *)
Definition votos_of (df : DataFrame) (k : value) : list (value * value) :=
  dict_of ((λ r : string → value, (r "id_deputado", r "tipoVoto"))
           <$> filter (λ r : string → value, r "id" = k) (rows df)).

Definition vote_delta (votos : list (value * value)) (a b : value) : Z :=
  if decide (dget a votos = dget b votos) then 1%Z else (-1)%Z.

Definition vote_step (votos : list (value * value)) (G : Graph)
    (p : value * value) : Graph :=
  bump p.1 p.2 (vote_delta votos p.1 p.2)
    (if has_edge p.1 p.2 G then G else add_edge p.1 p.2 0 G).

Definition ballot_step (df : DataFrame) (G : Graph) (k : value) : Graph :=
  foldl (vote_step (votos_of df k)) G (combinations (dkeys (votos_of df k))).

Definition voting_graph (df : DataFrame) (G : Graph) : Graph :=
  foldl (ballot_step df) (nodes_of df "nome" "siglaPartido" "siglaUf" G) (ballots df).

(** The running tally of a pair: each comparison adds its delta, the first
    one starting from 0. *)
Definition accumulate (votos : list (value * value)) (o : option Z)
    (p : value * value) : option Z :=
  Some (default 0 o + vote_delta votos p.1 p.2)%Z.

(** The columns each builder reads. *)
Definition frente_columns : list string :=
  ["id_deputado"; "nome_deputado"; "siglaPartido_deputado";
   "siglaUf_deputado"; "titulo"].

Definition voting_columns : list string :=
  ["id_deputado"; "nome"; "siglaPartido"; "siglaUf"; "id"; "tipoVoto"].

(** ** Vocabulary of the claims *)

(** The legislator ids occurring in the table. *)
Definition ids (df : DataFrame) : list value :=
  (λ r : string → value, r "id_deputado") <$> rows df.

(** The nodes of a graph, [list(G.nodes)]. *)
Definition nodes (G : Graph) : list value := dkeys (_node G).

(** A graph without edges. *)
Definition edgeless (G : Graph) : Prop := ∀ a b, edge_ref G a b = None.

(** The message of an exception contains the label. *)
Definition mentions (msg label : string) : Prop :=
  ∃ pre post, msg = pre +:+ label +:+ post.

(** The [tipoVoto] cells of legislator [u] in ballot [k], in table order. *)
Definition votes_in (df : DataFrame) (k u : value) : list value :=
  (λ r : string → value, r "tipoVoto")
  <$> filter (λ r : string → value, r "id" = k ∧ r "id_deputado" = u) (rows df).

(** The vote on the last row of legislator [u] in ballot [k]. *)
Definition last_vote (df : DataFrame) (k u : value) : option value :=
  last (votes_in df k u).

(** Both legislators have a row in ballot [k]. *)
Definition covoted (df : DataFrame) (a b k : value) : Prop :=
  votes_in df k a ≠ [] ∧ votes_in df k b ≠ [].

#[global] Instance covoted_dec df a b k : Decision (covoted df a b k).
Proof. unfold covoted. apply _. Defined.

(** +1 when the last votes of the two legislators in ballot [k] are equal,
    -1 when they differ. *)
Definition agreement (df : DataFrame) (a b k : value) : Z :=
  if decide (last_vote df k a = last_vote df k b) then 1%Z else (-1)%Z.

(** The signed tally over the ballots in which both voted. *)
Definition tally (df : DataFrame) (a b : value) : Z :=
  foldr (λ k s, (agreement df a b k + s)%Z) 0%Z
    (filter (covoted df a b) (ballots df)).

(** At most one row per (legislator, ballot) pair. *)
Definition unique_votes (df : DataFrame) : Prop :=
  ∀ k u, length (votes_in df k u) ≤ 1.

(** The distinct ballot ids of the table, in order of first occurrence. *)
Definition ballot_ids (df : DataFrame) : list value :=
  drop_duplicates ((λ r : string → value, r "id") <$> rows df).

(** The number of common ballots where the two vote choices are equal, and
    where they differ. *)
Definition agreements (df : DataFrame) (a b : value) : nat :=
  length (filter (λ k, covoted df a b k ∧ votes_in df k a = votes_in df k b)
            (ballot_ids df)).

Definition disagreements (df : DataFrame) (a b : value) : nat :=
  length (filter (λ k, covoted df a b k ∧ votes_in df k a ≠ votes_in df k b)
            (ballot_ids df)).

(** ** Example tables *)

(** A row given by its cells. *)
Definition mkrow (cells : list (string * value)) : string → value :=
  λ c, default (VStr "") (dget c cells).

Definition frente_row (i : Z) (n p u t : string) : string → value :=
  mkrow [("id_deputado", VInt i); ("nome_deputado", VStr n);
         ("siglaPartido_deputado", VStr p); ("siglaUf_deputado", VStr u);
         ("titulo", VStr t)].

Definition voting_row (i : Z) (n p u b t : string) : string → value :=
  mkrow [("id_deputado", VInt i); ("nome", VStr n); ("siglaPartido", VStr p);
         ("siglaUf", VStr u); ("id", VStr b); ("tipoVoto", VStr t)].

(** Two legislators sharing one front out of three. *)
Definition ex_frentes : DataFrame :=
  {| columns := frente_columns;
     rows := [frente_row 1 "A" "PT" "SP" "FrenteX";
              frente_row 1 "A" "PT" "SP" "FrenteY";
              frente_row 2 "B" "PSDB" "RJ" "FrenteY";
              frente_row 2 "B" "PSDB" "RJ" "FrenteZ"] |}.

(** One legislator id listed under two names. *)
Definition ex_two_names : DataFrame :=
  {| columns := frente_columns;
     rows := [frente_row 1 "A" "PT" "SP" "FrenteX";
              frente_row 1 "B" "PL" "RJ" "FrenteX"] |}.

Definition ex_two_names_votes : DataFrame :=
  {| columns := voting_columns;
     rows := [voting_row 1 "A" "PT" "SP" "b1" "Sim";
              voting_row 1 "B" "PL" "RJ" "b2" "Sim"] |}.

(** Two legislators who agree on one ballot and disagree on another. *)
Definition ex_cancel : DataFrame :=
  {| columns := voting_columns;
     rows := [voting_row 1 "A" "PT" "SP" "b1" "Sim";
              voting_row 2 "B" "PL" "RJ" "b1" "Sim";
              voting_row 1 "A" "PT" "SP" "b2" "Sim";
              voting_row 2 "B" "PL" "RJ" "b2" "Nao"] |}.

(** Legislator 1 has two rows in ballot b1. *)
Definition ex_revote : DataFrame :=
  {| columns := voting_columns;
     rows := [voting_row 1 "A" "PT" "SP" "b1" "Sim";
              voting_row 2 "B" "PL" "RJ" "b1" "Nao";
              voting_row 1 "A" "PT" "SP" "b1" "Nao"] |}.

(** The table [ex_revote] without the earlier row of legislator 1. *)
Definition ex_revote_last : DataFrame :=
  {| columns := voting_columns;
     rows := [voting_row 2 "B" "PL" "RJ" "b1" "Nao";
              voting_row 1 "A" "PT" "SP" "b1" "Nao"] |}.

(** Three legislators; the ballot they share lists them in an order that
    differs from the order in which they first occur in the table. *)
Definition ex_three : DataFrame :=
  {| columns := voting_columns;
     rows := [voting_row 1 "A" "PT" "SP" "b1" "Sim";
              voting_row 2 "B" "PT" "SP" "b2" "Sim";
              voting_row 3 "C" "PT" "SP" "b2" "Sim";
              voting_row 1 "A" "PT" "SP" "b2" "Sim"] |}.

(** Tables with zero rows. *)
Definition ex_empty_frentes : DataFrame := {| columns := frente_columns; rows := [] |}.
Definition ex_empty_votes : DataFrame := {| columns := voting_columns; rows := [] |}.

(** A table with zero rows and no party column. *)
Definition ex_no_party : DataFrame :=
  {| columns := ["id_deputado"; "nome_deputado"; "siglaUf_deputado"; "titulo"];
     rows := [] |}.

(** A table with one row and no party column. *)
Definition ex_no_party_row : DataFrame :=
  {| columns := ["id_deputado"; "nome_deputado"; "siglaUf_deputado"; "titulo"];
     rows := [frente_row 1 "A" "PT" "SP" "FrenteX"] |}.

(** Ties in a sorted edge list follow edge creation order: of two edges
    with the same weight, the one created first comes first. *)
Definition ties_by_creation (G : Graph) (out : list (value * value * nat)) : Prop :=
  ∀ i j x y, i < j → out !! i = Some x → out !! j = Some y →
    weight_at G x.2 = weight_at G y.2 → x.2 < y.2.

(** The attributes the node loop writes for the pair [p]. *)
Definition node_attrs (df : DataFrame) (c_partido c_uf : string)
    (p : value * value) : NodeAttrs :=
  let r := default (λ _, VStr "") (first_row df p.1) in
  {| nome := p.2; partido := r c_partido; uf := r c_uf |}.

(** Every legislator id of the table comes with one name. *)
Definition unique_names (df : DataFrame) (c_nome : string) : Prop :=
  ∀ r r', r ∈ rows df → r' ∈ rows df →
    r "id_deputado" = r' "id_deputado" → r c_nome = r' c_nome.

(** The two dictionaries of the adjacency structure have one entry per key. *)
Definition adj_ok (adj : list (value * list (value * nat))) : Prop :=
  NoDup (dkeys adj) ∧ Forall (λ e, NoDup (dkeys e.2)) adj.

(** [G] is the graph a fresh instance of one of the two policies owns after
    a completed [build_network] on [df]. *)
Definition built (df : DataFrame) (G : Graph) : Prop :=
  FrenteNetwork.build_network df nx_Graph = (Ok tt, G)
  ∨ VotingNetwork.build_network df nx_Graph = (Ok tt, G).

(** The distinct names under which legislator [k] occurs in the table. *)
Definition names_of (df : DataFrame) (c_nome : string) (k : value) : list value :=
  drop_duplicates
    ((λ r : string → value, r c_nome)
     <$> filter (λ r : string → value, r "id_deputado" = k) (rows df)).

(** The number of ballots in which both legislators have a row. *)
Definition common_ballots (df : DataFrame) (a b : value) : nat :=
  length (filter (covoted df a b) (ballot_ids df)).

(** A membership table without the [titulo] column. *)
Definition ex_no_titulo : DataFrame :=
  {| columns := ["id_deputado"; "nome_deputado"; "siglaPartido_deputado";
                 "siglaUf_deputado"];
     rows := [frente_row 1 "A" "PT" "SP" "FrenteX";
              frente_row 2 "B" "PSDB" "RJ" "FrenteX"] |}.

(** The example tables with their rows in reverse order. *)
Definition ex_frentes_rev : DataFrame :=
  {| columns := frente_columns; rows := reverse (rows ex_frentes) |}.

Definition ex_cancel_rev : DataFrame :=
  {| columns := voting_columns; rows := reverse (rows ex_cancel) |}.

(** * camara_client.py: paginated requests

    [CamaraClient._get_paginated_data] calls [_make_request] once per page.
    The remote server is a function from the query parameters of a request
    to what [_make_request] does with them: it returns the decoded JSON
    object or raises [CamaraAPIError].  Of the JSON object the loop reads the
    entries [dados] (a list of items) and [links] (a list of objects).  The
    [while True] loop is run with fuel; the requests it makes are recorded
    next to the data it collects. *)

Section paginated.
Context {A : Type}.

(** The JSON object of a response: [response['dados']] when the key is
    present, and [response.get('links')]. *)
Record Response := {
  dados : option (list A);
  links : option (list (list (string * value)))
}.

(** What [_make_request] does: return the decoded object or raise. *)
Inductive api_result :=
  | ApiOk (response : Response)
  | CamaraAPIError (msg : string).

(** [current_params]: a copy of the caller's parameters ([{}] when they are
    [None] or empty) with [pagina] and [itens] set. *)
Definition page_params (params : option (list (string * value))) (page : Z)
  : list (string * value) :=
  dset "itens" (VInt 100) (dset "pagina" (VInt page) (default [] params)).

(** [any(link.get('rel') == 'next' for link in links)] *)
Definition has_next (response : Response) : bool :=
  existsb (λ link, bool_decide (dget "rel" link = Some (VStr "next")))
    (default [] (links response)).

(** [max_pages and page > max_pages] *)
Definition past_limit (max_pages : option Z) (page : Z) : bool :=
  match max_pages with
  | Some n => negb (n =? 0)%Z && (n <? page)%Z
  | None => false
  end.

(** The loop of [_get_paginated_data], from the state ([page], [all_data])
    and the requests [sent] so far. *)
Fixpoint paginate_loop (fuel : nat)
    (request : list (string * value) → api_result)
    (params : option (list (string * value))) (max_pages : option Z)
    (page : Z) (all_data : list A) (sent : list (list (string * value)))
  : option (list A * list (list (string * value))) :=
  match fuel with
  | 0 => None
  | S fuel =>
      if past_limit max_pages page then Some (all_data, sent)
      else
        let current_params := page_params params page in
        let sent := sent ++ [current_params] in
        match request current_params with
        | CamaraAPIError _ => Some (all_data, sent)
        | ApiOk response =>
            match dados response with
            | None => Some (all_data, sent)
            | Some [] => Some (all_data, sent)
            | Some data =>
                let all_data := all_data ++ data in
                if has_next response
                then paginate_loop fuel request params max_pages
                       (page + 1) all_data sent
                else Some (all_data, sent)
            end
        end
  end.

(** [_get_paginated_data(endpoint, params, max_pages)], for the server
    [request] of the endpoint: the data returned and the requests made. *)
Definition _get_paginated_data (fuel : nat)
    (request : list (string * value) → api_result)
    (params : option (list (string * value))) (max_pages : option Z)
  : option (list A * list (list (string * value))) :=
  paginate_loop fuel request params max_pages 1 [] [].

(** The items page [p] contributes: its [dados], nothing when the request
    fails or the entry is absent. *)
Definition page_data (request : list (string * value) → api_result)
    (params : option (list (string * value))) (p : Z) : list A :=
  match request (page_params params p) with
  | ApiOk response => default [] (dados response)
  | CamaraAPIError _ => []
  end.

(** The answer to a request has items and a link to a next page. *)
Definition has_more (request : list (string * value) → api_result)
    (current_params : list (string * value)) : bool :=
  match request current_params with
  | ApiOk response =>
      match dados response with
      | Some (_ :: _) => has_next response
      | _ => false
      end
  | CamaraAPIError _ => false
  end.

(** Page [p] has items and a link to a next page. *)
Definition continues (request : list (string * value) → api_result)
    (params : option (list (string * value))) (p : Z) : bool :=
  match request (page_params params p) with
  | ApiOk response =>
      match dados response with
      | Some (_ :: _) => has_next response
      | _ => false
      end
  | CamaraAPIError _ => false
  end.
End paginated.

Arguments Response A : clear implicits.
Arguments api_result A : clear implicits.

(** The pages [page], [page + 1], ..., [page + k - 1]. *)
Fixpoint pages_from (page : Z) (k : nat) : list Z :=
  match k with
  | 0 => []
  | S k => page :: pages_from (page + 1) k
  end.

(** A server with two pages of items: page 1 holds 10 and 11 and links to a
    next page, page 2 holds 12; every other request fails. *)
Definition ex_server (current_params : list (string * value)) : api_result Z :=
  match dget "pagina" current_params with
  | Some (VInt 1) =>
      ApiOk {| dados := Some [10; 11]%Z;
               links := Some [[("rel", VStr "self")]; [("rel", VStr "next")]] |}
  | Some (VInt 2) =>
      ApiOk {| dados := Some [12]%Z; links := Some [[("rel", VStr "self")]] |}
  | _ => CamaraAPIError "404"
  end.

(** A server on which every page has one item and a next page. *)
Definition ex_endless (current_params : list (string * value)) : api_result Z :=
  ApiOk {| dados := Some [0%Z]; links := Some [[("rel", VStr "next")]] |}.

(** ** camara_client.py: [get_votacoes] *)

(** [params[key] = v] when the argument is not [None]. *)
Definition set_if_given (key : string) (arg : option value)
    (params : list (string * value)) : list (string * value) :=
  match arg with
  | Some v => dset key v params
  | None => params
  end.

(** [get_votacoes(id, idProposicao, dataInicio, dataFim, idOrgao)], for the
    server [request] of the endpoint [/votacoes]. *)
Definition get_votacoes {A} (fuel : nat)
    (request : list (string * value) → api_result A)
    (id idProposicao dataInicio dataFim idOrgao : option value)
  : option (list A * list (list (string * value))) :=
  let params :=
    set_if_given "idOrgao" idOrgao
      (set_if_given "dataFim" dataFim
         (set_if_given "dataInicio" dataInicio
            (set_if_given "idProposicao" idProposicao
               (set_if_given "id" id [])))) in
  _get_paginated_data fuel request
    (match params with [] => None | _ => Some params end) None.

(** * data_enricher.py: the rows of [get_votos_periodo]

    The JSON values the enrichment handles: objects, and everything else. *)

Inductive json (A : Type) :=
  | JAtom (a : A)
  | JObj (fields : list (string * json A)).
Arguments JAtom {A} a.
Arguments JObj {A} fields.

Inductive enrich_error :=
  | EKeyError (key : string)
  | ETypeError.

Inductive enriched (X : Type) :=
  | EOk (x : X)
  | ERaise (e : enrich_error).
Arguments EOk {X} x.
Arguments ERaise {X} e.

(** [del d[k]] on a dictionary that has the key. *)
Definition ddel {V} (k : string) (d : list (string * V)) : list (string * V) :=
  filter (λ kv, kv.1 ≠ k) d.

(** The body of the loop over the votes of one ballot: the deputy object of
    the vote gets its [id] renamed to [id_deputado], the vote loses its
    [deputado_] entry, and ballot, vote and deputy are merged into one
    dictionary, [{**votacao, **voto, **deputado}]. *)
Definition enrich_voto {A} (votacao voto : list (string * json A))
  : enriched (list (string * json A)) :=
  match dget "deputado_" voto with
  | None => ERaise (EKeyError "deputado_")
  | Some (JAtom _) => ERaise ETypeError
  | Some (JObj deputado) =>
      match dget "id" deputado with
      | None => ERaise (EKeyError "id")
      | Some dep_id =>
          let deputado := dset "id_deputado" dep_id deputado in
          let deputado := ddel "id" deputado in
          let voto := ddel "deputado_" voto in
          EOk (dict_of (votacao ++ voto ++ deputado))
      end
  end.

(** The loop over [votos_votacao]: the list [enriched_votos], or the
    exception of the first vote that raises. *)
Fixpoint enrich_votos {A} (votacao : list (string * json A))
    (votos_votacao : list (list (string * json A)))
  : enriched (list (list (string * json A))) :=
  match votos_votacao with
  | [] => EOk []
  | voto :: rest =>
      match enrich_voto votacao voto with
      | ERaise e => ERaise e
      | EOk enriched_voto =>
          match enrich_votos votacao rest with
          | ERaise e => ERaise e
          | EOk enriched_votos => EOk (enriched_voto :: enriched_votos)
          end
      end
  end.

(** A ballot, and a vote of deputy 7 as the API returns it. *)
Definition ex_votacao : list (string * json value) :=
  [("id", JAtom (VStr "b1")); ("uri", JAtom (VStr "votacoes/b1"))].

Definition ex_voto : list (string * json value) :=
  [("tipoVoto", JAtom (VStr "Sim"));
   ("deputado_", JObj [("id", JAtom (VInt 7));
                       ("uri", JAtom (VStr "deputados/7"));
                       ("nome", JAtom (VStr "A"));
                       ("siglaPartido", JAtom (VStr "PT"));
                       ("siglaUf", JAtom (VStr "SP"))])].

(** The deputy object of a vote, when the vote has one. *)
Definition deputy_of {A} (voto : list (string * json A))
  : option (list (string * json A)) :=
  match dget "deputado_" voto with
  | Some (JObj deputado) => Some deputado
  | _ => None
  end.

(** A vote as the enrichment expects it: an object with one entry per key
    whose [deputado_] entry is an object with one entry per key and an
    [id]. *)
Definition voto_ok {A} (voto : list (string * json A)) : Prop :=
  NoDup (dkeys voto)
  ∧ ∃ deputado, deputy_of voto = Some deputado
                ∧ NoDup (dkeys deputado) ∧ is_Some (dget "id" deputado).

(** * Properties *)

(** ** Dictionaries *)

Section dict_facts.
Context {K V : Type} `{EqDecision K}.
Implicit Types (k : K) (v : V) (d : list (K * V)).

Lemma dget_dset k k' v d :
  dget k' (dset k v d) = if decide (k' = k) then Some v else dget k' d.
Proof.
  induction d as [|[k0 v0] d IH]; simpl.
  - by destruct (decide (k' = k)).
  - destruct (decide (k = k0)) as [->|Hne]; simpl.
    + by destruct (decide (k' = k0)).
    + destruct (decide (k' = k0)) as [->|?].
      * by rewrite decide_False by congruence.
      * apply IH.
Qed.

Lemma dget_dset_eq k v d : dget k (dset k v d) = Some v.
Proof. by rewrite dget_dset, decide_True. Qed.

Lemma dget_dset_ne k k' v d : k' ≠ k → dget k' (dset k v d) = dget k' d.
Proof. intros. by rewrite dget_dset, decide_False. Qed.

Lemma dget_is_Some k d : is_Some (dget k d) ↔ k ∈ dkeys d.
Proof.
  unfold dkeys. induction d as [|[k0 v0] d IH]; simpl.
  - split; [by intros [? ?] | by intros ?%elem_of_nil].
  - destruct (decide (k = k0)) as [->|Hne].
    + split; [intros _; left | eauto].
    + rewrite IH, elem_of_cons. naive_solver.
Qed.

Lemma dget_None k d : dget k d = None ↔ k ∉ dkeys d.
Proof. rewrite <- dget_is_Some, eq_None_not_Some. done. Qed.

Lemma dget_Some_elem k v d : dget k d = Some v → (k, v) ∈ d.
Proof.
  induction d as [|[k0 v0] d IH]; simpl; [done|].
  destruct (decide (k = k0)) as [->|Hne].
  - intros [= ->]. left.
  - intros. right. auto.
Qed.

(** Writing the value a key already has changes nothing. *)
Lemma dset_same k v d : dget k d = Some v → dset k v d = d.
Proof.
  induction d as [|[k0 v0] d IH]; simpl; [done|].
  destruct (decide (k = k0)) as [->|Hne].
  - by intros [= ->].
  - intros. f_equal. auto.
Qed.

Lemma dset_new k v d : dget k d = None → dset k v d = d ++ [(k, v)].
Proof.
  induction d as [|[k0 v0] d IH]; simpl; [done|].
  destruct (decide (k = k0)) as [->|Hne]; [done|].
  intros. f_equal. auto.
Qed.

Lemma dkeys_dset_old k v d : is_Some (dget k d) → dkeys (dset k v d) = dkeys d.
Proof.
  unfold dkeys. induction d as [|[k0 v0] d IH]; simpl.
  - by intros [? ?].
  - destruct (decide (k = k0)) as [->|Hne]; simpl; [done|].
    intros. f_equal. auto.
Qed.

Lemma dkeys_dset_new k v d : dget k d = None → dkeys (dset k v d) = dkeys d ++ [k].
Proof. intros. rewrite dset_new by done. unfold dkeys. by rewrite fmap_app. Qed.

Lemma elem_of_dkeys_dset k k' v d :
  k' ∈ dkeys (dset k v d) ↔ k' = k ∨ k' ∈ dkeys d.
Proof.
  rewrite <- !dget_is_Some, dget_dset.
  destruct (decide (k' = k)); naive_solver.
Qed.

Lemma NoDup_dkeys_dset k v d : NoDup (dkeys d) → NoDup (dkeys (dset k v d)).
Proof.
  intros Hnd. destruct (dget k d) as [v0|] eqn:E.
  - by rewrite dkeys_dset_old by eauto.
  - rewrite dkeys_dset_new by done.
    apply NoDup_app. split_and!; [done| |apply NoDup_singleton].
    intros x Hx ->%list_elem_of_singleton. by apply dget_None in E.
Qed.

(** A dictionary is determined by its key sequence and its lookups. *)
Lemma dict_ext d1 d2 :
  NoDup (dkeys d1) → dkeys d1 = dkeys d2 →
  (∀ k, dget k d1 = dget k d2) → d1 = d2.
Proof.
  revert d2. induction d1 as [|[k1 v1] d1 IH]; intros [|[k2 v2] d2]; simpl;
    try done.
  intros Hnd [= <- Hk] Hget. apply NoDup_cons in Hnd as [Hnotin Hnd].
  pose proof (Hget k1) as H1. simpl in H1. rewrite !decide_True in H1 by done.
  injection H1 as <-. f_equal. apply IH; [done..|].
  intros k. specialize (Hget k). simpl in Hget.
  destruct (decide (k = k1)) as [->|?]; [|done].
  transitivity (@None V); [by apply dget_None | symmetry; apply dget_None].
  by rewrite <- Hk.
Qed.

Lemma NoDup_dkeys_dict_of (items : list (K * V)) : NoDup (dkeys (dict_of items)).
Proof.
  unfold dict_of.
  assert (∀ d, NoDup (dkeys d) →
    NoDup (dkeys (foldl (λ d kv, dset kv.1 kv.2 d) d items))) as H.
  { induction items as [|[k v] items IH]; simpl; [done|].
    intros d Hd. apply IH. by apply NoDup_dkeys_dset. }
  apply H. constructor.
Qed.
End dict_facts.

(** ** Sequences *)

Section seq_facts.
Context {A : Type} `{EqDecision A}.
Implicit Types (l : list A) (x y : A).

Lemma elem_of_drop_duplicates x l : x ∈ drop_duplicates l ↔ x ∈ l.
Proof.
  induction l as [|y l IH]; simpl; [done|].
  rewrite !elem_of_cons, list_elem_of_filter, IH.
  destruct (decide (x = y)); naive_solver.
Qed.

Lemma NoDup_drop_duplicates l : NoDup (drop_duplicates l).
Proof.
  induction l as [|y l IH]; simpl; constructor.
  - rewrite list_elem_of_filter. naive_solver.
  - by apply NoDup_filter.
Qed.

Lemma drop_duplicates_nil_inv l : drop_duplicates l = [] → l = [].
Proof. by destruct l. Qed.

Lemma elem_of_combinations x y l :
  (x, y) ∈ combinations l → x ∈ l ∧ y ∈ l.
Proof.
  induction l as [|z l IH]; simpl; [by intros ?%elem_of_nil|].
  rewrite elem_of_app, list_elem_of_fmap, !elem_of_cons.
  intros [(w & [= -> ->] & Hw)|H]; [by auto|]. naive_solver.
Qed.

(** Two different members of a list are paired by [combinations], in the
    order in which they occur. *)
Lemma combinations_covers x y l :
  x ≠ y → x ∈ l → y ∈ l →
  (x, y) ∈ combinations l ∨ (y, x) ∈ combinations l.
Proof.
  intros Hne. induction l as [|z l IH]; simpl; [by intros ?%elem_of_nil|].
  rewrite !elem_of_cons, !elem_of_app, !list_elem_of_fmap.
  intros [->|Hx] [->|Hy]; [done|left|right|]; [eauto..|].
  destruct (IH Hx Hy); auto.
Qed.

Lemma combinations_NoDup_ne x y l :
  NoDup l → (x, y) ∈ combinations l → x ≠ y.
Proof.
  induction 1 as [|z l Hz Hnd IH]; simpl; [by intros ?%elem_of_nil|].
  rewrite elem_of_app, list_elem_of_fmap.
  intros [(w & [= -> ->] & Hw)|H]; [|by auto].
  intros ->. done.
Qed.

Lemma filter_none (P : A → Prop) `{∀ x, Decision (P x)} l :
  (∀ x, x ∈ l → ¬ P x) → filter P l = [].
Proof.
  induction l as [|z l IH]; [done|]. intros HP.
  rewrite filter_cons, decide_False by (apply HP; left).
  apply IH. intros x Hx. apply HP. by right.
Qed.

Lemma filter_eq_NoDup x l :
  NoDup l → x ∈ l → filter (λ y, y = x) l = [x].
Proof.
  induction 1 as [|z l Hz Hnd IH]; [by intros ?%elem_of_nil|].
  rewrite filter_cons. intros [->|Hx]%elem_of_cons.
  - rewrite decide_True by done. f_equal.
    apply filter_none. intros y Hy ->. done.
  - rewrite decide_False by (intros ->; done). auto.
Qed.
End seq_facts.

Section sort_facts.
Context {A : Type} (leb : A → A → bool).
Implicit Types (l : list A) (x : A).

Lemma insert_sorted_perm x l : insert_sorted leb x l ≡ₚ x :: l.
Proof.
  induction l as [|y l IH]; simpl; [done|].
  destruct (leb x y); [done|]. rewrite IH. apply Permutation_swap.
Qed.

Lemma stable_sort_perm l : stable_sort leb l ≡ₚ l.
Proof.
  unfold stable_sort. induction l as [|y l IH]; simpl; [done|].
  by rewrite insert_sorted_perm, IH.
Qed.

Lemma elem_of_stable_sort x l : x ∈ stable_sort leb l ↔ x ∈ l.
Proof. by rewrite stable_sort_perm. Qed.

Lemma NoDup_stable_sort l : NoDup l → NoDup (stable_sort leb l).
Proof. by rewrite stable_sort_perm. Qed.

Lemma stable_sort_nil_inv l : stable_sort leb l = [] → l = [].
Proof.
  intros H. apply Permutation_nil_r. by rewrite <- H, stable_sort_perm.
Qed.
End sort_facts.

Section sorted_facts.
Context {A : Type} (key : A → Z).
Implicit Types (l : list A) (x : A).

Local Abbreviation le_key := (λ x y : A, (key x <=? key y)%Z).

Lemma sorted_perm l : sorted key l ≡ₚ l.
Proof. apply stable_sort_perm. Qed.

Lemma insert_sorted_key_sorted x l :
  StronglySorted (λ a b, (key a ≤ key b)%Z) l →
  StronglySorted (λ a b, (key a ≤ key b)%Z) (insert_sorted le_key x l).
Proof.
  induction 1 as [|y l Hl IH Hy]; simpl.
  - repeat constructor.
  - destruct (Z.leb_spec (key x) (key y)) as [Hle|Hgt].
    + constructor; [by constructor|]. constructor; [done|].
      eapply Forall_impl; [exact Hy|]. simpl. intros; lia.
    + constructor; [done|].
      rewrite (insert_sorted_perm le_key x l). constructor; [lia|done].
Qed.

(** The result of [sorted] is non-decreasing in the key. *)
Lemma sorted_key_sorted l :
  StronglySorted (λ a b, (key a ≤ key b)%Z) (sorted key l).
Proof.
  unfold sorted, stable_sort. induction l as [|x l IH]; simpl; [constructor|].
  by apply insert_sorted_key_sorted.
Qed.

Lemma insert_sorted_key_filter (w : Z) x l :
  filter (λ a, key a = w) (insert_sorted le_key x l)
  = filter (λ a, key a = w) (x :: l).
Proof.
  induction l as [|y l IH]; simpl; [done|].
  destruct (Z.leb_spec (key x) (key y)) as [Hle|Hgt]; [done|].
  rewrite (filter_cons _ y), IH, !filter_cons.
  destruct (decide (key y = w)), (decide (key x = w)); try done. lia.
Qed.

(** [sorted] is stable: elements with the same key keep their order. *)
Lemma sorted_stable (w : Z) l :
  filter (λ a, key a = w) (sorted key l) = filter (λ a, key a = w) l.
Proof.
  unfold sorted, stable_sort. induction l as [|x l IH]; simpl; [done|].
  rewrite insert_sorted_key_filter, !filter_cons, IH. done.
Qed.
End sorted_facts.

(** ** The builder monad *)

Lemma bind_Ok {A B} (m : M A) (f : A → M B) G a G' :
  m G = (Ok a, G') → (m ≫= f) G = f a G'.
Proof. unfold mbind, M_bind. by intros ->. Qed.

Lemma bind_Raise {A B} (m : M A) (f : A → M B) G e G' :
  m G = (Raise e, G') → (m ≫= f) G = (Raise e, G').
Proof. unfold mbind, M_bind. by intros ->. Qed.

Lemma bind_Ok_inv {A B} (m : M A) (f : A → M B) G b G2 :
  (m ≫= f) G = (Ok b, G2) →
  ∃ a G1, m G = (Ok a, G1) ∧ f a G1 = (Ok b, G2).
Proof.
  unfold mbind, M_bind. destruct (m G) as [[a|e] G1]; [eauto|done].
Qed.

Lemma lift_Ok_inv {A} (o : outcome A) G a G' :
  lift o G = (Ok a, G') → o = Ok a ∧ G' = G.
Proof. unfold lift. by intros [= -> ->]. Qed.

(** A loop whose body never raises is a left fold over the graph. *)
Lemma for_each_run {A} (l : list A) (body : A → M unit) (f : Graph → A → Graph) :
  (∀ x, x ∈ l → ∀ G, body x G = (Ok tt, f G x)) →
  ∀ G, for_each l body G = (Ok tt, foldl f G l).
Proof.
  induction l as [|x l IH]; intros Hb G; simpl; [done|].
  rewrite (bind_Ok _ _ G tt (f G x)) by (apply Hb; left).
  apply IH. intros y Hy. apply Hb. by right.
Qed.

(** A loop that completes has run every body to completion. *)
Lemma for_each_inv {A} (l : list A) (body : A → M unit) (f : Graph → A → Graph) :
  (∀ x, x ∈ l → ∀ G G', body x G = (Ok tt, G') → G' = f G x) →
  ∀ G G', for_each l body G = (Ok tt, G') → G' = foldl f G l.
Proof.
  induction l as [|x l IH]; intros Hb G G'; simpl.
  - by intros [= ->].
  - intros ([] & G1 & H1 & H2)%bind_Ok_inv.
    apply Hb in H1 as ->; [|left].
    apply IH in H2; [done|]. intros y Hy. apply Hb. by right.
Qed.

(** A loop raises as soon as one body does; an empty loop never does. *)
Lemma for_each_first_raise {A} (x : A) (l : list A) (body : A → M unit) G e :
  body x G = (Raise e, G) → for_each (x :: l) body G = (Raise e, G).
Proof. intros H. simpl. by apply bind_Raise. Qed.

(** ** The graph seen through its edges *)

Lemma same_pair_swap u v a b : same_pair u v a b ↔ same_pair u v b a.
Proof. unfold same_pair. naive_solver. Qed.

Lemma same_pair_flip u v a b : same_pair u v a b ↔ same_pair v u a b.
Proof. unfold same_pair. naive_solver. Qed.

Lemma same_pair_comm u v a b : same_pair u v a b ↔ same_pair a b u v.
Proof. unfold same_pair. naive_solver. Qed.

Lemma wf_nx_Graph : wf nx_Graph.
Proof. split; try done. by intros u v [? ?]. Qed.

Lemma has_edge_ref u v G : has_edge u v G = bool_decide (is_Some (edge_ref G u v)).
Proof.
  unfold has_edge, edge_ref, aref. by destruct (dget u (_adj G)).
Qed.

Lemma has_edge_true u v G : has_edge u v G = true ↔ is_Some (edge_ref G u v).
Proof. by rewrite has_edge_ref, bool_decide_eq_true. Qed.

Lemma has_edge_weight u v G :
  wf G → has_edge u v G = true ↔ is_Some (edge_weight G u v).
Proof.
  intros Hwf. rewrite has_edge_true. unfold edge_weight. split.
  - intros [r Hr]. rewrite Hr. simpl. apply lookup_lt_is_Some.
    by eapply wf_bound.
  - intros [w Hw]. destruct (edge_ref G u v); [eauto|done].
Qed.

Lemma aref_adj_set adj u v r a b :
  aref (adj_set u v r adj) a b
  = if decide (a = u ∧ b = v) then Some r else aref adj a b.
Proof.
  unfold aref, adj_set. rewrite dget_dset.
  destruct (decide (a = u)) as [->|Hne]; simpl.
  - rewrite dget_dset. destruct (decide (b = v)) as [->|?].
    + by rewrite decide_True.
    + rewrite decide_False by naive_solver. by destruct (dget u adj).
  - by rewrite decide_False by naive_solver.
Qed.

Lemma aref_default adj u v : dget v (default [] (dget u adj)) = aref adj u v.
Proof. unfold aref. by destruct (dget u adj). Qed.

Lemma adj_set_same adj u v r : aref adj u v = Some r → adj_set u v r adj = adj.
Proof.
  unfold aref, adj_set. destruct (dget u adj) as [nb|] eqn:E; [simpl|done].
  intros H. rewrite (dset_same v r nb) by done. by apply dset_same.
Qed.

(** *** [ensure_node] and [add_node] leave the edges alone *)

Lemma edge_ref_ensure_node n G a b :
  wf G → edge_ref (ensure_node n G) a b = edge_ref G a b.
Proof.
  intros Hwf. unfold ensure_node. destruct (dget n (_node G)) eqn:E; [done|].
  unfold edge_ref, aref; simpl. rewrite dget_dset.
  destruct (decide (a = n)) as [->|]; [simpl|done].
  symmetry. apply eq_None_not_Some. intros H.
  apply (wf_node _ Hwf) in H. rewrite E in H. by destruct H.
Qed.

Lemma edge_data_ensure_node n G : edge_data (ensure_node n G) = edge_data G.
Proof. unfold ensure_node. by destruct (dget n (_node G)). Qed.

Lemma node_ensure_node n G k :
  is_Some (dget k (_node (ensure_node n G)))
  ↔ k = n ∨ is_Some (dget k (_node G)).
Proof.
  unfold ensure_node. destruct (dget n (_node G)) eqn:E; simpl.
  - split; [auto|]. intros [->|?]; [by rewrite E|done].
  - rewrite dget_dset. destruct (decide (k = n)); naive_solver.
Qed.

Lemma ensure_node_id n G : is_Some (dget n (_node G)) → ensure_node n G = G.
Proof. unfold ensure_node. by intros [? ->]. Qed.

Lemma wf_ensure_node n G : wf G → wf (ensure_node n G).
Proof.
  intros Hwf. split.
  - intros u v. rewrite !edge_ref_ensure_node by done. apply Hwf.
  - intros u v r. rewrite edge_ref_ensure_node, edge_data_ensure_node by done.
    apply Hwf.
  - intros u v a b r. rewrite !edge_ref_ensure_node by done. apply Hwf.
  - intros u v. rewrite edge_ref_ensure_node, node_ensure_node by done.
    intros H. right. by eapply wf_node.
Qed.

Lemma edge_ref_add_node n a G x y :
  wf G → edge_ref (add_node n a G) x y = edge_ref G x y.
Proof.
  intros Hwf. unfold add_node. destruct (dget n (_node G)) eqn:E; [done|].
  unfold edge_ref, aref; simpl. rewrite dget_dset.
  destruct (decide (x = n)) as [->|]; [simpl|done].
  symmetry. apply eq_None_not_Some. intros H.
  apply (wf_node _ Hwf) in H. rewrite E in H. by destruct H.
Qed.

Lemma edge_data_add_node n a G : edge_data (add_node n a G) = edge_data G.
Proof. unfold add_node. by destruct (dget n (_node G)). Qed.

Lemma node_add_node n a G : _node (add_node n a G) = dset n (Some a) (_node G).
Proof. unfold add_node. by destruct (dget n (_node G)). Qed.

Lemma add_node_old n a G :
  is_Some (dget n (_node G)) →
  add_node n a G = {| _node := dset n (Some a) (_node G);
                      _adj := _adj G; edge_data := edge_data G |}.
Proof. unfold add_node. by intros [? ->]. Qed.

Lemma wf_add_node n a G : wf G → wf (add_node n a G).
Proof.
  intros Hwf. split.
  - intros u v. rewrite !edge_ref_add_node by done. apply Hwf.
  - intros u v r. rewrite edge_ref_add_node, edge_data_add_node by done.
    apply Hwf.
  - intros u v x y r. rewrite !edge_ref_add_node by done. apply Hwf.
  - intros u v. rewrite edge_ref_add_node, node_add_node, dget_dset by done.
    intros H. destruct (decide (u = n)); [done|]. by eapply wf_node.
Qed.

Lemma edge_weight_add_node n a G x y :
  wf G → edge_weight (add_node n a G) x y = edge_weight G x y.
Proof.
  intros. unfold edge_weight. by rewrite edge_ref_add_node, edge_data_add_node.
Qed.

(** *** [add_edge] *)

Lemma edge_ref_add_edge u v w G a b :
  wf G →
  edge_ref (add_edge u v w G) a b
  = if decide (same_pair u v a b) then Some (edge_slot G u v) else edge_ref G a b.
Proof.
  intros Hwf. unfold add_edge, edge_slot. cbv zeta.
  set (G' := ensure_node v (ensure_node u G)).
  assert (∀ x y, edge_ref G' x y = edge_ref G x y) as Href.
  { intros. unfold G'. by rewrite !edge_ref_ensure_node by auto using wf_ensure_node. }
  assert (edge_data G' = edge_data G) as Hdata.
  { unfold G'. by rewrite !edge_data_ensure_node. }
  rewrite aref_default. fold (edge_ref G' u v). rewrite Href.
  destruct (edge_ref G u v) as [r|] eqn:E; unfold edge_ref; simpl;
    rewrite !aref_adj_set; fold (edge_ref G' a b); rewrite Href, ?Hdata;
    unfold same_pair;
    destruct (decide (a = v ∧ b = u)), (decide (a = u ∧ b = v));
    first [by rewrite decide_True by auto | by rewrite decide_False by naive_solver].
Qed.

Lemma edge_data_add_edge u v w G :
  wf G →
  edge_data (add_edge u v w G)
  = match edge_ref G u v with
    | Some r => <[r := w]> (edge_data G)
    | None => edge_data G ++ [w]
    end.
Proof.
  intros Hwf. unfold add_edge. cbv zeta.
  rewrite aref_default. fold (edge_ref (ensure_node v (ensure_node u G)) u v).
  rewrite !edge_ref_ensure_node by auto using wf_ensure_node.
  destruct (edge_ref G u v); simpl; by rewrite !edge_data_ensure_node.
Qed.

Lemma node_add_edge u v w G k :
  is_Some (dget k (_node (add_edge u v w G)))
  ↔ k = u ∨ k = v ∨ is_Some (dget k (_node G)).
Proof.
  unfold add_edge. cbv zeta.
  destruct (dget v (default [] (dget u (_adj (ensure_node v (ensure_node u G))))));
    simpl; rewrite !node_ensure_node; naive_solver.
Qed.

Lemma node_add_edge_old u v w G :
  is_Some (dget u (_node G)) → is_Some (dget v (_node G)) →
  _node (add_edge u v w G) = _node G.
Proof.
  intros Hu Hv. unfold add_edge. cbv zeta.
  rewrite (ensure_node_id u), (ensure_node_id v) by done.
  by destruct (dget v (default [] (dget u (_adj G)))).
Qed.

Lemma wf_add_edge u v w G : wf G → wf (add_edge u v w G).
Proof.
  intros Hwf.
  assert (length (edge_data G) ≤ length (edge_data (add_edge u v w G))) as Hlen.
  { rewrite edge_data_add_edge by done.
    destruct (edge_ref G u v); [by rewrite length_insert|].
    rewrite length_app. lia. }
  assert (edge_slot G u v < length (edge_data (add_edge u v w G))) as Hslot.
  { rewrite edge_data_add_edge by done. unfold edge_slot.
    destruct (edge_ref G u v) as [r|] eqn:E; simpl.
    - rewrite length_insert. by eapply wf_bound.
    - rewrite length_app. simpl. lia. }
  assert (∀ a b, edge_ref G a b = Some (edge_slot G u v) → same_pair u v a b)
    as Hfresh.
  { intros a b Hab. unfold edge_slot in Hab.
    destruct (edge_ref G u v) as [r|] eqn:E; simpl in Hab.
    - by eapply wf_inj.
    - apply (wf_bound _ Hwf) in Hab. lia. }
  split.
  - intros a b. rewrite !edge_ref_add_edge by done.
    destruct (decide (same_pair u v a b)) as [H|H].
    + by rewrite decide_True by by apply same_pair_swap.
    + rewrite decide_False by by rewrite <- same_pair_swap. apply Hwf.
  - intros a b r. rewrite edge_ref_add_edge by done.
    destruct (decide (same_pair u v a b)); [by intros [= <-]|].
    intros ?%(wf_bound _ Hwf). lia.
  - intros a b x y r. rewrite !edge_ref_add_edge by done.
    destruct (decide (same_pair u v a b)) as [Hab|Hab],
             (decide (same_pair u v x y)) as [Hxy|Hxy].
    + intros _ _. unfold same_pair in *. naive_solver.
    + intros [= <-] ?%Hfresh. done.
    + intros H1 [= <-]. by apply Hfresh in H1.
    + apply Hwf.
  - intros a b. rewrite edge_ref_add_edge, node_add_edge by done.
    destruct (decide (same_pair u v a b)) as [Hab|Hab].
    + unfold same_pair in Hab. naive_solver.
    + intros H. right; right. by eapply wf_node.
Qed.

(** After [add_edge u v w] the edge [{u, v}] has weight [w] and every other
    edge is as before. *)
Lemma edge_weight_add_edge u v w G a b :
  wf G →
  edge_weight (add_edge u v w G) a b
  = if decide (same_pair u v a b) then Some w else edge_weight G a b.
Proof.
  intros Hwf. unfold edge_weight.
  rewrite edge_ref_add_edge, edge_data_add_edge by done. unfold edge_slot.
  destruct (decide (same_pair u v a b)) as [Hab|Hab]; simpl.
  - destruct (edge_ref G u v) as [r|] eqn:E; simpl.
    + apply list_lookup_insert_eq. by eapply wf_bound.
    + by rewrite lookup_app_r, Nat.sub_diag.
  - destruct (edge_ref G a b) as [s|] eqn:Es; simpl; [|done].
    destruct (edge_ref G u v) as [r|] eqn:E.
    + apply list_lookup_insert_ne. intros ->. apply Hab. by eapply wf_inj.
    + apply lookup_app_l. by eapply wf_bound.
Qed.

(** Adding an edge that is already there, with the weight it already has,
    changes nothing. *)
Lemma add_edge_absorbed u v w G r :
  is_Some (dget u (_node G)) → is_Some (dget v (_node G)) →
  edge_ref G u v = Some r → edge_ref G v u = Some r →
  edge_data G !! r = Some w →
  add_edge u v w G = G.
Proof.
  intros Hu Hv Huv Hvu Hr. unfold add_edge. cbv zeta.
  rewrite (ensure_node_id u), (ensure_node_id v) by done.
  rewrite aref_default. fold (edge_ref G u v). rewrite Huv.
  rewrite (adj_set_same _ u v r), (adj_set_same _ v u r) by done.
  rewrite list_insert_id by done. by destruct G.
Qed.

(** *** [G[u][v]['weight'] += d] *)

Lemma iadd_weight_cases u v d G :
  (is_Some (edge_ref G u v) ∧ iadd_weight u v d G = (Ok tt, bump u v d G))
  ∨ (edge_ref G u v = None ∧ ∃ e, iadd_weight u v d G = (Raise e, G)).
Proof.
  unfold iadd_weight, bump, edge_ref, aref.
  destruct (dget u (_adj G)) as [nb|]; simpl; [|right; eauto].
  destruct (dget v nb); simpl; [left; eauto|right; eauto].
Qed.

Lemma edge_ref_bump u v d G a b : edge_ref (bump u v d G) a b = edge_ref G a b.
Proof. unfold bump. by destruct (edge_ref G u v). Qed.

Lemma node_bump u v d G : _node (bump u v d G) = _node G.
Proof. unfold bump. by destruct (edge_ref G u v). Qed.

Lemma length_edge_data_bump u v d G :
  length (edge_data (bump u v d G)) = length (edge_data G).
Proof. unfold bump. destruct (edge_ref G u v); [apply length_alter|done]. Qed.

Lemma wf_bump u v d G : wf G → wf (bump u v d G).
Proof.
  intros Hwf. split.
  - intros a b. rewrite !edge_ref_bump. apply Hwf.
  - intros a b r. rewrite edge_ref_bump, length_edge_data_bump. apply Hwf.
  - intros a b x y r. rewrite !edge_ref_bump. apply Hwf.
  - intros a b. rewrite edge_ref_bump, node_bump. apply Hwf.
Qed.

Lemma edge_ref_same_pair G u v a b :
  wf G → same_pair u v a b → edge_ref G a b = edge_ref G u v.
Proof. intros Hwf [[-> ->]|[-> ->]]; [done|apply Hwf]. Qed.

Lemma edge_weight_same_pair G u v a b :
  wf G → same_pair u v a b → edge_weight G a b = edge_weight G u v.
Proof. intros. unfold edge_weight. by rewrite (edge_ref_same_pair G u v a b). Qed.

Lemma edge_weight_bump u v d G a b :
  wf G →
  edge_weight (bump u v d G) a b
  = if decide (same_pair u v a b)
    then (λ w, (w + d)%Z) <$> edge_weight G a b
    else edge_weight G a b.
Proof.
  intros Hwf. unfold edge_weight at 1. rewrite edge_ref_bump.
  destruct (decide (same_pair u v a b)) as [Hab|Hab].
  - unfold edge_weight. rewrite (edge_ref_same_pair G u v a b) by done.
    unfold bump. destruct (edge_ref G u v) as [r|]; simpl; [|done].
    apply list_lookup_alter_eq.
  - unfold edge_weight, bump.
    destruct (edge_ref G a b) as [s|] eqn:Es; simpl; [|done].
    destruct (edge_ref G u v) as [r|] eqn:E; simpl; [|done].
    apply list_lookup_alter_ne. intros ->. apply Hab. by eapply wf_inj.
Qed.

(** ** The pandas operations *)

Lemma getitem_run df c :
  c ∈ columns df → getitem df c = Ok ((λ r, r c) <$> rows df).
Proof. intros. unfold getitem. by rewrite decide_True. Qed.

Lemma getitem_Ok_inv df c l :
  getitem df c = Ok l → c ∈ columns df ∧ l = (λ r, r c) <$> rows df.
Proof. unfold getitem. case_decide; [by intros [= <-]|done]. Qed.

Lemma getitem_raise df c :
  c ∉ columns df → getitem df c = Raise (KeyError [VStr c]).
Proof. intros. unfold getitem. by rewrite decide_False. Qed.

Lemma getitem2_run df c1 c2 :
  c1 ∈ columns df → c2 ∈ columns df →
  getitem2 df c1 c2 = Ok ((λ r, (r c1, r c2)) <$> rows df).
Proof.
  intros H1 H2. unfold getitem2. rewrite !filter_cons, filter_nil.
  rewrite !decide_False; [done|by intros []..].
Qed.

Lemma string_app_nil_r (s : string) : s +:+ EmptyString = s.
Proof.
  induction s as [|a s IH]; [done|].
  change (String a (s +:+ EmptyString) = String a s). by rewrite IH.
Qed.

Lemma string_app_assoc (s1 s2 s3 : string) :
  (s1 +:+ s2) +:+ s3 = s1 +:+ (s2 +:+ s3).
Proof.
  induction s1 as [|a s1 IH]; [done|].
  change (String a ((s1 +:+ s2) +:+ s3) = String a (s1 +:+ (s2 +:+ s3))).
  by rewrite IH.
Qed.

Lemma mentions_refl (m : string) : mentions m m.
Proof. exists EmptyString, EmptyString. by rewrite string_app_nil_r. Qed.

Lemma mentions_app_l (pre msg m : string) : mentions msg m → mentions (pre +:+ msg) m.
Proof.
  intros (p & q & ->). exists (pre +:+ p), q. by rewrite string_app_assoc.
Qed.

Lemma mentions_app_r (msg post m : string) : mentions msg m → mentions (msg +:+ post) m.
Proof.
  intros (p & q & ->). exists p, (q +:+ post). by rewrite !string_app_assoc.
Qed.

(** The [repr] of a list of labels contains each of them. *)
Lemma mentions_py_repr_list (labels : list string) (m : string) :
  m ∈ labels → mentions (py_repr_list labels) m.
Proof.
  intros Hm. unfold py_repr_list. apply mentions_app_l, mentions_app_r.
  induction labels as [|c labels IH]; [by apply elem_of_nil in Hm|].
  rewrite fmap_cons. apply elem_of_cons in Hm as [->|Hm].
  - assert (mentions (py_repr c) c) as Hc.
    { unfold py_repr. apply mentions_app_l, mentions_app_r, mentions_refl. }
    destruct labels; simpl; [done|]. by apply mentions_app_r.
  - destruct labels as [|c' labels]; [by apply elem_of_nil in Hm|].
    change (mentions (py_repr c +:+ ", "
                      +:+ String.concat ", " (py_repr <$> c' :: labels)) m).
    by apply mentions_app_l, mentions_app_l, IH.
Qed.

Lemma getitem2_cases df c1 c2 :
  (c1 ∈ columns df ∧ c2 ∈ columns df
   ∧ getitem2 df c1 c2 = Ok ((λ r, (r c1, r c2)) <$> rows df))
  ∨ (∃ msg m, getitem2 df c1 c2 = Raise (KeyError [VStr msg])
              ∧ (m = c1 ∨ m = c2) ∧ (m ∉ columns df) ∧ mentions msg m).
Proof.
  destruct (decide (c1 ∈ columns df)) as [H1|H1],
           (decide (c2 ∈ columns df)) as [H2|H2].
  - left. by rewrite getitem2_run.
  - right. eexists _, c2. unfold getitem2. rewrite !filter_cons, filter_nil.
    rewrite decide_False, decide_True by auto.
    split_and!; [done|by right|done|].
    apply mentions_app_r, mentions_py_repr_list. set_solver.
  - right. eexists _, c1. unfold getitem2. rewrite !filter_cons, filter_nil.
    rewrite decide_True, decide_False by auto.
    split_and!; [done|by left|done|].
    apply mentions_app_r, mentions_py_repr_list. set_solver.
  - right. eexists _, c1. unfold getitem2. rewrite !filter_cons, filter_nil.
    rewrite !decide_True by auto.
    split_and!; [done|by left|done|].
    apply mentions_app_l, mentions_app_r, mentions_py_repr_list. set_solver.
Qed.

(** The message when exactly one of the two labels is not a column. *)
Lemma getitem2_raise_one df c1 c2 m :
  (m = c1 ∧ (c1 ∉ columns df) ∧ c2 ∈ columns df)
  ∨ (m = c2 ∧ (c2 ∉ columns df) ∧ c1 ∈ columns df) →
  getitem2 df c1 c2
  = Raise (KeyError [VStr ("['" +:+ m +:+ "'] not in index")]).
Proof.
  unfold getitem2. rewrite !filter_cons, filter_nil.
  intros [(-> & H1 & H2)|(-> & H2 & H1)].
  - rewrite decide_True, decide_False by auto.
    unfold py_repr_list, py_repr. cbn [fmap list_fmap String.concat].
    by rewrite !string_app_assoc.
  - rewrite decide_False, decide_True by auto.
    unfold py_repr_list, py_repr. cbn [fmap list_fmap String.concat].
    by rewrite !string_app_assoc.
Qed.

Lemma loc_iloc0_run df idc k c r :
  idc ∈ columns df → c ∈ columns df →
  head (filter (λ r, r idc = k) (rows df)) = Some r →
  loc_iloc0 df idc k c = Ok (r c).
Proof.
  intros Hid Hc Hr. unfold loc_iloc0. rewrite getitem_run by done. simpl.
  rewrite decide_True by done.
  by destruct (filter (λ r, r idc = k) (rows df)); simplify_eq/=.
Qed.

Lemma loc_iloc0_Ok_inv df idc k c x :
  loc_iloc0 df idc k c = Ok x →
  ∃ r, head (filter (λ r, r idc = k) (rows df)) = Some r ∧ x = r c.
Proof.
  unfold loc_iloc0. destruct (getitem df idc); simpl; [|done].
  case_decide; [|done].
  destruct (filter (λ r, r idc = k) (rows df)) as [|r ?]; [done|].
  intros [= <-]. eauto.
Qed.

Lemma loc_iloc0_raise df idc k c :
  idc ∈ columns df → c ∉ columns df →
  loc_iloc0 df idc k c = Raise (KeyError [VStr c]).
Proof.
  intros Hid Hc. unfold loc_iloc0. rewrite getitem_run by done. simpl.
  by rewrite decide_False.
Qed.

Lemma first_row_is_Some df k :
  (∃ r, r ∈ rows df ∧ r "id_deputado" = k) → is_Some (first_row df k).
Proof.
  intros (r & Hr & Hk). unfold first_row.
  destruct (filter (λ r, r "id_deputado" = k) (rows df)) as [|r' l] eqn:E;
    [|by eauto].
  exfalso. eapply filter_nil_not_elem_of; [exact E| |exact Hr]. done.
Qed.

Lemma first_row_Some df k r :
  first_row df k = Some r → r ∈ rows df ∧ r "id_deputado" = k.
Proof.
  unfold first_row. intros H.
  assert (r ∈ filter (λ r, r "id_deputado" = k) (rows df)) as Hin.
  { destruct (filter _ (rows df)); simplify_eq/=. left. }
  apply list_elem_of_filter in Hin. naive_solver.
Qed.

Lemma elem_of_dep_pairs df c_nome i n :
  (i, n) ∈ dep_pairs df c_nome
  ↔ ∃ r, r ∈ rows df ∧ r "id_deputado" = i ∧ r c_nome = n.
Proof.
  unfold dep_pairs. rewrite elem_of_drop_duplicates, list_elem_of_fmap.
  naive_solver.
Qed.

Lemma elem_of_dep_ids df c_nome i :
  i ∈ (dep_pairs df c_nome).*1 ↔ ∃ r, r ∈ rows df ∧ r "id_deputado" = i.
Proof.
  rewrite list_elem_of_fmap. split.
  - intros ([i' n] & -> & H). apply elem_of_dep_pairs in H. naive_solver.
  - intros (r & Hr & <-). exists (r "id_deputado", r c_nome). split; [done|].
    apply elem_of_dep_pairs. eauto.
Qed.

(** ** The node loop *)

Lemma add_nodes_inv df c_nome c_partido c_uf G G' :
  add_nodes df c_nome c_partido c_uf G = (Ok tt, G') →
  G' = nodes_of df c_nome c_partido c_uf G.
Proof.
  unfold add_nodes. intros (pairs & G1 & [H1 ->]%lift_Ok_inv & H2)%bind_Ok_inv.
  destruct (getitem2_cases df "id_deputado" c_nome) as [(_ & _ & E)|(msg & m & E & _)];
    rewrite E in H1; simplify_eq/=.
  revert H2. apply for_each_inv. intros [i n] _ G0 G0'.
  intros (p & G2 & [Hp ->]%lift_Ok_inv & H3)%bind_Ok_inv.
  apply bind_Ok_inv in H3 as (u & G3 & [Hu ->]%lift_Ok_inv & H3).
  apply loc_iloc0_Ok_inv in Hp as (r & Hr & ->).
  apply loc_iloc0_Ok_inv in Hu as (r' & Hr' & ->).
  unfold modify in H3. simplify_eq. unfold node_step, first_row. simpl.
  by rewrite Hr.
Qed.

Lemma add_nodes_run df c_nome c_partido c_uf G :
  "id_deputado" ∈ columns df → c_nome ∈ columns df →
  c_partido ∈ columns df → c_uf ∈ columns df →
  add_nodes df c_nome c_partido c_uf G
  = (Ok tt, nodes_of df c_nome c_partido c_uf G).
Proof.
  intros Hid Hn Hp Hu. unfold add_nodes. rewrite getitem2_run by done.
  erewrite bind_Ok by done.
  apply for_each_run. intros [i n] Hin G0.
  destruct (first_row_is_Some df i) as [r Hr].
  { apply elem_of_dep_pairs in Hin. naive_solver. }
  unfold node_step. simpl. rewrite Hr.
  rewrite !(loc_iloc0_run df _ i _ r) by done. done.
Qed.

Lemma dget_fmap_key {K V} `{EqDecision K} (f : K → V) (ks : list K) (k : K) :
  dget k ((λ k, (k, f k)) <$> ks) = if decide (k ∈ ks) then Some (f k) else None.
Proof.
  induction ks as [|k0 ks IH].
  - destruct (decide (k ∈ [])) as [H|]; [by apply elem_of_nil in H|done].
  - rewrite fmap_cons. cbn [dget]. rewrite IH.
    destruct (decide (k = k0)) as [->|Hne].
    + by rewrite (decide_True (P := k0 ∈ k0 :: ks)) by left.
    + destruct (decide (k ∈ ks)).
      * by rewrite (decide_True (P := k ∈ k0 :: ks)) by by right.
      * rewrite (decide_False (P := k ∈ k0 :: ks)); [done|].
        by intros [?|?]%elem_of_cons.
Qed.

Lemma groupby_run df c :
  c ∈ columns df →
  groupby df c
  = Ok ((λ k, (k, {| columns := columns df;
                     rows := filter (λ r, r c = k) (rows df) |}))
        <$> stable_sort value_leb (drop_duplicates ((λ r, r c) <$> rows df))).
Proof. intros. unfold groupby. by rewrite getitem_run. Qed.

Lemma groupby_cases df c :
  (c ∈ columns df ∧ groupby df c
     = Ok ((λ k, (k, {| columns := columns df;
                        rows := filter (λ r, r c = k) (rows df) |}))
           <$> stable_sort value_leb (drop_duplicates ((λ r, r c) <$> rows df))))
  ∨ ((c ∉ columns df) ∧ groupby df c = Raise (KeyError [VStr c])).
Proof.
  destruct (decide (c ∈ columns df)).
  - left. by rewrite groupby_run.
  - right. unfold groupby. by rewrite getitem_raise.
Qed.

(** *** frente_network.py *)

Lemma frentes_empty df k :
  k ∉ (λ r, r "id_deputado") <$> rows df → frentes df k = ∅.
Proof.
  intros Hk. unfold frentes. rewrite filter_none; [done|].
  intros r Hr <-. apply Hk. apply list_elem_of_fmap. eauto.
Qed.

(** The dictionary built by [groupby('id_deputado')['titulo'].apply(set)]
    holds the set of titles of every legislator. *)
Lemma dep_frentes_get df d k :
  groupby_apply_set df "id_deputado" "titulo" = Ok d →
  default ∅ (dget k d) = frentes df k.
Proof.
  unfold groupby_apply_set.
  destruct (groupby_cases df "id_deputado") as [[_ ->]|[_ ->]]; simpl; [|done].
  case_decide; [|done]. intros [= <-].
  rewrite <- list_fmap_compose.
  rewrite (dget_fmap_key (λ k, frentes df k)).
  case_decide as Hk; [done|]. simpl. symmetry. apply frentes_empty.
  by rewrite elem_of_stable_sort, elem_of_drop_duplicates in Hk.
Qed.

Lemma frente_body_run df d G a b :
  groupby_apply_set df "id_deputado" "titulo" = Ok d →
  (let frentes_compartilhadas : gset value :=
     default ∅ (dget a d) ∩ default ∅ (dget b d) in
   let peso := size frentes_compartilhadas in
   if bool_decide (0 < peso) then modify (add_edge a b (Z.of_nat peso)) else mret tt) G
  = (Ok tt, frente_step df G (a, b)).
Proof.
  intros Hd. cbv zeta. rewrite !(dep_frentes_get df d) by done.
  unfold frente_step, shared. simpl. by case_bool_decide.
Qed.

Lemma frente_build_inv df G G' :
  FrenteNetwork.build_network df G = (Ok tt, G') → G' = frente_graph df G.
Proof.
  unfold FrenteNetwork.build_network.
  intros ([] & G1 & ->%add_nodes_inv & H)%bind_Ok_inv.
  apply bind_Ok_inv in H as (deps & G2 & [Hdeps ->]%lift_Ok_inv & H).
  apply bind_Ok_inv in H as (d & G3 & [Hd ->]%lift_Ok_inv & H).
  destruct (getitem2_cases df "id_deputado" "nome_deputado")
    as [(_ & _ & E)|(msg & m & E & _)]; rewrite E in Hdeps; simplify_eq/=.
  revert H. apply for_each_inv. intros [a b] _ G0 G0'.
  rewrite (frente_body_run df d) by done. by intros [= <-].
Qed.

Lemma frente_build_run df G :
  frente_columns ⊆ columns df →
  FrenteNetwork.build_network df G = (Ok tt, frente_graph df G).
Proof.
  intros Hc.
  assert (∀ c, c ∈ frente_columns → c ∈ columns df) as Hin by (intros; by apply Hc).
  unfold FrenteNetwork.build_network.
  erewrite bind_Ok by (apply add_nodes_run; apply Hin; set_solver).
  rewrite getitem2_run by (apply Hin; set_solver).
  erewrite bind_Ok by done.
  assert (∃ d, groupby_apply_set df "id_deputado" "titulo" = Ok d) as [d Hd].
  { unfold groupby_apply_set. rewrite groupby_run by (apply Hin; set_solver).
    simpl. rewrite decide_True by (apply Hin; set_solver). eauto. }
  rewrite Hd. erewrite bind_Ok by done.
  apply for_each_run. intros [a b] _ G0. by apply frente_body_run.
Qed.

(** *** voting_network.py *)

Lemma edge_ref_add_edge_self u v w G : is_Some (edge_ref (add_edge u v w G) u v).
Proof.
  unfold add_edge. cbv zeta.
  destruct (dget v (default [] (dget u (_adj (ensure_node v (ensure_node u G))))));
    unfold edge_ref; simpl; rewrite !aref_adj_set;
    (case_decide; [eauto|]); by rewrite decide_True by done.
Qed.

Lemma set_index_to_dict_run g i c :
  i ∈ columns g → c ∈ columns g → c ≠ i →
  set_index_to_dict g i c = Ok (dict_of ((λ r, (r i, r c)) <$> rows g)).
Proof.
  intros. unfold set_index_to_dict. by rewrite !decide_True.
Qed.

Lemma set_index_to_dict_Ok_inv g i c d :
  set_index_to_dict g i c = Ok d → d = dict_of ((λ r, (r i, r c)) <$> rows g).
Proof.
  unfold set_index_to_dict. case_decide; [|done].
  case_decide; [by intros [= <-]|done].
Qed.

Lemma subscript_run {V} (d : list (value * V)) k :
  k ∈ dkeys d → ∃ x, dget k d = Some x ∧ subscript d k = Ok x.
Proof.
  intros [x Hx]%dget_is_Some. exists x. unfold subscript. by rewrite Hx.
Qed.

(** One iteration of the inner loop of [VotingNetwork.build_network]. *)
Lemma vote_body_run votos G a b :
  a ∈ dkeys votos → b ∈ dkeys votos →
  (e ← gets (has_edge a b);
   (if negb e then modify (add_edge a b 0) else mret tt);;
   v1 ← lift (subscript votos a);
   v2 ← lift (subscript votos b);
   if decide (v1 = v2) then iadd_weight a b 1 else iadd_weight a b (-1)) G
  = (Ok tt, vote_step votos G (a, b)).
Proof.
  intros (x & Hx & Ex)%subscript_run (y & Hy & Ey)%subscript_run.
  unfold vote_step, vote_delta. simpl. rewrite Hx, Hy.
  erewrite bind_Ok by reflexivity.
  set (G1 := if has_edge a b G then G else add_edge a b 0 G).
  assert (is_Some (edge_ref G1 a b)) as Hedge.
  { unfold G1. destruct (has_edge a b G) eqn:E.
    - by apply has_edge_true.
    - apply edge_ref_add_edge_self. }
  erewrite (bind_Ok _ _ G tt G1).
  2:{ unfold G1. by destruct (has_edge a b G). }
  rewrite Ex, Ey. erewrite !bind_Ok by reflexivity.
  destruct (decide (x = y)) as [->|Hne].
  - rewrite decide_True by done.
    by destruct (iadd_weight_cases a b 1 G1) as [[_ ->]|[E _]];
      [|rewrite E in Hedge; destruct Hedge].
  - rewrite decide_False by congruence.
    by destruct (iadd_weight_cases a b (-1) G1) as [[_ ->]|[E _]];
      [|rewrite E in Hedge; destruct Hedge].
Qed.

Lemma ballot_body_inv df k G G' :
  (votos ← lift (set_index_to_dict
       {| columns := columns df; rows := filter (λ r, r "id" = k) (rows df) |}
       "id_deputado" "tipoVoto");
   let deputados := dkeys votos in
   for_each (combinations deputados) (λ p,
     let '(dep1, dep2) := p in
     e ← gets (has_edge dep1 dep2);
     (if negb e then modify (add_edge dep1 dep2 0) else mret tt);;
     v1 ← lift (subscript votos dep1);
     v2 ← lift (subscript votos dep2);
     if decide (v1 = v2) then iadd_weight dep1 dep2 1
     else iadd_weight dep1 dep2 (-1))) G = (Ok tt, G') →
  G' = ballot_step df G k.
Proof.
  intros (votos & G1 & [Hv ->]%lift_Ok_inv & H)%bind_Ok_inv.
  apply set_index_to_dict_Ok_inv in Hv. simpl in Hv. subst votos.
  fold (votos_of df k) in H. cbv zeta in H.
  rewrite (for_each_run _ _ (vote_step (votos_of df k))) in H.
  - by injection H as <-.
  - intros [a b] [Ha Hb]%elem_of_combinations G0. by apply vote_body_run.
Qed.

Lemma ballot_body_run df k G :
  "id_deputado" ∈ columns df → "tipoVoto" ∈ columns df →
  (votos ← lift (set_index_to_dict
       {| columns := columns df; rows := filter (λ r, r "id" = k) (rows df) |}
       "id_deputado" "tipoVoto");
   let deputados := dkeys votos in
   for_each (combinations deputados) (λ p,
     let '(dep1, dep2) := p in
     e ← gets (has_edge dep1 dep2);
     (if negb e then modify (add_edge dep1 dep2 0) else mret tt);;
     v1 ← lift (subscript votos dep1);
     v2 ← lift (subscript votos dep2);
     if decide (v1 = v2) then iadd_weight dep1 dep2 1
     else iadd_weight dep1 dep2 (-1))) G = (Ok tt, ballot_step df G k).
Proof.
  intros Hi Hc. rewrite set_index_to_dict_run by done. simpl rows.
  fold (votos_of df k). erewrite bind_Ok by reflexivity. cbv zeta.
  apply for_each_run.
  intros [a b] [Ha Hb]%elem_of_combinations G0. by apply vote_body_run.
Qed.

Lemma voting_build_inv df G G' :
  VotingNetwork.build_network df G = (Ok tt, G') → G' = voting_graph df G.
Proof.
  unfold VotingNetwork.build_network.
  intros ([] & G1 & ->%add_nodes_inv & H)%bind_Ok_inv.
  apply bind_Ok_inv in H as (groups & G2 & [Hg ->]%lift_Ok_inv & H).
  destruct (groupby_cases df "id") as [[_ E]|[_ E]]; rewrite E in Hg;
    simplify_eq/=.
  apply (for_each_inv _ _ (λ G kg, ballot_step df G kg.1)) in H.
  - rewrite H, foldl_fmap. done.
  - intros [k g] (k' & [= -> ->] & _)%list_elem_of_fmap G0 G0'.
    apply ballot_body_inv.
Qed.

Lemma voting_build_run df G :
  voting_columns ⊆ columns df →
  VotingNetwork.build_network df G = (Ok tt, voting_graph df G).
Proof.
  intros Hc.
  assert (∀ c, c ∈ voting_columns → c ∈ columns df) as Hin by (intros; by apply Hc).
  unfold VotingNetwork.build_network.
  erewrite bind_Ok by (apply add_nodes_run; apply Hin; set_solver).
  rewrite groupby_run by (apply Hin; set_solver).
  erewrite bind_Ok by done.
  rewrite (for_each_run _ _ (λ G kg, ballot_step df G kg.1)).
  - by rewrite foldl_fmap.
  - intros [k g] (k' & [= -> ->] & _)%list_elem_of_fmap G0.
    apply ballot_body_run; apply Hin; set_solver.
Qed.

(** ** Nodes *)

Lemma elem_of_nodes G k : k ∈ nodes G ↔ is_Some (dget k (_node G)).
Proof. unfold nodes. by rewrite dget_is_Some. Qed.

Lemma NoDup_nodes_ensure_node n G : NoDup (nodes G) → NoDup (nodes (ensure_node n G)).
Proof.
  unfold nodes, ensure_node. destruct (dget n (_node G)); simpl; [done|].
  apply NoDup_dkeys_dset.
Qed.

Lemma NoDup_nodes_add_edge u v w G : NoDup (nodes G) → NoDup (nodes (add_edge u v w G)).
Proof.
  intros H. unfold add_edge. cbv zeta.
  assert (NoDup (nodes (ensure_node v (ensure_node u G)))) as H'
    by auto using NoDup_nodes_ensure_node.
  by destruct (dget v (default [] (dget u (_adj (ensure_node v (ensure_node u G)))))).
Qed.

Lemma NoDup_nodes_add_node n a G : NoDup (nodes G) → NoDup (nodes (add_node n a G)).
Proof. unfold nodes. rewrite node_add_node. apply NoDup_dkeys_dset. Qed.

Lemma elem_of_nodes_add_node n a G k :
  k ∈ nodes (add_node n a G) ↔ k = n ∨ k ∈ nodes G.
Proof. unfold nodes. rewrite node_add_node. apply elem_of_dkeys_dset. Qed.

Lemma elem_of_nodes_add_edge u v w G k :
  k ∈ nodes (add_edge u v w G) ↔ k = u ∨ k = v ∨ k ∈ nodes G.
Proof. rewrite !elem_of_nodes. apply node_add_edge. Qed.

Lemma node_step_add_node df c_nome c_partido c_uf G p :
  p ∈ dep_pairs df c_nome →
  ∃ r, first_row df p.1 = Some r
       ∧ node_step df c_partido c_uf G p
         = add_node p.1 {| nome := p.2; partido := r c_partido; uf := r c_uf |} G.
Proof.
  destruct p as [i n]. intros Hp. destruct (first_row_is_Some df i) as [r Hr].
  { apply elem_of_dep_pairs in Hp. naive_solver. }
  exists r. split; [done|]. unfold node_step. simpl. by rewrite Hr.
Qed.

Lemma nodes_fold df c_nome c_partido c_uf ps G :
  (∀ p, p ∈ ps → p ∈ dep_pairs df c_nome) → wf G →
  let G' := foldl (node_step df c_partido c_uf) G ps in
  wf G'
  ∧ (NoDup (nodes G) → NoDup (nodes G'))
  ∧ (∀ k, k ∈ nodes G' ↔ k ∈ nodes G ∨ k ∈ ps.*1)
  ∧ (∀ a b, edge_ref G' a b = edge_ref G a b)
  ∧ edge_data G' = edge_data G.
Proof.
  revert G. induction ps as [|p ps IH]; intros G Hsub Hwf; simpl.
  - split_and!; try done. intros k. rewrite elem_of_nil. naive_solver.
  - destruct (node_step_add_node df c_nome c_partido c_uf G p) as (r & _ & ->).
    { apply Hsub. left. }
    destruct (IH (add_node p.1 {| nome := p.2; partido := r c_partido;
                                   uf := r c_uf |} G))
      as (Hwf' & Hnd & Hk & Href & Hdata).
    { intros q Hq. apply Hsub. by right. }
    { by apply wf_add_node. }
    split_and!.
    + done.
    + intros H. by apply Hnd, NoDup_nodes_add_node.
    + intros k. rewrite Hk, elem_of_nodes_add_node, elem_of_cons. naive_solver.
    + intros a b. by rewrite Href, edge_ref_add_node.
    + by rewrite Hdata, edge_data_add_node.
Qed.

(** The node loop adds exactly the ids of the table and touches no edge. *)
Lemma nodes_of_spec df c_nome c_partido c_uf G :
  wf G →
  let G' := nodes_of df c_nome c_partido c_uf G in
  wf G'
  ∧ (NoDup (nodes G) → NoDup (nodes G'))
  ∧ (∀ k, k ∈ nodes G' ↔ k ∈ nodes G ∨ k ∈ ids df)
  ∧ (∀ a b, edge_ref G' a b = edge_ref G a b)
  ∧ edge_data G' = edge_data G.
Proof.
  intros Hwf.
  destruct (nodes_fold df c_nome c_partido c_uf (dep_pairs df c_nome) G)
    as (Hwf' & Hnd & Hk & Href & Hdata); [done..|].
  split_and!; try done. intros k. rewrite Hk, elem_of_dep_ids. unfold ids.
  rewrite list_elem_of_fmap. naive_solver.
Qed.

Lemma nodes_of_empty df c_nome c_partido c_uf :
  let G := nodes_of df c_nome c_partido c_uf nx_Graph in
  wf G ∧ NoDup (nodes G) ∧ (∀ k, k ∈ nodes G ↔ k ∈ ids df) ∧ edgeless G.
Proof.
  destruct (nodes_of_spec df c_nome c_partido c_uf nx_Graph wf_nx_Graph)
    as (Hwf & Hnd & Hk & Href & _).
  split_and!; [done| |intros k; rewrite Hk|intros a b; by rewrite Href].
  - apply Hnd. constructor.
  - unfold nodes at 1. simpl. rewrite elem_of_nil. naive_solver.
Qed.

(** ** The membership policy *)

Lemma shared_comm df a b : shared df a b = shared df b a.
Proof. unfold shared. f_equal. set_solver. Qed.

Lemma shared_same_pair df u v a b :
  same_pair u v a b → shared df a b = shared df u v.
Proof. intros [[-> ->]|[-> ->]]; [done|apply shared_comm]. Qed.

Lemma shared_pos df a b : 0 < shared df a b ↔ frentes df a ∩ frentes df b ≠ ∅.
Proof.
  unfold shared. rewrite <- (leibniz_equiv_iff _ ∅), <- size_non_empty_iff. lia.
Qed.

Lemma edge_weight_frente_step df G p a b :
  wf G →
  edge_weight (frente_step df G p) a b
  = if decide (0 < shared df a b ∧ same_pair p.1 p.2 a b)
    then Some (Z.of_nat (shared df a b))
    else edge_weight G a b.
Proof.
  intros Hwf. unfold frente_step. case_bool_decide as Hpos.
  - rewrite edge_weight_add_edge by done.
    destruct (decide (same_pair p.1 p.2 a b)) as [Hp|Hp].
    + rewrite (shared_same_pair df p.1 p.2 a b), decide_True by done. done.
    + by rewrite decide_False by naive_solver.
  - rewrite decide_False; [done|]. intros [H1 H2].
    by rewrite (shared_same_pair df p.1 p.2 a b) in H1.
Qed.

Lemma wf_frente_step df G p : wf G → wf (frente_step df G p).
Proof. intros. unfold frente_step. case_bool_decide; auto using wf_add_edge. Qed.

Lemma node_frente_step df G p :
  p.1 ∈ nodes G → p.2 ∈ nodes G → _node (frente_step df G p) = _node G.
Proof.
  rewrite !elem_of_nodes. intros. unfold frente_step.
  case_bool_decide; [by apply node_add_edge_old|done].
Qed.

(** After the pair loop, an edge has the number of shared titles as its
    weight if that number is positive and the pair was visited, and is as
    before otherwise. *)
Lemma frente_fold df ps G :
  wf G → (∀ p, p ∈ ps → p.1 ∈ nodes G ∧ p.2 ∈ nodes G) →
  let G' := foldl (frente_step df) G ps in
  wf G' ∧ _node G' = _node G
  ∧ ∀ a b, edge_weight G' a b
           = if decide (0 < shared df a b ∧ Exists (λ p, same_pair p.1 p.2 a b) ps)
             then Some (Z.of_nat (shared df a b))
             else edge_weight G a b.
Proof.
  revert G. induction ps as [|p ps IH]; intros G Hwf Hps; simpl.
  - split_and!; try done. intros a b. rewrite decide_False; [done|].
    intros [_ H]. by apply Exists_nil in H.
  - destruct (Hps p) as [Hp1 Hp2]; [left|].
    pose proof (node_frente_step df G p Hp1 Hp2) as Hnode.
    destruct (IH (frente_step df G p)) as (Hwf' & Hnode' & Hw).
    { by apply wf_frente_step. }
    { intros q Hq. unfold nodes. rewrite Hnode. apply Hps. by right. }
    split_and!; [done|congruence|].
    intros a b. rewrite Hw, edge_weight_frente_step by done.
    destruct (decide (0 < shared df a b ∧ Exists (λ p, same_pair p.1 p.2 a b) ps))
      as [H1|H1].
    + rewrite decide_True; [done|]. split; [apply H1|].
      apply Exists_cons. right. apply H1.
    + destruct (decide (0 < shared df a b ∧ same_pair p.1 p.2 a b)) as [H2|H2].
      * rewrite decide_True; [done|]. split; [apply H2|].
        apply Exists_cons. left. apply H2.
      * rewrite decide_False; [done|].
        intros [H3 [H4|H4]%Exists_cons]; naive_solver.
Qed.

Lemma Exists_same_pair_combinations (l : list value) a b :
  a ≠ b → a ∈ l → b ∈ l →
  Exists (λ p, same_pair p.1 p.2 a b) (combinations l).
Proof.
  intros Hne Ha Hb. apply Exists_exists.
  destruct (combinations_covers a b l Hne Ha Hb) as [H|H].
  - exists (a, b). split; [done|]. by left.
  - exists (b, a). split; [done|]. by right.
Qed.

Lemma edgeless_weight G a b : edgeless G → edge_weight G a b = None.
Proof. intros H. unfold edge_weight. by rewrite H. Qed.

(** The graph [FrenteNetwork.build_network] builds from the empty graph. *)
Lemma frente_graph_spec df :
  let G := frente_graph df nx_Graph in
  wf G ∧ NoDup (nodes G) ∧ (∀ k, k ∈ nodes G ↔ k ∈ ids df)
  ∧ ∀ a b, edge_weight G a b
           = if decide (0 < shared df a b
                        ∧ Exists (λ p, same_pair p.1 p.2 a b)
                            (combinations ((dep_pairs df "nome_deputado").*1)))
             then Some (Z.of_nat (shared df a b))
             else None.
Proof.
  destruct (nodes_of_empty df "nome_deputado" "siglaPartido_deputado"
              "siglaUf_deputado") as (Hwf & Hnd & Hk & Hno).
  destruct (frente_fold df (combinations ((dep_pairs df "nome_deputado").*1))
              (nodes_of df "nome_deputado" "siglaPartido_deputado"
                 "siglaUf_deputado" nx_Graph)) as (Hwf' & Hnode & Hw).
  { done. }
  { intros [a b] [Ha Hb]%elem_of_combinations. simpl.
    rewrite !Hk. unfold ids. rewrite !list_elem_of_fmap.
    apply elem_of_dep_ids in Ha, Hb. naive_solver. }
  unfold frente_graph. split_and!.
  - done.
  - unfold nodes. by rewrite Hnode.
  - intros k. unfold nodes. rewrite Hnode. apply Hk.
  - intros a b. rewrite Hw. by rewrite (edgeless_weight _ a b Hno).
Qed.

(** ** The agreement policy *)

Lemma wf_vote_step votos G p : wf G → wf (vote_step votos G p).
Proof.
  intros. unfold vote_step. apply wf_bump.
  destruct (has_edge p.1 p.2 G); auto using wf_add_edge.
Qed.

Lemma node_vote_step votos G p :
  p.1 ∈ nodes G → p.2 ∈ nodes G → _node (vote_step votos G p) = _node G.
Proof.
  rewrite !elem_of_nodes. intros. unfold vote_step. rewrite node_bump.
  destruct (has_edge p.1 p.2 G); [done|by apply node_add_edge_old].
Qed.

(** One comparison: the edge of the pair is created at 0 if absent and then
    moved by the vote's delta; no other edge changes. *)
Lemma edge_weight_vote_step votos G p a b :
  wf G →
  edge_weight (vote_step votos G p) a b
  = if decide (same_pair p.1 p.2 a b)
    then Some (default 0 (edge_weight G a b) + vote_delta votos p.1 p.2)%Z
    else edge_weight G a b.
Proof.
  intros Hwf. unfold vote_step.
  destruct (has_edge p.1 p.2 G) eqn:E.
  - rewrite edge_weight_bump by done.
    destruct (decide (same_pair p.1 p.2 a b)) as [Hp|Hp]; [|done].
    apply has_edge_weight in E as [w Hw]; [|done].
    rewrite (edge_weight_same_pair G p.1 p.2 a b), Hw by done. done.
  - rewrite edge_weight_bump by by apply wf_add_edge.
    rewrite edge_weight_add_edge by done.
    destruct (decide (same_pair p.1 p.2 a b)) as [Hp|Hp]; [|done].
    assert (edge_weight G a b = None) as ->; [|done].
    rewrite (edge_weight_same_pair G p.1 p.2 a b) by done.
    apply eq_None_not_Some. rewrite <- has_edge_weight by done. by rewrite E.
Qed.

Lemma vote_fold votos ps G :
  wf G → (∀ p, p ∈ ps → p.1 ∈ nodes G ∧ p.2 ∈ nodes G) →
  let G' := foldl (vote_step votos) G ps in
  wf G' ∧ _node G' = _node G
  ∧ ∀ a b, edge_weight G' a b
           = foldl (accumulate votos) (edge_weight G a b)
               (filter (λ p, same_pair p.1 p.2 a b) ps).
Proof.
  revert G. induction ps as [|p ps IH]; intros G Hwf Hps; simpl; [done|].
  destruct (Hps p) as [Hp1 Hp2]; [left|].
  pose proof (node_vote_step votos G p Hp1 Hp2) as Hnode.
  destruct (IH (vote_step votos G p)) as (Hwf' & Hnode' & Hw).
  { by apply wf_vote_step. }
  { intros q Hq. unfold nodes. rewrite Hnode. apply Hps. by right. }
  split_and!; [done|congruence|].
  intros a b. rewrite Hw, edge_weight_vote_step, filter_cons by done.
  by destruct (decide (same_pair p.1 p.2 a b)).
Qed.

Lemma filter_pair_left (x b : value) (l : list value) :
  x ≠ b →
  filter (λ p, same_pair p.1 p.2 x b) (pair x <$> l)
  = pair x <$> filter (λ y, y = b) l.
Proof.
  intros Hne. induction l as [|y l IHl]; [done|].
  rewrite fmap_cons, !filter_cons, IHl. unfold same_pair. simpl.
  destruct (decide (y = b)) as [->|?].
  - by rewrite decide_True by auto.
  - by rewrite decide_False by naive_solver.
Qed.

Lemma filter_pair_right (x a : value) (l : list value) :
  a ≠ x →
  filter (λ p, same_pair p.1 p.2 a x) (pair x <$> l)
  = pair x <$> filter (λ y, y = a) l.
Proof.
  intros Hne. induction l as [|y l IHl]; [done|].
  rewrite fmap_cons, !filter_cons, IHl. unfold same_pair. simpl.
  destruct (decide (y = a)) as [->|?].
  - by rewrite decide_True by auto.
  - by rewrite decide_False by naive_solver.
Qed.

(** In the pairs of a duplicate-free list, two different members meet
    exactly once, and nothing else matches them. *)
Lemma filter_same_pair_combinations (l : list value) a b :
  NoDup l →
  if decide (a ≠ b ∧ a ∈ l ∧ b ∈ l)
  then ∃ p, filter (λ p, same_pair p.1 p.2 a b) (combinations l) = [p]
            ∧ same_pair p.1 p.2 a b
  else filter (λ p, same_pair p.1 p.2 a b) (combinations l) = [].
Proof.
  intros Hnd. case_decide as Hc.
  - destruct Hc as (Hne & Ha & Hb).
    induction Hnd as [|x l Hx Hnd IH]; [by apply elem_of_nil in Ha|].
    simpl. rewrite filter_app.
    assert (∀ c, c ∉ l →
      filter (λ p, same_pair p.1 p.2 a b) (combinations l) = [] ∨ (c ≠ a ∧ c ≠ b))
      as Hrest.
    { intros c Hcl. destruct (decide (c = a)) as [->|?];
        [|destruct (decide (c = b)) as [->|?]; [|by right]];
        left; apply filter_none; intros [y z] [Hy Hz]%elem_of_combinations;
        unfold same_pair; simpl; naive_solver. }
    apply elem_of_cons in Ha as [->|Ha], Hb as [->|Hb]; [done| | |].
    + destruct (Hrest x Hx) as [->|[? _]]; [|done]. rewrite app_nil_r.
      exists (x, b). split; [|by left].
      by rewrite filter_pair_left, filter_eq_NoDup.
    + destruct (Hrest x Hx) as [->|[_ ?]]; [|done]. rewrite app_nil_r.
      exists (x, a). split; [|by right].
      by rewrite filter_pair_right, filter_eq_NoDup.
    + rewrite (filter_none _ (pair x <$> l)).
      * by apply IH.
      * intros [y z] (w & [= -> ->] & Hw)%list_elem_of_fmap.
        unfold same_pair. simpl. intros [[-> ->]|[-> ->]]; done.
  - apply filter_none. intros [y z] Hyz [[Hy Hz]|[Hy Hz]]; simpl in *; subst;
      apply Hc; pose proof (combinations_NoDup_ne _ _ _ Hnd Hyz);
      apply elem_of_combinations in Hyz; naive_solver.
Qed.

Lemma filter_fmap {A B} (f : A → B) (P : B → Prop) `{∀ x, Decision (P x)}
    (l : list A) :
  filter P (f <$> l) = f <$> filter (λ x, P (f x)) l.
Proof.
  induction l as [|x l IH]; [done|].
  rewrite fmap_cons, !filter_cons, IH. by destruct (decide (P (f x))).
Qed.

(** [dict(items)[u]] is the value of the last item with key [u]. *)
Lemma dget_foldl_dset {K V} `{EqDecision K} (items d : list (K * V)) (u : K) :
  dget u (foldl (λ d kv, dset kv.1 kv.2 d) d items)
  = match last (filter (λ kv, kv.1 = u) items) with
    | Some kv => Some kv.2
    | None => dget u d
    end.
Proof.
  revert d. induction items as [|[k v] items IH]; intros d; simpl; [done|].
  rewrite IH, filter_cons. simpl. destruct (decide (k = u)) as [->|Hne].
  - rewrite last_cons.
    destruct (last (filter (λ kv, kv.1 = u) items)); [done|].
    simpl. apply dget_dset_eq.
  - destruct (last (filter (λ kv, kv.1 = u) items)); [done|].
    by apply dget_dset_ne.
Qed.

Lemma dget_dict_of {K V} `{EqDecision K} (items : list (K * V)) (u : K) :
  dget u (dict_of items) = snd <$> last (filter (λ kv, kv.1 = u) items).
Proof.
  unfold dict_of. rewrite dget_foldl_dset.
  by destruct (last (filter (λ kv, kv.1 = u) items)).
Qed.

Lemma dget_votos_of df k u : dget u (votos_of df k) = last_vote df k u.
Proof.
  unfold votos_of, last_vote, votes_in.
  rewrite dget_dict_of, filter_fmap, fmap_last, list_filter_filter, fmap_last.
  simpl. rewrite <- option_fmap_compose. f_equal. f_equal.
  apply list_filter_iff. naive_solver.
Qed.

Lemma elem_of_dkeys_votos_of df k u :
  u ∈ dkeys (votos_of df k) ↔ votes_in df k u ≠ [].
Proof.
  rewrite <- dget_is_Some, dget_votos_of. unfold last_vote. apply last_is_Some.
Qed.

Lemma vote_delta_votos_of df k a b :
  vote_delta (votos_of df k) a b = agreement df a b k.
Proof. unfold vote_delta, agreement. by rewrite !dget_votos_of. Qed.

Lemma vote_delta_same_pair votos u v a b :
  same_pair u v a b → vote_delta votos u v = vote_delta votos a b.
Proof.
  intros [[-> ->]|[-> ->]]; [done|]. unfold vote_delta.
  destruct (decide (dget u votos = dget v votos)) as [E|E].
  - by rewrite decide_True.
  - by rewrite decide_False.
Qed.

Lemma votes_in_ids df k u : votes_in df k u ≠ [] → u ∈ ids df.
Proof.
  unfold votes_in, ids. intros H.
  destruct (filter (λ r, r "id" = k ∧ r "id_deputado" = u) (rows df))
    as [|r l] eqn:E; [done|].
  assert (r ∈ filter (λ r, r "id" = k ∧ r "id_deputado" = u) (rows df)) as Hr
    by (rewrite E; left).
  apply list_elem_of_filter in Hr as [[_ <-] Hr].
  apply list_elem_of_fmap. eauto.
Qed.

(** One ballot: every pair of different legislators who both voted in it is
    compared exactly once. *)
Lemma ballot_step_spec df k G :
  wf G → (∀ u, u ∈ ids df → u ∈ nodes G) →
  let G' := ballot_step df G k in
  wf G' ∧ _node G' = _node G
  ∧ ∀ a b, edge_weight G' a b
           = if decide (a ≠ b ∧ covoted df a b k)
             then Some (default 0 (edge_weight G a b) + agreement df a b k)%Z
             else edge_weight G a b.
Proof.
  intros Hwf Hids. unfold ballot_step.
  destruct (vote_fold (votos_of df k) (combinations (dkeys (votos_of df k))) G)
    as (Hwf' & Hnode & Hw).
  { done. }
  { intros [a b] [Ha Hb]%elem_of_combinations. simpl.
    split; apply Hids; eapply votes_in_ids; by apply elem_of_dkeys_votos_of. }
  split_and!; [done..|]. intros a b. rewrite Hw.
  pose proof (filter_same_pair_combinations (dkeys (votos_of df k)) a b
                (NoDup_dkeys_dict_of _)) as Hf.
  destruct (decide (a ≠ b ∧ covoted df a b k)) as [Hc|Hc].
  - rewrite decide_True in Hf.
    2:{ unfold covoted in Hc. rewrite !elem_of_dkeys_votos_of. naive_solver. }
    destruct Hf as (p & -> & Hp). simpl. unfold accumulate.
    by rewrite (vote_delta_same_pair _ p.1 p.2 a b), vote_delta_votos_of.
  - rewrite decide_False in Hf.
    2:{ unfold covoted in Hc. rewrite !elem_of_dkeys_votos_of. naive_solver. }
    by rewrite Hf.
Qed.

(** All ballots, in any order. *)
Lemma ballots_fold df ks G :
  wf G → (∀ u, u ∈ ids df → u ∈ nodes G) →
  let G' := foldl (ballot_step df) G ks in
  wf G' ∧ _node G' = _node G
  ∧ ∀ a b, a ≠ b →
      edge_weight G' a b
      = foldl (λ o k, Some (default 0 o + agreement df a b k)%Z)
          (edge_weight G a b) (filter (covoted df a b) ks).
Proof.
  revert G. induction ks as [|k ks IH]; intros G Hwf Hids; simpl; [done|].
  destruct (ballot_step_spec df k G Hwf Hids) as (Hwf1 & Hnode1 & Hw1).
  destruct (IH (ballot_step df G k)) as (Hwf' & Hnode' & Hw).
  { done. }
  { intros u Hu. unfold nodes. rewrite Hnode1. by apply Hids. }
  split_and!; [done|congruence|].
  intros a b Hne. rewrite Hw, Hw1, filter_cons by done.
  destruct (decide (covoted df a b k)).
  - by rewrite decide_True.
  - by rewrite decide_False by naive_solver.
Qed.

Lemma ballots_fold_self df ks G a :
  wf G → (∀ u, u ∈ ids df → u ∈ nodes G) →
  edge_weight (foldl (ballot_step df) G ks) a a = edge_weight G a a.
Proof.
  revert G. induction ks as [|k ks IH]; intros G Hwf Hids; simpl; [done|].
  destruct (ballot_step_spec df k G Hwf Hids) as (Hwf1 & Hnode1 & Hw1).
  rewrite IH, Hw1; [|done|].
  - by rewrite decide_False by naive_solver.
  - intros u Hu. unfold nodes. rewrite Hnode1. by apply Hids.
Qed.

Lemma tally_foldl (f : value → Z) (ks : list value) (o : option Z) :
  foldl (λ o k, Some (default 0 o + f k)%Z) o ks
  = match ks with
    | [] => o
    | _ => Some (default 0 o + foldr (λ k s, (f k + s)%Z) 0 ks)%Z
    end.
Proof.
  revert o. induction ks as [|k ks IH]; intros o; [done|].
  cbn [foldl foldr]. rewrite IH. destruct ks as [|k' ks]; simpl.
  - f_equal. lia.
  - f_equal. lia.
Qed.

(** The graph [VotingNetwork.build_network] builds from the empty graph. *)
Lemma voting_graph_spec df :
  let G := voting_graph df nx_Graph in
  wf G ∧ NoDup (nodes G) ∧ (∀ k, k ∈ nodes G ↔ k ∈ ids df)
  ∧ (∀ a, edge_weight G a a = None)
  ∧ ∀ a b, a ≠ b →
      edge_weight G a b
      = if decide (filter (covoted df a b) (ballots df) = [])
        then None else Some (tally df a b).
Proof.
  destruct (nodes_of_empty df "nome" "siglaPartido" "siglaUf")
    as (Hwf & Hnd & Hk & Hno).
  destruct (ballots_fold df (ballots df)
              (nodes_of df "nome" "siglaPartido" "siglaUf" nx_Graph))
    as (Hwf' & Hnode & Hw); [done|by intros u ?%Hk|].
  unfold voting_graph. split_and!.
  - done.
  - unfold nodes. by rewrite Hnode.
  - intros k. unfold nodes. rewrite Hnode. apply Hk.
  - intros a. rewrite ballots_fold_self; [|done|by intros u ?%Hk].
    by apply edgeless_weight.
  - intros a b Hne. rewrite Hw, tally_foldl, (edgeless_weight _ a b Hno) by done.
    unfold tally. destruct (filter (covoted df a b) (ballots df)); [done|].
    rewrite decide_False by done. simpl. done.
Qed.

(** *** The tally as a difference of two counts *)

Lemma votes_in_ballot df k u : votes_in df k u ≠ [] → k ∈ ballot_ids df.
Proof.
  unfold votes_in, ballot_ids. intros H.
  destruct (filter (λ r, r "id" = k ∧ r "id_deputado" = u) (rows df))
    as [|r l] eqn:E; [done|].
  assert (r ∈ filter (λ r, r "id" = k ∧ r "id_deputado" = u) (rows df)) as Hr
    by (rewrite E; left).
  apply list_elem_of_filter in Hr as [[<- _] Hr].
  apply elem_of_drop_duplicates, list_elem_of_fmap. eauto.
Qed.

Lemma ballots_perm df : ballots df ≡ₚ ballot_ids df.
Proof. apply stable_sort_perm. Qed.

Lemma filter_covoted_nil df a b :
  filter (covoted df a b) (ballots df) = [] ↔ ¬ ∃ k, covoted df a b k.
Proof.
  split.
  - intros H [k Hk]. eapply filter_nil_not_elem_of; [exact H|exact Hk|].
    rewrite ballots_perm. destruct Hk as [Hk _]. by eapply votes_in_ballot.
  - intros H. apply filter_none. intros k _ Hk. apply H. eauto.
Qed.

Lemma filter_covoted_cons df a b :
  filter (covoted df a b) (ballots df) ≠ [] → ∃ k, covoted df a b k.
Proof.
  destruct (filter (covoted df a b) (ballots df)) as [|k l] eqn:E; [done|].
  intros _. exists k.
  assert (k ∈ filter (covoted df a b) (ballots df)) as Hk by (rewrite E; left).
  by apply list_elem_of_filter in Hk as [Hk _].
Qed.

Lemma tally_split (f : value → Z) (P : value → Prop) `{∀ k, Decision (P k)}
    (Q : value → Prop) `{∀ k, Decision (Q k)} (ks : list value) :
  (∀ k, f k = if decide (Q k) then 1%Z else (-1)%Z) →
  foldr (λ k s, (f k + s)%Z) 0%Z (filter P ks)
  = (Z.of_nat (length (filter (λ k, P k ∧ Q k) ks))
     - Z.of_nat (length (filter (λ k, P k ∧ ¬ Q k) ks)))%Z.
Proof.
  intros Hf. induction ks as [|k ks IH]; [done|].
  rewrite !filter_cons. destruct (decide (P k)) as [HP|HP].
  - cbn [foldr]. rewrite IH, Hf. destruct (decide (Q k)) as [HQ|HQ].
    + rewrite decide_True, decide_False by naive_solver. simpl length. lia.
    + rewrite decide_False, decide_True by naive_solver. simpl length. lia.
  - rewrite !decide_False by naive_solver. done.
Qed.

Lemma unique_votes_last df k a b :
  unique_votes df → covoted df a b k →
  last_vote df k a = last_vote df k b ↔ votes_in df k a = votes_in df k b.
Proof.
  intros Hu [Ha Hb]. unfold last_vote.
  pose proof (Hu k a) as La. pose proof (Hu k b) as Lb.
  destruct (votes_in df k a) as [|x [|??]], (votes_in df k b) as [|y [|??]];
    simpl in *; try done; try lia.
  split; congruence.
Qed.

(** With at most one row per (legislator, ballot) the tally is the number of
    common ballots with equal votes minus the number with different votes. *)
Lemma tally_counts df a b :
  unique_votes df →
  tally df a b
  = (Z.of_nat (agreements df a b) - Z.of_nat (disagreements df a b))%Z.
Proof.
  intros Hu. unfold tally, agreements, disagreements.
  rewrite (tally_split _ _ (λ k, last_vote df k a = last_vote df k b)) by done.
  rewrite <- ballots_perm.
  f_equal; f_equal; f_equal; apply list_filter_iff; intros k; split;
    intros [Hc H]; (split; [done|]);
    pose proof (unique_votes_last df k a b Hu Hc); naive_solver.
Qed.

(** *** The tally depends on the last votes only *)

Lemma foldr_sum_perm (f : value → Z) (l l' : list value) :
  l ≡ₚ l' →
  foldr (λ k s, (f k + s)%Z) 0%Z l = foldr (λ k s, (f k + s)%Z) 0%Z l'.
Proof. induction 1; simpl; lia. Qed.

Lemma covoted_last_vote df a b k :
  covoted df a b k ↔ is_Some (last_vote df k a) ∧ is_Some (last_vote df k b).
Proof. unfold covoted, last_vote. by rewrite !last_is_Some. Qed.

Lemma elem_of_filter_covoted df a b k :
  k ∈ filter (covoted df a b) (ballots df) ↔ covoted df a b k.
Proof.
  rewrite list_elem_of_filter. split; [naive_solver|]. intros H. split; [done|].
  rewrite ballots_perm. destruct H as [H _]. by eapply votes_in_ballot.
Qed.

Lemma NoDup_ballots df : NoDup (ballots df).
Proof. apply NoDup_stable_sort, NoDup_drop_duplicates. Qed.

Lemma tally_last_vote df df' a b :
  (∀ k u, last_vote df k u = last_vote df' k u) →
  tally df a b = tally df' a b
  ∧ (filter (covoted df a b) (ballots df) = []
     ↔ filter (covoted df' a b) (ballots df') = []).
Proof.
  intros Hl.
  assert (∀ k, covoted df a b k ↔ covoted df' a b k) as Hc.
  { intros k. by rewrite !covoted_last_vote, !Hl. }
  assert (filter (covoted df a b) (ballots df)
          ≡ₚ filter (covoted df' a b) (ballots df')) as Hp.
  { apply NoDup_Permutation; [by apply NoDup_filter, NoDup_ballots..|].
    intros k. by rewrite !elem_of_filter_covoted. }
  split.
  - unfold tally. rewrite (foldr_sum_perm _ _ _ Hp).
    apply foldr_ext; [|done..]. intros k s. unfold agreement. by rewrite !Hl.
  - split; intros E; apply Permutation_nil_r.
    + by rewrite <- Hp, E.
    + by rewrite Hp, E.
Qed.

(** An earlier row of a (ballot, legislator) pair that has a later row does
    not change any last vote. *)
Lemma last_vote_drop_earlier c c' (r r' : string → value) rs k u :
  r' ∈ rs → r' "id" = r "id" → r' "id_deputado" = r "id_deputado" →
  last_vote {| columns := c; rows := r :: rs |} k u
  = last_vote {| columns := c'; rows := rs |} k u.
Proof.
  intros Hin Hid Hdep. unfold last_vote, votes_in. cbn [rows].
  rewrite filter_cons. case_decide as HP; [|done].
  rewrite fmap_cons, last_cons.
  destruct (last ((λ r, r "tipoVoto")
                  <$> filter (λ r, r "id" = k ∧ r "id_deputado" = u) rs))
    eqn:E; [done|].
  exfalso. apply last_None, fmap_nil_inv in E.
  eapply filter_nil_not_elem_of; [exact E| |exact Hin]. simpl.
  rewrite Hid, Hdep. done.
Qed.

(** ** Self-loops *)

(** The agreement policy compares the keys of a dictionary, which are
    pairwise different: it never joins a legislator to itself. *)
Lemma voting_no_self_loop df G a :
  VotingNetwork.build_network df nx_Graph = (Ok tt, G) → has_edge a a G = false.
Proof.
  intros ->%voting_build_inv.
  destruct (voting_graph_spec df) as (Hwf & _ & _ & Hself & _).
  apply not_true_is_false. rewrite has_edge_weight, Hself by done. by intros [? ?].
Qed.

(** ** Missing columns *)

Lemma add_nodes_raise_names df c_nome c_partido c_uf G e :
  getitem2 df "id_deputado" c_nome = Raise e →
  add_nodes df c_nome c_partido c_uf G = (Raise e, G).
Proof. intros E. unfold add_nodes. rewrite E. by apply bind_Raise. Qed.

Lemma add_nodes_empty df c_nome c_partido c_uf G :
  "id_deputado" ∈ columns df → c_nome ∈ columns df → rows df = [] →
  add_nodes df c_nome c_partido c_uf G = (Ok tt, G).
Proof.
  intros Hid Hn Hrows. unfold add_nodes. rewrite getitem2_run by done.
  rewrite Hrows. by erewrite bind_Ok by done.
Qed.

(** With at least one row, the first iteration of the node loop reads the
    party and state columns and raises when one of them is absent. *)
Lemma add_nodes_raise_attr df c_nome c_partido c_uf G :
  "id_deputado" ∈ columns df → c_nome ∈ columns df → rows df ≠ [] →
  ¬ (c_partido ∈ columns df ∧ c_uf ∈ columns df) →
  ∃ m, add_nodes df c_nome c_partido c_uf G = (Raise (KeyError [VStr m]), G)
       ∧ (m = c_partido ∨ m = c_uf) ∧ m ∉ columns df.
Proof.
  intros Hid Hn Hrows Hattr. unfold add_nodes. rewrite getitem2_run by done.
  erewrite bind_Ok by done.
  destruct (rows df) as [|r rs] eqn:E; [done|]. cbn [fmap list_fmap drop_duplicates].
  destruct (decide (c_partido ∈ columns df)) as [Hp|Hp].
  - assert (c_uf ∉ columns df) as Hu by naive_solver.
    exists c_uf. split; [|by auto]. apply for_each_first_raise.
    assert (head (filter (λ r', r' "id_deputado" = r "id_deputado") (rows df))
            = Some r) as Hhead.
    { rewrite E, filter_cons. by rewrite decide_True. }
    rewrite (loc_iloc0_run df _ _ _ r Hid Hp Hhead).
    by rewrite (loc_iloc0_raise df _ (r "id_deputado") _ Hid Hu).
  - exists c_partido. split; [|by auto]. apply for_each_first_raise.
    by rewrite (loc_iloc0_raise df _ (r "id_deputado") _ Hid Hp).
Qed.

Lemma set_index_to_dict_raise g i c :
  i ∈ columns g → c ∉ columns g →
  set_index_to_dict g i c = Raise (KeyError [VStr c]).
Proof.
  intros Hi Hc. unfold set_index_to_dict. rewrite decide_True by done.
  rewrite decide_False; [done|]. by intros [? _].
Qed.

Lemma ballots_nonempty df : rows df ≠ [] → ballots df ≠ [].
Proof.
  intros Hrows E. apply stable_sort_nil_inv, drop_duplicates_nil_inv in E.
  by apply fmap_nil_inv in E.
Qed.

Lemma frente_missing_column df G c :
  c ∈ frente_columns → c ∉ columns df →
  rows df ≠ [] ∨ c ∈ ["id_deputado"; "nome_deputado"; "titulo"] →
  ∃ msg m G',
    FrenteNetwork.build_network df G = (Raise (KeyError [VStr msg]), G')
    ∧ m ∈ frente_columns ∧ (m ∉ columns df) ∧ mentions msg m.
Proof.
  intros Hc Hmiss Hcond. unfold FrenteNetwork.build_network.
  destruct (getitem2_cases df "id_deputado" "nome_deputado")
    as [(Hid & Hnome & E)|(msg & m & E & Hm & Hmc & Hmsg)].
  2:{ exists msg, m, G. split_and!; [|
        destruct Hm as [-> | ->]; unfold frente_columns; set_solver|done..].
      apply bind_Raise. by apply add_nodes_raise_names. }
  destruct (decide (rows df ≠ []
                    ∧ ¬ ("siglaPartido_deputado" ∈ columns df
                         ∧ "siglaUf_deputado" ∈ columns df))) as [[Hr Ha]|Hok].
  { destruct (add_nodes_raise_attr df "nome_deputado" "siglaPartido_deputado"
                "siglaUf_deputado" G Hid Hnome Hr Ha) as (m & Em & Hm & Hmc).
    exists m, m, G. split_and!; [by apply bind_Raise| |done|apply mentions_refl].
    destruct Hm as [-> | ->]; unfold frente_columns; set_solver. }
  assert (∃ G1, add_nodes df "nome_deputado" "siglaPartido_deputado"
                  "siglaUf_deputado" G = (Ok tt, G1)) as [G1 E1].
  { destruct (decide (rows df = [])) as [Hr|Hr].
    - eexists. by apply add_nodes_empty.
    - eexists. apply add_nodes_run; try done;
        destruct (decide ("siglaPartido_deputado" ∈ columns df));
        destruct (decide ("siglaUf_deputado" ∈ columns df)); naive_solver. }
  erewrite bind_Ok by exact E1. rewrite E. erewrite bind_Ok by done.
  assert ("titulo" ∉ columns df) as Ht.
  { intros Ht. apply Hok.
    assert (c = "siglaPartido_deputado" ∨ c = "siglaUf_deputado") as Hcc.
    { unfold frente_columns in Hc. rewrite !elem_of_cons, elem_of_nil in Hc.
      naive_solver. }
    assert (¬ c ∈ ["id_deputado"; "nome_deputado"; "titulo"]) as Hnot.
    { rewrite !elem_of_cons, elem_of_nil. naive_solver. }
    split; [naive_solver|]. intros [? ?]. naive_solver. }
  exists ("Column not found: " +:+ "titulo"), "titulo", G1. split_and!.
  - apply bind_Raise. unfold lift, groupby_apply_set.
    rewrite groupby_run by done. simpl. by rewrite decide_False.
  - unfold frente_columns. set_solver.
  - done.
  - apply mentions_app_l, mentions_refl.
Qed.

Lemma voting_missing_column df G c :
  c ∈ voting_columns → c ∉ columns df →
  rows df ≠ [] ∨ c ∈ ["id_deputado"; "nome"; "id"] →
  ∃ msg m G',
    VotingNetwork.build_network df G = (Raise (KeyError [VStr msg]), G')
    ∧ m ∈ voting_columns ∧ (m ∉ columns df) ∧ mentions msg m.
Proof.
  intros Hc Hmiss Hcond. unfold VotingNetwork.build_network.
  destruct (getitem2_cases df "id_deputado" "nome")
    as [(Hid & Hnome & E)|(msg & m & E & Hm & Hmc & Hmsg)].
  2:{ exists msg, m, G. split_and!; [|
        destruct Hm as [-> | ->]; unfold voting_columns; set_solver|done..].
      apply bind_Raise. by apply add_nodes_raise_names. }
  destruct (decide (rows df ≠ []
                    ∧ ¬ ("siglaPartido" ∈ columns df ∧ "siglaUf" ∈ columns df)))
    as [[Hr Ha]|Hok].
  { destruct (add_nodes_raise_attr df "nome" "siglaPartido" "siglaUf" G
                Hid Hnome Hr Ha) as (m & Em & Hm & Hmc).
    exists m, m, G. split_and!; [by apply bind_Raise| |done|apply mentions_refl].
    destruct Hm as [-> | ->]; unfold voting_columns; set_solver. }
  assert (∃ G1, add_nodes df "nome" "siglaPartido" "siglaUf" G = (Ok tt, G1))
    as [G1 E1].
  { destruct (decide (rows df = [])) as [Hr|Hr].
    - eexists. by apply add_nodes_empty.
    - eexists. apply add_nodes_run; try done;
        destruct (decide ("siglaPartido" ∈ columns df));
        destruct (decide ("siglaUf" ∈ columns df)); naive_solver. }
  erewrite bind_Ok by exact E1.
  destruct (groupby_cases df "id") as [[Hb Eg]|[Hb Eg]]; rewrite Eg.
  2:{ exists "id", "id", G1.
      split_and!; [by apply bind_Raise| |done|apply mentions_refl].
      unfold voting_columns. set_solver. }
  erewrite bind_Ok by done.
  assert (rows df ≠ [] ∧ "tipoVoto" ∉ columns df) as [Hr Ht].
  { assert (c = "siglaPartido" ∨ c = "siglaUf" ∨ c = "tipoVoto") as Hcc.
    { unfold voting_columns in Hc. rewrite !elem_of_cons, elem_of_nil in Hc.
      naive_solver. }
    assert (¬ c ∈ ["id_deputado"; "nome"; "id"]) as Hnot.
    { rewrite !elem_of_cons, elem_of_nil. naive_solver. }
    destruct Hcond as [Hr|?]; [|done]. split; [done|].
    destruct (decide ("siglaPartido" ∈ columns df));
      destruct (decide ("siglaUf" ∈ columns df)); naive_solver. }
  fold (ballots df). pose proof (ballots_nonempty df Hr) as Hbs.
  destruct (ballots df) as [|k ks]; [done|].
  exists "tipoVoto", "tipoVoto", G1. split_and!.
  - rewrite fmap_cons. apply for_each_first_raise. apply bind_Raise.
    unfold lift. by rewrite set_index_to_dict_raise.
  - unfold voting_columns. set_solver.
  - done.
  - apply mentions_refl.
Qed.

(** ** Building twice *)

Lemma Graph_eq (G G' : Graph) :
  _node G = _node G' → _adj G = _adj G' → edge_data G = edge_data G' → G = G'.
Proof. destruct G, G'. simpl. by intros -> -> ->. Qed.

Lemma node_step_attrs df c_nome c_partido c_uf G p :
  p ∈ dep_pairs df c_nome →
  node_step df c_partido c_uf G p
  = add_node p.1 (node_attrs df c_partido c_uf p) G.
Proof.
  intros Hp.
  destruct (node_step_add_node df c_nome c_partido c_uf G p Hp) as (r & Hr & ->).
  unfold node_attrs. by rewrite Hr.
Qed.

(** The attributes of a node after the node loop are those of the last pair
    with its id; a node no pair mentions keeps its attributes. *)
Lemma nodes_fold_get df c_nome c_partido c_uf ps G k :
  (∀ p, p ∈ ps → p ∈ dep_pairs df c_nome) →
  dget k (_node (foldl (node_step df c_partido c_uf) G ps))
  = match last (filter (λ p, p.1 = k) ps) with
    | Some p => Some (Some (node_attrs df c_partido c_uf p))
    | None => dget k (_node G)
    end.
Proof.
  revert G. induction ps as [|p ps IH]; intros G Hsub; simpl; [done|].
  rewrite IH by (intros q Hq; apply Hsub; by right).
  rewrite (node_step_attrs df c_nome) by (apply Hsub; left).
  rewrite filter_cons, node_add_node.
  destruct (decide (p.1 = k)) as [<-|Hne].
  - rewrite last_cons. destruct (last (filter (λ q, q.1 = p.1) ps)); [done|].
    apply dget_dset_eq.
  - destruct (last (filter (λ q, q.1 = k) ps)); [done|].
    by apply dget_dset_ne.
Qed.

(** On a graph that already has the nodes, the node loop only rewrites
    attributes. *)
Lemma nodes_fold_old df c_nome c_partido c_uf ps G :
  (∀ p, p ∈ ps → p ∈ dep_pairs df c_nome) →
  (∀ p, p ∈ ps → p.1 ∈ nodes G) →
  let G' := foldl (node_step df c_partido c_uf) G ps in
  nodes G' = nodes G ∧ _adj G' = _adj G ∧ edge_data G' = edge_data G.
Proof.
  revert G. induction ps as [|p ps IH]; intros G Hsub Hold; simpl; [done|].
  rewrite (node_step_attrs df c_nome) by (apply Hsub; left).
  assert (is_Some (dget p.1 (_node G))) as Hp.
  { apply elem_of_nodes, Hold. left. }
  assert (nodes (add_node p.1 (node_attrs df c_partido c_uf p) G) = nodes G)
    as Hn.
  { unfold nodes. rewrite node_add_node. by apply dkeys_dset_old. }
  destruct (IH (add_node p.1 (node_attrs df c_partido c_uf p) G))
    as (Hk & Ha & Hd).
  { intros q Hq. apply Hsub. by right. }
  { intros q Hq. rewrite Hn. apply Hold. by right. }
  rewrite Hk, Ha, Hd, Hn. by rewrite add_node_old.
Qed.

(** Running the node loop on a graph it has already populated, and whose
    nodes have not been touched since, changes nothing. *)
Lemma nodes_of_again df c_nome c_partido c_uf G :
  NoDup (nodes G) →
  _node G = _node (nodes_of df c_nome c_partido c_uf nx_Graph) →
  nodes_of df c_nome c_partido c_uf G = G.
Proof.
  intros Hnd Hnode. unfold nodes_of in *.
  assert (∀ p, p ∈ dep_pairs df c_nome → p.1 ∈ nodes G) as Hold.
  { intros p Hp. apply elem_of_nodes. rewrite Hnode.
    rewrite (nodes_fold_get df c_nome) by done.
    destruct (last (filter (λ q, q.1 = p.1) (dep_pairs df c_nome))) eqn:E;
      [by eauto|].
    apply last_None in E. exfalso.
    eapply filter_nil_not_elem_of; [exact E| |exact Hp]. done. }
  destruct (nodes_fold_old df c_nome c_partido c_uf (dep_pairs df c_nome) G)
    as (Hk & Ha & Hd); [done..|].
  apply Graph_eq; [|done..].
  symmetry. apply dict_ext; [done|by symmetry|].
  intros k. rewrite (nodes_fold_get df c_nome) by done.
  rewrite Hnode at 1. rewrite (nodes_fold_get df c_nome) by done.
  destruct (last (filter (λ q, q.1 = k) (dep_pairs df c_nome))) eqn:E; [done|].
  rewrite Hnode. rewrite (nodes_fold_get df c_nome) by done. by rewrite E.
Qed.

Lemma edge_weight_Some G a b w :
  edge_weight G a b = Some w →
  ∃ r, edge_ref G a b = Some r ∧ edge_data G !! r = Some w.
Proof.
  unfold edge_weight. destruct (edge_ref G a b) as [r|]; [|done]. eauto.
Qed.

(** Every step of the pair loop is absorbed by the graph the loop has
    built. *)
Lemma frente_step_again df p :
  p ∈ combinations ((dep_pairs df "nome_deputado").*1) →
  frente_step df (frente_graph df nx_Graph) p = frente_graph df nx_Graph.
Proof.
  intros Hp. destruct (frente_graph_spec df) as (Hwf & _ & Hk & Hw).
  unfold frente_step. case_bool_decide as Hpos; [|done].
  pose proof (Hw p.1 p.2) as Hw1. rewrite decide_True in Hw1.
  2:{ split; [done|]. apply Exists_exists. exists p. split; [done|]. by left. }
  apply edge_weight_Some in Hw1 as (r & Hr & Hd).
  destruct p as [a b]. apply elem_of_combinations in Hp as [Ha Hb]. simpl in *.
  apply (add_edge_absorbed a b _ _ r); [| |done| |done].
  - apply elem_of_nodes, Hk. apply elem_of_dep_ids in Ha. unfold ids.
    apply list_elem_of_fmap. naive_solver.
  - apply elem_of_nodes, Hk. apply elem_of_dep_ids in Hb. unfold ids.
    apply list_elem_of_fmap. naive_solver.
  - by rewrite <- (wf_sym _ Hwf).
Qed.

Lemma foldl_absorbed {A} (f : Graph → A → Graph) (G : Graph) (l : list A) :
  (∀ x, x ∈ l → f G x = G) → foldl f G l = G.
Proof.
  induction l as [|x l IH]; intros H; simpl; [done|].
  rewrite H by left. apply IH. intros y Hy. apply H. by right.
Qed.

(** Building the membership network on its own result gives it back. *)
Lemma frente_graph_again df :
  frente_graph df (frente_graph df nx_Graph) = frente_graph df nx_Graph.
Proof.
  destruct (frente_graph_spec df) as (Hwf & Hnd & Hk & Hw).
  destruct (nodes_of_empty df "nome_deputado" "siglaPartido_deputado"
              "siglaUf_deputado") as (Hwf0 & Hnd0 & Hk0 & Hno0).
  destruct (frente_fold df (combinations ((dep_pairs df "nome_deputado").*1))
              (nodes_of df "nome_deputado" "siglaPartido_deputado"
                 "siglaUf_deputado" nx_Graph)) as (_ & Hnode & _).
  { done. }
  { intros [a b] [Ha Hb]%elem_of_combinations. simpl.
    rewrite !Hk0. unfold ids. rewrite !list_elem_of_fmap.
    apply elem_of_dep_ids in Ha, Hb. naive_solver. }
  unfold frente_graph at 1.
  rewrite nodes_of_again; [|done|exact Hnode].
  apply foldl_absorbed. intros p Hp. by apply frente_step_again.
Qed.

Lemma frente_build_empty df G :
  rows df = [] → "id_deputado" ∈ columns df → "nome_deputado" ∈ columns df →
  "titulo" ∈ columns df →
  FrenteNetwork.build_network df G = (Ok tt, G).
Proof.
  intros Hr Hid Hn Ht. unfold FrenteNetwork.build_network.
  erewrite bind_Ok by by apply add_nodes_empty.
  rewrite getitem2_run by done. erewrite bind_Ok by done.
  unfold groupby_apply_set. rewrite groupby_run by done. simpl.
  rewrite decide_True by done. erewrite bind_Ok by done.
  by rewrite Hr.
Qed.

(** Whether [FrenteNetwork.build_network] completes depends on the table
    only, not on the graph it starts from. *)
Lemma frente_build_Ok_any df G G1 G' :
  FrenteNetwork.build_network df G = (Ok tt, G1) →
  FrenteNetwork.build_network df G' = (Ok tt, frente_graph df G').
Proof.
  intros HOk.
  assert (∀ c, c ∈ frente_columns → c ∉ columns df →
            ¬ (rows df ≠ [] ∨ c ∈ ["id_deputado"; "nome_deputado"; "titulo"]))
    as Hmiss.
  { intros c Hc Hm Hcond.
    destruct (frente_missing_column df G c Hc Hm Hcond) as (msg & m & G2 & E & _).
    rewrite E in HOk. done. }
  destruct (decide (rows df = [])) as [Hr|Hr].
  - assert (∀ c, c ∈ ["id_deputado"; "nome_deputado"; "titulo"] → c ∈ columns df)
      as Hin.
    { intros c Hc. destruct (decide (c ∈ columns df)) as [|Hn]; [done|].
      exfalso. apply (Hmiss c); [|done|by right].
      unfold frente_columns. set_solver. }
    rewrite frente_build_empty by (try done; apply Hin; set_solver).
    unfold frente_graph, nodes_of, dep_pairs. by rewrite Hr.
  - apply frente_build_run. intros c Hc.
    destruct (decide (c ∈ columns df)) as [|Hn]; [done|].
    exfalso. apply (Hmiss c); [done..|by left].
Qed.

(** ** Tables in which every id has one name *)

Lemma node_frente_graph df :
  _node (frente_graph df nx_Graph)
  = _node (nodes_of df "nome_deputado" "siglaPartido_deputado"
             "siglaUf_deputado" nx_Graph).
Proof.
  destruct (nodes_of_empty df "nome_deputado" "siglaPartido_deputado"
              "siglaUf_deputado") as (Hwf0 & _ & Hk0 & _).
  destruct (frente_fold df (combinations ((dep_pairs df "nome_deputado").*1))
              (nodes_of df "nome_deputado" "siglaPartido_deputado"
                 "siglaUf_deputado" nx_Graph)) as (_ & Hnode & _); [done| |done].
  intros [a b] [Ha Hb]%elem_of_combinations. simpl.
  rewrite !Hk0. unfold ids. rewrite !list_elem_of_fmap.
  apply elem_of_dep_ids in Ha, Hb. naive_solver.
Qed.

Lemma node_voting_graph df :
  _node (voting_graph df nx_Graph)
  = _node (nodes_of df "nome" "siglaPartido" "siglaUf" nx_Graph).
Proof.
  destruct (nodes_of_empty df "nome" "siglaPartido" "siglaUf")
    as (Hwf & _ & Hk & _).
  by destruct (ballots_fold df (ballots df)
                 (nodes_of df "nome" "siglaPartido" "siglaUf" nx_Graph))
    as (_ & Hnode & _); [done|by intros u ?%Hk|].
Qed.

(** Party and state of a node are those of the first row of its id; its name
    is a name of that id, and the name of the first row when the id has one
    name only. *)
Lemma nodes_of_attrs df c_nome c_partido c_uf k r :
  first_row df k = Some r →
  ∃ n, dget k (_node (nodes_of df c_nome c_partido c_uf nx_Graph))
       = Some (Some {| nome := n; partido := r c_partido; uf := r c_uf |})
       ∧ (∃ r', r' ∈ rows df ∧ r' "id_deputado" = k ∧ r' c_nome = n)
       ∧ (unique_names df c_nome → n = r c_nome).
Proof.
  intros Hr. unfold nodes_of. rewrite (nodes_fold_get df c_nome) by done.
  destruct (first_row_Some df k r Hr) as [Hin Hk].
  destruct (last (filter (λ p, p.1 = k) (dep_pairs df c_nome))) as [[i n]|] eqn:E.
  - apply last_Some_elem_of, list_elem_of_filter in E as [Hi Hp].
    simpl in Hi. subst i. exists n. split_and!.
    + unfold node_attrs. simpl. by rewrite Hr.
    + apply elem_of_dep_pairs in Hp. naive_solver.
    + intros Hu. apply elem_of_dep_pairs in Hp as (r' & Hr' & Hk' & <-).
      apply Hu; [done..|congruence].
  - exfalso. apply last_None in E.
    eapply (filter_nil_not_elem_of _ _ (k, r c_nome)); [exact E|done|].
    apply elem_of_dep_pairs. eauto.
Qed.

Lemma NoDup_dep_ids df c_nome :
  unique_names df c_nome → NoDup (dep_pairs df c_nome).*1.
Proof.
  intros Hu. apply NoDup_fmap_2_strong; [|apply NoDup_drop_duplicates].
  intros [i n] [i' n'] (r & Hr & <- & <-)%elem_of_dep_pairs
    (r' & Hr' & <- & <-)%elem_of_dep_pairs. simpl. intros Hi.
  f_equal; [done|]. by apply Hu.
Qed.

(** When every id has one name the membership policy creates no self-loop. *)
Lemma frente_no_self_loop df G a :
  unique_names df "nome_deputado" →
  FrenteNetwork.build_network df nx_Graph = (Ok tt, G) → has_edge a a G = false.
Proof.
  intros Hu ->%frente_build_inv.
  destruct (frente_graph_spec df) as (Hwf & _ & _ & Hw).
  apply not_true_is_false. rewrite has_edge_weight, Hw by done.
  rewrite decide_False; [by intros [? ?]|].
  intros [_ ([x y] & Hxy & Hs)%Exists_exists].
  apply (combinations_NoDup_ne x y _ (NoDup_dep_ids df _ Hu) Hxy).
  destruct Hs as [[? ?]|[? ?]]; simpl in *; congruence.
Qed.

(** ** The edge view [G.edges] *)

Section dict_elems.
Context {K V : Type} `{EqDecision K}.
Implicit Types (k : K) (v : V) (d : list (K * V)).

Lemma dget_elem_NoDup k v d : NoDup (dkeys d) → (k, v) ∈ d → dget k d = Some v.
Proof.
  unfold dkeys. induction d as [|[k0 v0] d IH]; [by intros _ ?%elem_of_nil|].
  rewrite fmap_cons. intros [Hk Hnd]%NoDup_cons [[= -> ->]|Hin]%elem_of_cons;
    simpl.
  - by rewrite decide_True.
  - rewrite decide_False; [by apply IH|]. intros ->. apply Hk.
    apply list_elem_of_fmap. by exists (k0, v).
Qed.

Lemma Forall_dset (Q : V → Prop) k v d :
  Forall (λ e, Q e.2) d → Q v → Forall (λ e, Q e.2) (dset k v d).
Proof.
  intros Hd Hv. induction Hd as [|[k0 v0] d H0 Hd IH]; simpl.
  - by constructor.
  - destruct (decide (k = k0)); by constructor.
Qed.
End dict_elems.

Lemma adj_ok_nbrs adj u :
  adj_ok adj → NoDup (dkeys (default [] (dget u adj))).
Proof.
  intros [_ Hin]. destruct (dget u adj) as [nb|] eqn:E; simpl; [|constructor].
  apply dget_Some_elem in E. rewrite Forall_forall in Hin. by apply (Hin _ E).
Qed.

Lemma adj_ok_dset_nil adj n : adj_ok adj → adj_ok (dset n [] adj).
Proof.
  intros [H1 H2]. split; [by apply NoDup_dkeys_dset|].
  apply (Forall_dset (λ nb, NoDup (dkeys nb))); [done|constructor].
Qed.

Lemma adj_ok_adj_set adj u v r : adj_ok adj → adj_ok (adj_set u v r adj).
Proof.
  intros Hok. pose proof (adj_ok_nbrs adj u Hok) as Hu. destruct Hok as [H1 H2].
  split; [by apply NoDup_dkeys_dset|].
  apply (Forall_dset (λ nb, NoDup (dkeys nb))); [done|].
  by apply NoDup_dkeys_dset.
Qed.

Lemma adj_ok_ensure_node n G : adj_ok (_adj G) → adj_ok (_adj (ensure_node n G)).
Proof.
  unfold ensure_node. destruct (dget n (_node G)); simpl; [done|].
  apply adj_ok_dset_nil.
Qed.

Lemma adj_ok_add_node n a G : adj_ok (_adj G) → adj_ok (_adj (add_node n a G)).
Proof.
  unfold add_node. destruct (dget n (_node G)); simpl; [done|].
  apply adj_ok_dset_nil.
Qed.

Lemma adj_ok_add_edge u v w G : adj_ok (_adj G) → adj_ok (_adj (add_edge u v w G)).
Proof.
  intros H. unfold add_edge. cbv zeta.
  assert (adj_ok (_adj (ensure_node v (ensure_node u G)))) as H'
    by auto using adj_ok_ensure_node.
  destruct (dget v (default [] (dget u (_adj (ensure_node v (ensure_node u G))))));
    simpl; auto using adj_ok_adj_set.
Qed.

Lemma adj_bump u v d G : _adj (bump u v d G) = _adj G.
Proof. unfold bump. by destruct (edge_ref G u v). Qed.

Lemma foldl_invariant {A} (P : Graph → Prop) (f : Graph → A → Graph)
    (l : list A) (G : Graph) :
  (∀ G x, P G → P (f G x)) → P G → P (foldl f G l).
Proof. intros Hf. revert G. induction l; simpl; auto. Qed.

Lemma adj_ok_nodes_of df c_nome c_partido c_uf G :
  adj_ok (_adj G) → adj_ok (_adj (nodes_of df c_nome c_partido c_uf G)).
Proof.
  unfold nodes_of. apply (foldl_invariant (λ G, adj_ok (_adj G))).
  intros G0 p. unfold node_step. destruct (first_row df p.1); [|done].
  apply adj_ok_add_node.
Qed.

Lemma adj_ok_nx_Graph : adj_ok (_adj nx_Graph).
Proof. split; constructor. Qed.

Lemma adj_ok_frente_graph df : adj_ok (_adj (frente_graph df nx_Graph)).
Proof.
  unfold frente_graph. apply (foldl_invariant (λ G, adj_ok (_adj G))).
  - intros G p. unfold frente_step. case_bool_decide; [|done].
    apply adj_ok_add_edge.
  - apply adj_ok_nodes_of, adj_ok_nx_Graph.
Qed.

Lemma adj_ok_voting_graph df : adj_ok (_adj (voting_graph df nx_Graph)).
Proof.
  unfold voting_graph. apply (foldl_invariant (λ G, adj_ok (_adj G))).
  - intros G k. unfold ballot_step.
    apply (foldl_invariant (λ G, adj_ok (_adj G))).
    intros G0 p H. unfold vote_step. rewrite adj_bump.
    destruct (has_edge p.1 p.2 G0); [done|]. by apply adj_ok_add_edge.
  - apply adj_ok_nodes_of, adj_ok_nx_Graph.
Qed.

Lemma edges_from_app l1 l2 seen :
  edges_from (l1 ++ l2) seen
  = edges_from l1 seen ++ edges_from l2 (reverse (dkeys l1) ++ seen).
Proof.
  revert seen. induction l1 as [|[n nbrs] l1 IH]; intros seen; simpl; [done|].
  rewrite IH, <- app_assoc. do 2 f_equal.
  change (dkeys ((n, nbrs) :: l1)) with (n :: dkeys l1).
  by rewrite reverse_cons, <- app_assoc.
Qed.

Lemma elem_of_edges_from adj seen u v r :
  (u, v, r) ∈ edges_from adj seen →
  ∃ nbrs, (u, nbrs) ∈ adj ∧ (v, r) ∈ nbrs ∧ v ∉ seen.
Proof.
  revert seen. induction adj as [|[n nbrs] adj IH]; intros seen; simpl.
  - by intros ?%elem_of_nil.
  - intros [H|H]%elem_of_app.
    + apply list_elem_of_fmap in H as ([v' r'] & [= -> -> ->] & H).
      apply list_elem_of_filter in H as [Hs H]. exists nbrs.
      split_and!; [left|done..].
    + apply IH in H as (nb & H1 & H2 & H3). exists nb.
      split_and!; [by right|done|]. intros ?. apply H3. by right.
Qed.

(** Every triple [G.edges] yields is an edge of the graph. *)
Lemma edges_sound G u v r :
  adj_ok (_adj G) → (u, v, r) ∈ edges G → edge_ref G u v = Some r.
Proof.
  intros [H1 H2] (nbrs & Hu & Hv & _)%elem_of_edges_from.
  unfold edge_ref, aref. rewrite (dget_elem_NoDup u nbrs) by done. simpl.
  apply dget_elem_NoDup; [|done].
  rewrite Forall_forall in H2. by apply (H2 _ Hu).
Qed.

Lemma edges_from_split l1 l2 u nbrs v r seen :
  (v, r) ∈ nbrs → v ∉ seen → v ∉ dkeys l1 →
  (u, v, r) ∈ edges_from (l1 ++ (u, nbrs) :: l2) seen.
Proof.
  intros Hv Hs Hl. rewrite edges_from_app. apply elem_of_app. right. simpl.
  apply elem_of_app. left. apply list_elem_of_fmap. exists (v, r).
  split; [done|]. apply list_elem_of_filter. split; [|done]. simpl.
  rewrite elem_of_app, elem_of_reverse. naive_solver.
Qed.

(** [G.edges] yields every edge, in one of its two orientations. *)
Lemma edges_complete G u v r :
  wf G → adj_ok (_adj G) → edge_ref G u v = Some r →
  (u, v, r) ∈ edges G ∨ (v, u, r) ∈ edges G.
Proof.
  intros Hwf [H1 H2] Huv. pose proof Huv as Hvu. rewrite (wf_sym _ Hwf) in Hvu.
  unfold edge_ref, aref in Huv, Hvu.
  destruct (dget u (_adj G)) as [nu|] eqn:Eu; [simpl in Huv|done].
  destruct (dget v (_adj G)) as [nv|] eqn:Ev; [simpl in Hvu|done].
  apply dget_Some_elem in Huv, Hvu.
  pose proof (dget_Some_elem _ _ _ Eu) as Hu.
  apply list_elem_of_split in Hu as (l1 & l2 & E).
  unfold edges. destruct (decide (v ∈ dkeys l1)) as [Hin|Hout].
  - right. unfold dkeys in Hin.
    apply list_elem_of_fmap in Hin as ([v' nv'] & -> & Hin). simpl in *.
    assert (nv' = nv) as ->.
    { assert ((v', nv') ∈ _adj G) as Hin'.
      { rewrite E. apply elem_of_app. by left. }
      apply (dget_elem_NoDup _ _ _ H1) in Hin'. congruence. }
    apply list_elem_of_split in Hin as (l1a & l1b & ->).
    rewrite E, <- app_assoc. simpl.
    apply edges_from_split; [done|apply not_elem_of_nil|].
    intros Hu. rewrite E in H1. unfold dkeys in H1.
    rewrite fmap_app, fmap_cons in H1. apply NoDup_app in H1 as (_ & H1 & _).
    apply (H1 u); [|left]. unfold dkeys in Hu. rewrite fmap_app.
    apply elem_of_app. by left.
  - left. rewrite E. by apply edges_from_split; [|apply not_elem_of_nil|].
Qed.

Lemma NoDup_edges_from adj seen :
  adj_ok adj →
  (∀ n nbrs v r a nb b,
     (n, nbrs) ∈ adj → (v, r) ∈ nbrs → (a, nb) ∈ adj → (b, r) ∈ nb →
     same_pair n v a b) →
  NoDup ((edges_from adj seen).*2).
Proof.
  revert seen. induction adj as [|[n nbrs] adj IH]; intros seen [H1 H2] H3; simpl.
  { constructor. }
  unfold dkeys in H1. rewrite fmap_cons in H1. apply NoDup_cons in H1 as [Hn H1].
  apply Forall_cons in H2 as [Hnb H2]. simpl in Hnb.
  rewrite fmap_app. apply NoDup_app. split_and!.
  - rewrite <- list_fmap_compose.
    apply NoDup_fmap_2_strong.
    + intros [v r] [v' r'] [_ Hv]%list_elem_of_filter [_ Hv']%list_elem_of_filter.
      simpl. intros <-. f_equal.
      destruct (H3 n nbrs v r n nbrs v') as [[_ ?]|[? ?]];
        [left|done|left|done|done|congruence].
    + apply NoDup_filter. by eapply NoDup_fmap_1.
  - intros r Hr Hr'.
    apply list_elem_of_fmap in Hr as ([[u v] r0] & -> & Hr).
    apply list_elem_of_fmap in Hr as ([v0 r1] & [= -> -> ->] & Hr).
    apply list_elem_of_filter in Hr as [Hs Hr]. simpl in *.
    apply list_elem_of_fmap in Hr' as ([[a b] r0] & Er & Hr'). simpl in Er.
    subst r0. apply elem_of_edges_from in Hr' as (nb & Ha & Hb & Hs').
    destruct (H3 n nbrs v0 r1 a nb b) as [[-> ->]|[-> ->]];
      [left|done|by right|done| |].
    + apply Hn. apply list_elem_of_fmap. by exists (n, nb).
    + apply Hs'. left.
  - apply IH; [done|]. intros. eapply H3; try done; by right.
Qed.

(** [G.edges] yields every edge attribute dict once: no edge is listed
    twice, in the same or in the other orientation. *)
Lemma NoDup_edges G : wf G → adj_ok (_adj G) → NoDup ((edges G).*2).
Proof.
  intros Hwf Hok. apply NoDup_edges_from; [done|].
  destruct Hok as [H1 H2]. rewrite Forall_forall in H2.
  intros n nbrs v r a nb b Hn Hv Ha Hb.
  apply (wf_inj _ Hwf n v a b r); unfold edge_ref, aref.
  - rewrite (dget_elem_NoDup n nbrs) by done. simpl.
    apply dget_elem_NoDup; [by apply (H2 _ Hn)|done].
  - rewrite (dget_elem_NoDup a nb) by done. simpl.
    apply dget_elem_NoDup; [by apply (H2 _ Ha)|done].
Qed.

(** The edge view of a graph built by either policy: the triples it yields
    are the edges of the graph, each yielded once. *)
Lemma built_edges_spec G :
  wf G → adj_ok (_adj G) →
  NoDup ((edges G).*2)
  ∧ (∀ u v r, (u, v, r) ∈ edges G → edge_ref G u v = Some r)
  ∧ (∀ u v, has_edge u v G = true ↔
       ∃ r, (u, v, r) ∈ edges G ∨ (v, u, r) ∈ edges G).
Proof.
  intros Hwf Hok. split_and!.
  - by apply NoDup_edges.
  - intros u v r. by apply edges_sound.
  - intros u v. rewrite has_edge_true. split.
    + intros [r Hr]. exists r. by apply edges_complete.
    + intros (r & [H|H]).
      * apply edges_sound in H; [|done]. eauto.
      * apply edges_sound in H; [|done]. rewrite (wf_sym _ Hwf). eauto.
Qed.

(** On a graph built by either policy the sorted view lists every edge of
    the graph exactly once. *)
Lemma sorted_edges_built df G :
  FrenteNetwork.build_network df nx_Graph = (Ok tt, G)
  ∨ VotingNetwork.build_network df nx_Graph = (Ok tt, G) →
  ∃ out, BaseNetwork.get_sorted_edges G = (Ok out, G)
         ∧ NoDup (out.*2)
         ∧ ∀ u v, has_edge u v G = true ↔
                  ∃ r, (u, v, r) ∈ out ∨ (v, u, r) ∈ out.
Proof.
  intros HG.
  assert (wf G ∧ adj_ok (_adj G)) as [Hwf Hok].
  { destruct HG as [->%frente_build_inv| ->%voting_build_inv].
    - split; [apply frente_graph_spec|apply adj_ok_frente_graph].
    - split; [apply voting_graph_spec|apply adj_ok_voting_graph]. }
  destruct (built_edges_spec G Hwf Hok) as (Hnd & _ & Hiff).
  exists (sorted (λ x, weight_at G x.2) (edges G)). split_and!.
  - done.
  - by rewrite sorted_perm.
  - intros u v. rewrite Hiff. by setoid_rewrite sorted_perm.
Qed.

(** ** Built graphs *)

Lemma built_spec df G :
  built df G →
  wf G ∧ adj_ok (_adj G) ∧ NoDup (nodes G) ∧ ∀ k, k ∈ nodes G ↔ k ∈ ids df.
Proof.
  intros [->%frente_build_inv| ->%voting_build_inv].
  - destruct (frente_graph_spec df) as (Hwf & Hnd & Hk & _).
    split_and!; [done|apply adj_ok_frente_graph|done..].
  - destruct (voting_graph_spec df) as (Hwf & Hnd & Hk & _).
    split_and!; [done|apply adj_ok_voting_graph|done..].
Qed.

Lemma has_edge_sym G a b : wf G → has_edge a b G = has_edge b a G.
Proof. intros Hwf. by rewrite !has_edge_ref, (wf_sym _ Hwf). Qed.

Lemma edge_weight_sym G a b : wf G → edge_weight G a b = edge_weight G b a.
Proof. intros Hwf. unfold edge_weight. by rewrite (wf_sym _ Hwf). Qed.

(** ** Self-loops of the membership policy *)

Lemma combinations_fmap {A B} (f : A → B) (l : list A) :
  combinations (f <$> l) = (λ p, (f p.1, f p.2)) <$> combinations l.
Proof.
  induction l as [|x l IH]; [done|].
  cbn [combinations fmap list_fmap]. rewrite IH, fmap_app. f_equal.
  rewrite <- !list_fmap_compose. done.
Qed.

Lemma NoDup_two {A} (l : list A) :
  NoDup l → (2 ≤ length l ↔ ∃ x y, x ≠ y ∧ x ∈ l ∧ y ∈ l).
Proof.
  intros Hnd. split.
  - destruct Hnd as [|x l Hx Hnd]; simpl; [lia|].
    destruct Hnd as [|y l Hy Hnd]; simpl; [lia|]. intros _.
    exists x, y. split_and!; [|left|right; left].
    intros ->. apply Hx. left.
  - intros (x & y & Hne & Hx & Hy).
    destruct l as [|z [|z' l]]; simpl; [by apply elem_of_nil in Hx| |lia].
    apply list_elem_of_singleton in Hx, Hy. congruence.
Qed.

Lemma elem_of_names_of df c_nome k n :
  n ∈ names_of df c_nome k ↔ (k, n) ∈ dep_pairs df c_nome.
Proof.
  unfold names_of. rewrite elem_of_drop_duplicates, list_elem_of_fmap.
  rewrite elem_of_dep_pairs. setoid_rewrite list_elem_of_filter. naive_solver.
Qed.

Lemma NoDup_names_of df c_nome k : NoDup (names_of df c_nome k).
Proof. apply NoDup_drop_duplicates. Qed.

(** The pair loop visits (a, a) exactly when [a] occurs under two names. *)
Lemma self_pair_visited df a :
  Exists (λ p, same_pair p.1 p.2 a a)
    (combinations ((dep_pairs df "nome_deputado").*1))
  ↔ 2 ≤ length (names_of df "nome_deputado" a).
Proof.
  rewrite (NoDup_two _ (NoDup_names_of df _ a)), Exists_exists.
  rewrite combinations_fmap. split.
  - intros ([x y] & Hxy & Hs).
    apply list_elem_of_fmap in Hxy as ([[i n] [i' n']] & [= -> ->] & Hp).
    simpl in Hs. assert (i = a ∧ i' = a) as [-> ->].
    { destruct Hs as [[? ?]|[? ?]]; by subst. }
    exists n, n'. split_and!.
    + intros ->. by apply (combinations_NoDup_ne _ _ _
                             (NoDup_drop_duplicates _) Hp).
    + apply elem_of_names_of. by apply elem_of_combinations in Hp as [? _].
    + apply elem_of_names_of. by apply elem_of_combinations in Hp as [_ ?].
  - intros (n & n' & Hne & Hn%elem_of_names_of & Hn'%elem_of_names_of).
    exists (a, a). split; [|by left].
    apply list_elem_of_fmap.
    destruct (combinations_covers (a, n) (a, n') (dep_pairs df "nome_deputado"))
      as [H|H]; [congruence|done..| |].
    + by exists ((a, n), (a, n')).
    + by exists ((a, n'), (a, n)).
Qed.

Lemma frentes_nonempty df a : a ∈ ids df → 0 < shared df a a.
Proof.
  unfold ids. intros (r & -> & Hr)%list_elem_of_fmap.
  apply shared_pos. unfold frentes.
  assert (r "titulo" ∈ (list_to_set ((λ r0, r0 "titulo")
            <$> filter (λ r0, r0 "id_deputado" = r "id_deputado") (rows df))
            : gset value)) as Hin.
  { apply elem_of_list_to_set, list_elem_of_fmap. exists r. split; [done|].
    by apply list_elem_of_filter. }
  set_solver.
Qed.

Lemma shared_self df a : shared df a a = size (frentes df a).
Proof. unfold shared. f_equal. set_solver. Qed.

Lemma names_of_ids df c_nome a : names_of df c_nome a ≠ [] → a ∈ ids df.
Proof.
  intros H. destruct (names_of df c_nome a) as [|n l] eqn:E; [done|].
  assert (n ∈ names_of df c_nome a) as Hn by (rewrite E; left).
  apply elem_of_names_of, elem_of_dep_pairs in Hn as (r & Hr & <- & _).
  unfold ids. apply list_elem_of_fmap. eauto.
Qed.

(** The weight of every pair in the membership graph. *)
Lemma frente_weight df a b :
  edge_weight (frente_graph df nx_Graph) a b
  = if decide (a = b)
    then (if decide (2 ≤ length (names_of df "nome_deputado" a))
          then Some (Z.of_nat (size (frentes df a))) else None)
    else (if decide (0 < shared df a b)
          then Some (Z.of_nat (shared df a b)) else None).
Proof.
  destruct (frente_graph_spec df) as (_ & _ & _ & Hw). rewrite Hw.
  destruct (decide (a = b)) as [<-|Hne].
  - destruct (decide (2 ≤ length (names_of df "nome_deputado" a))) as [H2|H2].
    + rewrite decide_True, shared_self; [done|].
      split; [|by apply self_pair_visited].
      apply frentes_nonempty, (names_of_ids df "nome_deputado").
      intros E. rewrite E in H2. simpl in H2. lia.
    + rewrite decide_False; [done|]. intros [_ H]. by apply self_pair_visited in H.
  - destruct (decide (0 < shared df a b)) as [Hpos|Hpos].
    + rewrite decide_True; [done|]. split; [done|].
      assert (∀ x y, 0 < shared df x y → x ∈ (dep_pairs df "nome_deputado").*1)
        as Hin.
      { intros x y Hxy. apply elem_of_dep_ids.
        apply shared_pos in Hxy.
        destruct (decide (x ∈ ids df)) as [Hx|Hx].
        - unfold ids in Hx. apply list_elem_of_fmap in Hx. naive_solver.
        - exfalso. apply Hxy. rewrite (frentes_empty df x) by done. set_solver. }
      apply Exists_same_pair_combinations; [done|by eapply Hin|].
      apply (Hin b a). by rewrite shared_comm.
    + rewrite decide_False; [done|]. naive_solver.
Qed.

(** ** Bounds on the tally *)

Lemma filter_split_length {A} (P Q : A → Prop)
    `{∀ x, Decision (P x)} `{∀ x, Decision (Q x)} (l : list A) :
  length (filter P l)
  = length (filter (λ x, P x ∧ Q x) l) + length (filter (λ x, P x ∧ ¬ Q x) l).
Proof.
  induction l as [|x l IH]; [done|]. rewrite !filter_cons.
  destruct (decide (P x)), (decide (Q x)).
  - rewrite decide_True, decide_False by naive_solver. simpl. lia.
  - rewrite decide_False, decide_True by naive_solver. simpl. lia.
  - rewrite !decide_False by naive_solver. done.
  - rewrite !decide_False by naive_solver. done.
Qed.

(** The tally is twice the number of agreements minus the number of common
    ballots. *)
Lemma tally_agreements df a b :
  ∃ g, g ≤ common_ballots df a b
       ∧ tally df a b = (2 * Z.of_nat g - Z.of_nat (common_ballots df a b))%Z.
Proof.
  exists (length (filter (λ k, covoted df a b k
                            ∧ last_vote df k a = last_vote df k b) (ballots df))).
  assert (common_ballots df a b = length (filter (covoted df a b) (ballots df)))
    as ->.
  { unfold common_ballots. by rewrite <- ballots_perm. }
  rewrite (filter_split_length (covoted df a b)
             (λ k, last_vote df k a = last_vote df k b)).
  unfold tally.
  rewrite (tally_split _ _ (λ k, last_vote df k a = last_vote df k b)) by done.
  split; lia.
Qed.

Lemma common_ballots_pos df a b :
  filter (covoted df a b) (ballots df) ≠ [] → 0 < common_ballots df a b.
Proof.
  intros H. unfold common_ballots. rewrite <- ballots_perm.
  destruct (filter (covoted df a b) (ballots df)); [done|]. simpl. lia.
Qed.

(** ** What a failed build leaves behind *)

Lemma frente_raise_titulo df G :
  "id_deputado" ∈ columns df → "nome_deputado" ∈ columns df →
  "siglaPartido_deputado" ∈ columns df → "siglaUf_deputado" ∈ columns df →
  "titulo" ∉ columns df →
  FrenteNetwork.build_network df G
  = (Raise (KeyError [VStr "Column not found: titulo"]),
     nodes_of df "nome_deputado" "siglaPartido_deputado" "siglaUf_deputado" G).
Proof.
  intros Hid Hn Hp Hu Ht. unfold FrenteNetwork.build_network.
  erewrite bind_Ok by by apply add_nodes_run.
  rewrite getitem2_run by done. erewrite bind_Ok by done.
  apply bind_Raise. unfold lift, groupby_apply_set.
  rewrite groupby_run by done. simpl. by rewrite decide_False.
Qed.

Lemma voting_raise_id df G :
  "id_deputado" ∈ columns df → "nome" ∈ columns df →
  "siglaPartido" ∈ columns df → "siglaUf" ∈ columns df →
  "id" ∉ columns df →
  VotingNetwork.build_network df G
  = (Raise (KeyError [VStr "id"]),
     nodes_of df "nome" "siglaPartido" "siglaUf" G).
Proof.
  intros Hid Hn Hp Hu Hb. unfold VotingNetwork.build_network.
  erewrite bind_Ok by by apply add_nodes_run.
  apply bind_Raise. unfold lift, groupby. by rewrite getitem_raise.
Qed.

Lemma edgeless_has_edge G a b : edgeless G → has_edge a b G = false.
Proof.
  intros H. rewrite has_edge_ref, H. apply bool_decide_eq_false. by intros [? ?].
Qed.

(** Membership and non-membership in a concrete list. *)
Ltac by_compute := apply (bool_decide_unpack _); vm_compute; exact I.

(** ** Building the agreement network twice *)

Lemma voting_build_empty df G :
  rows df = [] → "id_deputado" ∈ columns df → "nome" ∈ columns df →
  "id" ∈ columns df →
  VotingNetwork.build_network df G = (Ok tt, G).
Proof.
  intros Hr Hid Hn Hb. unfold VotingNetwork.build_network.
  erewrite bind_Ok by by apply add_nodes_empty.
  rewrite groupby_run by done. erewrite bind_Ok by done.
  by rewrite Hr.
Qed.

(** Whether [VotingNetwork.build_network] completes depends on the table
    only. *)
Lemma voting_build_Ok_any df G G1 G' :
  VotingNetwork.build_network df G = (Ok tt, G1) →
  VotingNetwork.build_network df G' = (Ok tt, voting_graph df G').
Proof.
  intros HOk.
  assert (∀ c, c ∈ voting_columns → c ∉ columns df →
            ¬ (rows df ≠ [] ∨ c ∈ ["id_deputado"; "nome"; "id"])) as Hmiss.
  { intros c Hc Hm Hcond.
    destruct (voting_missing_column df G c Hc Hm Hcond) as (msg & m & G2 & E & _).
    rewrite E in HOk. done. }
  destruct (decide (rows df = [])) as [Hr|Hr].
  - assert (∀ c, c ∈ ["id_deputado"; "nome"; "id"] → c ∈ columns df) as Hin.
    { intros c Hc. destruct (decide (c ∈ columns df)) as [|Hn]; [done|].
      exfalso. apply (Hmiss c); [|done|by right].
      unfold voting_columns. set_solver. }
    rewrite voting_build_empty by (try done; apply Hin; set_solver).
    unfold voting_graph, nodes_of, dep_pairs, ballots. by rewrite Hr.
  - apply voting_build_run. intros c Hc.
    destruct (decide (c ∈ columns df)) as [|Hn]; [done|].
    exfalso. apply (Hmiss c); [done..|by left].
Qed.

(** A second run of the ballot loop adds the tally once more. *)
Lemma voting_graph_again df a b :
  a ≠ b →
  nodes (voting_graph df (voting_graph df nx_Graph))
  = nodes (voting_graph df nx_Graph)
  ∧ edge_weight (voting_graph df (voting_graph df nx_Graph)) a b
    = Z.mul 2 <$> edge_weight (voting_graph df nx_Graph) a b.
Proof.
  intros Hne.
  destruct (voting_graph_spec df) as (Hwf & Hnd & Hk & _ & Hw).
  pose proof (node_voting_graph df) as Hn1.
  specialize (Hw a b Hne).
  destruct (ballots_fold df (ballots df) (voting_graph df nx_Graph))
    as (_ & Hnode & Hw2); [done|by intros u ?%Hk|].
  specialize (Hw2 a b Hne).
  remember (voting_graph df nx_Graph) as G1 eqn:EG.
  unfold voting_graph. rewrite nodes_of_again by done.
  split; [unfold nodes; by rewrite Hnode|].
  rewrite Hw2, tally_foldl, Hw.
  fold (tally df a b).
  destruct (filter (covoted df a b) (ballots df)) eqn:E.
  - by rewrite decide_True.
  - rewrite decide_False by done. simpl. f_equal. unfold tally. rewrite E.
    simpl. lia.
Qed.

(** ** Tables that differ in the order of their rows *)

Section row_order.
Context (df df' : DataFrame) (Hperm : rows df ≡ₚ rows df').

Lemma perm_rows r : r ∈ rows df ↔ r ∈ rows df'.
Proof. by rewrite Hperm. Qed.

Lemma perm_ids k : k ∈ ids df ↔ k ∈ ids df'.
Proof. unfold ids. by rewrite Hperm. Qed.

Lemma perm_frentes k : frentes df k = frentes df' k.
Proof.
  unfold frentes. apply set_eq. intros t.
  rewrite !elem_of_list_to_set. by rewrite Hperm.
Qed.

Lemma perm_shared a b : shared df a b = shared df' a b.
Proof. unfold shared. by rewrite !perm_frentes. Qed.

Lemma perm_names_of c k :
  length (names_of df c k) = length (names_of df' c k).
Proof.
  apply Permutation_length, NoDup_Permutation; [apply NoDup_names_of..|].
  intros n. rewrite !elem_of_names_of, !elem_of_dep_pairs.
  by setoid_rewrite perm_rows.
Qed.

Lemma perm_votes_in k u : votes_in df k u ≡ₚ votes_in df' k u.
Proof. unfold votes_in. by rewrite Hperm. Qed.

Lemma perm_last_vote k u :
  unique_votes df → last_vote df k u = last_vote df' k u.
Proof.
  intros Hu. unfold last_vote. pose proof (perm_votes_in k u) as Hp.
  pose proof (Hu k u) as Hl.
  destruct (votes_in df k u) as [|x [|??]]; simpl in Hl; [| |lia].
  - by apply Permutation_nil_l in Hp as ->.
  - by apply Permutation_singleton_l in Hp as ->.
Qed.
End row_order.

Lemma unique_votes_ex_cancel : unique_votes ex_cancel.
Proof.
  intros k u. unfold votes_in. rewrite length_fmap.
  unfold ex_cancel. cbn [rows]. rewrite !filter_cons, filter_nil.
  repeat case_decide; simpl; try lia;
    repeat match goal with
           | H : _ ∧ _ |- _ => destruct H
           | H : voting_row _ _ _ _ _ _ _ = _ |- _ => vm_compute in H
           end; congruence.
Qed.

Lemma has_edge_weight_eq G a b :
  wf G → has_edge a b G = bool_decide (is_Some (edge_weight G a b)).
Proof.
  intros Hwf. destruct (has_edge a b G) eqn:E; symmetry.
  - by apply bool_decide_eq_true, has_edge_weight.
  - apply bool_decide_eq_false. rewrite <- has_edge_weight by done.
    by rewrite E.
Qed.

(** ** Paginated requests *)

Lemma pages_from_snoc page k :
  pages_from page (S k) = pages_from page k ++ [(page + Z.of_nat k)%Z].
Proof.
  revert page. induction k as [|k IH]; intros page.
  - simpl. by rewrite Z.add_0_r.
  - change (pages_from page (S (S k)))
      with (page :: pages_from (page + 1) (S k)).
    rewrite IH. simpl. do 3 f_equal. lia.
Qed.

Lemma elem_of_pages_from page k p :
  p ∈ pages_from page k ↔ (page ≤ p < page + Z.of_nat k)%Z.
Proof.
  revert page. induction k as [|k IH]; intros page; simpl.
  - rewrite elem_of_nil. lia.
  - rewrite elem_of_cons, IH. lia.
Qed.

Lemma length_pages_from page k : length (pages_from page k) = k.
Proof. revert page. induction k; intros; simpl; auto. Qed.

Section paginated_facts.
Context {A : Type}.
Implicit Types (request : list (string * value) → api_result A)
  (params : option (list (string * value))) (max_pages : option Z)
  (all_data : list A) (sent : list (list (string * value))).

(** Whatever the loop returns is made of the pages it requested, in order:
    it requested the pages [page .. page + k - 1], none of them beyond the
    limit, and all but the last one had items and a next link. *)
Lemma paginate_loop_shape fuel request params max_pages page all_data sent d s :
  paginate_loop fuel request params max_pages page all_data sent = Some (d, s) →
  ∃ k, k ≤ fuel
       ∧ d = all_data ++ concat (page_data request params <$> pages_from page k)
       ∧ s = sent ++ (page_params params <$> pages_from page k)
       ∧ Forall (λ p, past_limit max_pages p = false) (pages_from page k)
       ∧ Forall (λ p, continues request params p = true)
           (pages_from page (pred k)).
Proof.
  revert page all_data sent.
  induction fuel as [|fuel IH]; intros page all_data sent; simpl; [done|].
  destruct (past_limit max_pages page) eqn:Hlim.
  { intros [= <- <-]. exists 0. simpl. rewrite !app_nil_r.
    split_and!; [lia|done..]. }
  assert (∀ e, (∀ x data, e ≠ Some (x :: data)) →
            page_data request params page = default [] e →
            default [] e = [] →
            Some (all_data, sent ++ [page_params params page]) = Some (d, s) →
            ∃ k, k ≤ S fuel
              ∧ d = all_data
                    ++ concat (page_data request params <$> pages_from page k)
              ∧ s = sent ++ (page_params params <$> pages_from page k)
              ∧ Forall (λ p, past_limit max_pages p = false) (pages_from page k)
              ∧ Forall (λ p, continues request params p = true)
                  (pages_from page (pred k))) as Hone.
  { intros e _ Hpd He [= <- <-]. exists 1. simpl. rewrite Hpd, He, !app_nil_r.
    split_and!; [lia|done|done|by repeat constructor|done]. }
  destruct (request (page_params params page)) as [response|msg] eqn:Hreq.
  2:{ apply (Hone None); [done| |done]. unfold page_data. by rewrite Hreq. }
  destruct (dados response) as [[|x data]|] eqn:Hd.
  - apply (Hone (Some [])); [done| |done]. unfold page_data.
    by rewrite Hreq, Hd.
  - destruct (has_next response) eqn:Hnext.
    + intros (k & Hk & -> & -> & Hl & Hc)%IH. exists (S k).
      assert (page_data request params page = x :: data) as Hpd.
      { unfold page_data. by rewrite Hreq, Hd. }
      cbn [pages_from fmap list_fmap concat]. rewrite Hpd, <- !app_assoc.
      split_and!; [lia|done|done|by constructor|].
      destruct k as [|k]; [done|]. simpl. constructor; [|done].
      unfold continues. by rewrite Hreq, Hd.
    + intros [= <- <-]. exists 1. simpl. unfold page_data.
      rewrite Hreq, Hd. simpl. rewrite !app_nil_r.
      split_and!; [lia|done|done|by repeat constructor|done].
  - apply (Hone None); [done| |done]. unfold page_data. by rewrite Hreq, Hd.
Qed.

(** When the pages [page .. page + k - 1] all continue and are within the
    limit, the loop gets through them and goes on from page [page + k]. *)
Lemma paginate_loop_continue fuel k request params max_pages page all_data sent :
  Forall (λ p, continues request params p = true
               ∧ past_limit max_pages p = false) (pages_from page k) →
  paginate_loop (k + fuel) request params max_pages page all_data sent
  = paginate_loop fuel request params max_pages (page + Z.of_nat k)
      (all_data ++ concat (page_data request params <$> pages_from page k))
      (sent ++ (page_params params <$> pages_from page k)).
Proof.
  revert page all_data sent. induction k as [|k IH]; intros page all_data sent.
  - intros _. simpl. by rewrite Z.add_0_r, !app_nil_r.
  - simpl. intros [[Hc Hl] Hrest]%Forall_cons. rewrite Hl.
    unfold continues in Hc. unfold page_data at 1.
    destruct (request (page_params params page)) as [response|msg]; [|done].
    destruct (dados response) as [[|x data]|]; [done| |done].
    rewrite Hc, IH by done. simpl. rewrite <- !app_assoc. simpl.
    by replace (page + 1 + Z.of_nat k)%Z with (page + Z.of_nat (S k))%Z by lia.
Qed.

(** One more iteration at a page that does not continue ends the loop. *)
Lemma paginate_loop_last fuel request params max_pages page all_data sent :
  past_limit max_pages page = false →
  continues request params page = false →
  paginate_loop (S fuel) request params max_pages page all_data sent
  = Some (all_data ++ page_data request params page,
          sent ++ [page_params params page]).
Proof.
  intros Hl Hc. simpl. rewrite Hl. unfold continues in Hc. unfold page_data.
  destruct (request (page_params params page)) as [response|msg];
    [|by rewrite app_nil_r].
  destruct (dados response) as [[|x data]|]; simpl; rewrite ?app_nil_r; try done.
  by rewrite Hc.
Qed.

(** With a page limit the loop ends. *)
Lemma paginate_loop_terminates fuel request params n page all_data sent :
  n ≠ 0%Z → Z.to_nat (n + 1 - page) < fuel →
  is_Some (paginate_loop fuel request params (Some n) page all_data sent).
Proof.
  intros Hn. revert page all_data sent.
  induction fuel as [|fuel IH]; intros page all_data sent Hf; [lia|].
  simpl. destruct (negb (n =? 0)%Z && (n <? page)%Z) eqn:Hlim; [by eauto|].
  assert (page ≤ n)%Z as Hle.
  { apply andb_false_iff in Hlim as [H|H].
    - apply negb_false_iff, Z.eqb_eq in H. done.
    - apply Z.ltb_ge in H. lia. }
  destruct (request (page_params params page)) as [response|msg]; [|by eauto].
  destruct (dados response) as [[|x data]|]; [by eauto| |by eauto].
  destruct (has_next response); [|by eauto]. apply IH. lia.
Qed.

Lemma paginate_loop_zero fuel request params page all_data sent :
  paginate_loop fuel request params (Some 0%Z) page all_data sent
  = paginate_loop fuel request params None page all_data sent.
Proof.
  revert page all_data sent.
  induction fuel as [|fuel IH]; intros page all_data sent; simpl; [done|].
  destruct (request (page_params params page)) as [response|msg]; [|done].
  destruct (dados response) as [[|x data]|]; [done| |done].
  by rewrite IH.
Qed.
End paginated_facts.

(** ** Dictionary merge and deletion *)

Lemma dget_ddel {V} (k k' : string) (d : list (string * V)) :
  dget k' (ddel k d) = if decide (k' = k) then None else dget k' d.
Proof.
  unfold ddel. induction d as [|[k0 v0] d IH]; simpl.
  - by destruct (decide (k' = k)).
  - rewrite filter_cons. simpl. destruct (decide (k0 ≠ k)) as [Hne|Heq]; simpl.
    + destruct (decide (k' = k0)) as [->|?]; [by rewrite decide_False|done].
    + apply dec_stable in Heq. subst k0. rewrite IH.
      destruct (decide (k' = k)); done.
Qed.

Lemma NoDup_dkeys_ddel {V} (k : string) (d : list (string * V)) :
  NoDup (dkeys d) → NoDup (dkeys (ddel k d)).
Proof.
  unfold ddel, dkeys. induction d as [|[k0 v0] d IH]; [done|].
  rewrite fmap_cons. intros [Hk Hnd]%NoDup_cons. rewrite filter_cons.
  case_decide; [|by auto]. rewrite fmap_cons. constructor; [|by auto].
  intros (kv & Hkv & Hin)%list_elem_of_fmap.
  apply list_elem_of_filter in Hin as [_ Hin]. apply Hk.
  apply list_elem_of_fmap. eauto.
Qed.

Lemma dget_dict_of_NoDup {K V} `{EqDecision K} (d : list (K * V)) (k : K) :
  NoDup (dkeys d) → dget k (dict_of d) = dget k d.
Proof.
  rewrite dget_dict_of. unfold dkeys.
  induction d as [|[k0 v0] d IH]; [done|].
  rewrite fmap_cons. intros [Hk Hnd]%NoDup_cons. rewrite filter_cons. simpl.
  destruct (decide (k0 = k)) as [->|Hne].
  - rewrite decide_True by done. rewrite filter_none; [done|].
    intros [k1 v1] Hin ?. simpl in *. subst k1. apply Hk.
    apply list_elem_of_fmap. by exists (k, v1).
  - rewrite decide_False by done. by apply IH.
Qed.

(** In a merge [{**d1, **d2}] the entries of [d2] win. *)
Lemma dget_dict_of_app {K V} `{EqDecision K} (d1 d2 : list (K * V)) (k : K) :
  dget k (dict_of (d1 ++ d2)) = dget k (dict_of d2) ∪ dget k (dict_of d1).
Proof.
  rewrite !dget_dict_of, filter_app, last_app.
  by destruct (last (filter (λ kv, kv.1 = k) d2)),
              (last (filter (λ kv, kv.1 = k) d1)).
Qed.

(** Without a page limit the loop ends only at a page that does not
    continue: it requests the pages [page .. page + k], of which all but
    the last have items and a next link and the last has not. *)
Lemma paginate_loop_unlimited {A} fuel
    (request : list (string * value) → api_result A) params page all_data
    sent d s :
  paginate_loop fuel request params None page all_data sent = Some (d, s) →
  ∃ k, s = sent ++ (page_params params <$> pages_from page (S k))
       ∧ Forall (λ p, continues request params p = true) (pages_from page k)
       ∧ continues request params (page + Z.of_nat k) = false.
Proof.
  revert page all_data sent.
  induction fuel as [|fuel IH]; intros page all_data sent; [done|].
  destruct (continues request params page) eqn:Hc.
  - change (S fuel) with (1 + fuel).
    rewrite (paginate_loop_continue fuel 1)
      by (repeat constructor; done).
    intros (k & -> & Hk & Hlast)%IH. exists (S k). split_and!.
    + by rewrite <- app_assoc.
    + by constructor.
    + by replace (page + Z.of_nat (S k))%Z with (page + 1 + Z.of_nat k)%Z by lia.
  - rewrite paginate_loop_last by done. intros [= <- <-]. exists 0.
    split_and!; [done|constructor|by rewrite Z.add_0_r].
Qed.

(** ** The requests of [get_votacoes] *)

Lemma dget_set_if_given key arg params k :
  dget k (set_if_given key arg params)
  = if decide (k = key) then arg ∪ dget k params else dget k params.
Proof.
  destruct arg as [v|]; simpl.
  - rewrite dget_dset.
    destruct (decide (k = key)); [by destruct (dget k params)|done].
  - destruct (decide (k = key)); by destruct (dget k params).
Qed.

Lemma dkeys_set_if_given key arg params k :
  k ∈ dkeys (set_if_given key arg params) → k = key ∨ k ∈ dkeys params.
Proof.
  destruct arg as [v|]; simpl; [|by right].
  intros Hk%elem_of_dkeys_dset. naive_solver.
Qed.

Lemma lookup_pages_from page k i p :
  pages_from page k !! i = Some p → p = (page + Z.of_nat i)%Z.
Proof.
  revert page i. induction k as [|k IH]; intros page [|i]; simpl; try done.
  - intros [= <-]. lia.
  - intros ->%IH. lia.
Qed.

(** The parameters of a page: the caller's, with [pagina] and [itens]. *)
Lemma dget_page_params params page k :
  dget k (page_params params page)
  = if decide (k = "itens") then Some (VInt 100)
    else if decide (k = "pagina") then Some (VInt page)
    else dget k (default [] params).
Proof.
  unfold page_params. rewrite !dget_dset.
  by destruct (decide (k = "itens")), (decide (k = "pagina")).
Qed.

Lemma dkeys_page_params params page k :
  k ∈ dkeys (page_params params page) →
  k = "itens" ∨ k = "pagina" ∨ k ∈ dkeys (default [] params).
Proof.
  unfold page_params. intros Hk%elem_of_dkeys_dset.
  destruct Hk as [->|Hk]; [by left|].
  apply elem_of_dkeys_dset in Hk. naive_solver.
Qed.

(** Passing [None] for an empty dictionary changes no request. *)
Lemma page_params_nonempty (params : list (string * value)) page :
  page_params (match params with [] => None | _ => Some params end) page
  = page_params (Some params) page.
Proof. by destruct params. Qed.

(** ** The rows of [get_votos_periodo] *)

Lemma enrich_voto_ok {A} (votacao voto deputado : list (string * json A)) i :
  deputy_of voto = Some deputado → dget "id" deputado = Some i →
  enrich_voto votacao voto
  = EOk (dict_of (votacao ++ ddel "deputado_" voto
                  ++ ddel "id" (dset "id_deputado" i deputado))).
Proof.
  unfold deputy_of, enrich_voto. intros Hd Hi.
  destruct (dget "deputado_" voto) as [[a|deputado']|]; try done.
  injection Hd as ->. by rewrite Hi.
Qed.

Lemma enrich_voto_EOk_inv {A} (votacao voto e : list (string * json A)) :
  enrich_voto votacao voto = EOk e →
  ∃ deputado i, deputy_of voto = Some deputado ∧ dget "id" deputado = Some i.
Proof.
  unfold deputy_of, enrich_voto.
  destruct (dget "deputado_" voto) as [[a|deputado]|]; try done.
  destruct (dget "id" deputado) as [i|] eqn:Hi; [|done]. eauto.
Qed.

Lemma enrich_votos_EOk {A} (votacao : list (string * json A)) votos es :
  enrich_votos votacao votos = EOk es ↔
  Forall2 (λ voto e, enrich_voto votacao voto = EOk e) votos es.
Proof.
  revert es. induction votos as [|voto votos IH]; intros es; simpl.
  - split; [intros [= <-]; constructor|by intros ->%Forall2_nil_inv_l].
  - destruct (enrich_voto votacao voto) as [e|err] eqn:He.
    + destruct (enrich_votos votacao votos) as [es'|err] eqn:Hes.
      * split.
        -- intros [= <-]. constructor; [done|]. by apply IH.
        -- intros (e' & es'' & He' & Hall & ->)%Forall2_cons_inv_l.
           simpl in He'. rewrite He in He'. injection He' as <-.
           apply IH in Hall. by injection Hall as ->.
      * split; [done|].
        intros (e' & es'' & _ & Hall & ->)%Forall2_cons_inv_l.
        by apply IH in Hall.
    + split; [done|]. intros (e' & es'' & He' & _)%Forall2_cons_inv_l.
      simpl in He'. by rewrite He in He'.
Qed.

(** Lookup in the merged row [{**votacao, **voto, **deputado}] after the
    renaming and the two deletions. *)
Lemma dget_enriched {A} (votacao voto deputado : list (string * json A)) i k :
  NoDup (dkeys votacao) → NoDup (dkeys voto) → NoDup (dkeys deputado) →
  dget k (dict_of (votacao ++ ddel "deputado_" voto
                   ++ ddel "id" (dset "id_deputado" i deputado)))
  = (if decide (k = "id") then None
     else if decide (k = "id_deputado") then Some i
     else dget k deputado)
    ∪ ((if decide (k = "deputado_") then None else dget k voto)
       ∪ dget k votacao).
Proof.
  intros Hvotacao Hvoto Hdep. rewrite !dget_dict_of_app.
  rewrite !dget_dict_of_NoDup
    by auto using NoDup_dkeys_ddel, NoDup_dkeys_dset.
  rewrite !dget_ddel, dget_dset.
  destruct (decide (k = "id")), (decide (k = "id_deputado")),
    (decide (k = "deputado_")), (dget k deputado), (dget k voto),
    (dget k votacao); reflexivity.
Qed.

(** * The claims *)

(** ** Membership policy *)

(** C1. Membership policy edge correctness: on a table with the required
    columns [FrenteNetwork.build_network] completes, and whenever it
    completes, for every two distinct legislator ids of the table an edge
    joins them if and only if their sets of titles intersect; the weight of
    the edge is the size of the intersection, and a pair sharing no title
    has no edge at all. *)
Theorem frente_edge_correctness (df : DataFrame) :
  (frente_columns ⊆ columns df →
   ∃ G, FrenteNetwork.build_network df nx_Graph = (Ok tt, G))
  ∧ ∀ G, FrenteNetwork.build_network df nx_Graph = (Ok tt, G) →
      ∀ a b, a ∈ ids df → b ∈ ids df → a ≠ b →
        (has_edge a b G = true ↔ frentes df a ∩ frentes df b ≠ ∅)
        ∧ (has_edge a b G = true →
           edge_weight G a b
           = Some (Z.of_nat (size (frentes df a ∩ frentes df b))))
        ∧ (frentes df a ∩ frentes df b = ∅ →
           has_edge a b G = false ∧ edge_weight G a b = None).
Proof.
  split.
  { intros Hc. eexists. by apply frente_build_run. }
  intros G ->%frente_build_inv a b Ha Hb Hne.
  destruct (frente_graph_spec df) as (Hwf & _ & _ & Hw).
  assert (Exists (λ p, same_pair p.1 p.2 a b)
            (combinations ((dep_pairs df "nome_deputado").*1))) as Hex.
  { apply Exists_same_pair_combinations; [done|..];
      apply elem_of_dep_ids; unfold ids in *;
      match goal with H : _ ∈ _ <$> _ |- _ =>
        apply list_elem_of_fmap in H; naive_solver end. }
  specialize (Hw a b). fold (shared df a b).
  rewrite !has_edge_weight by done. rewrite <- shared_pos.
  destruct (decide (0 < shared df a b ∧ _)) as [[Hpos _]|Hn] in Hw.
  - rewrite Hw. split_and!; [by eauto|done|].
    intros E. by apply shared_pos in Hpos.
  - assert (¬ 0 < shared df a b) by naive_solver.
    rewrite Hw. split_and!.
    + split; [by intros [? ?]|done].
    + by intros [? ?].
    + intros _. split; [|done]. apply not_true_is_false.
      rewrite has_edge_weight, Hw by done. by intros [? ?].
Qed.

(** The table of two legislators sharing one front: the edge has weight 1. *)
Lemma frente_edge_correctness_witness :
  has_edge (VInt 1) (VInt 2) (frente_graph ex_frentes nx_Graph) = true
  ∧ edge_weight (frente_graph ex_frentes nx_Graph) (VInt 1) (VInt 2) = Some 1%Z.
Proof.
  assert (FrenteNetwork.build_network ex_frentes nx_Graph
          = (Ok tt, frente_graph ex_frentes nx_Graph)) as Hrun
    by (vm_compute; reflexivity).
  assert (VInt 1 ∈ ids ex_frentes) as H1
    by (apply (bool_decide_unpack _); vm_compute; reflexivity).
  assert (VInt 2 ∈ ids ex_frentes) as H2
    by (apply (bool_decide_unpack _); vm_compute; reflexivity).
  assert (VInt 1 ≠ VInt 2) as Hne by discriminate.
  destruct (proj2 (frente_edge_correctness ex_frentes) _ Hrun _ _ H1 H2 Hne)
    as (Hiff & Hweight & _).
  assert (has_edge (VInt 1) (VInt 2) (frente_graph ex_frentes nx_Graph) = true)
    as He by (vm_compute; reflexivity).
  split; [exact He|].
  rewrite (Hweight He). vm_compute. reflexivity.
Defined.

(** ** Agreement policy *)

(** C2. Agreement policy edge correctness: on a table with at most one row
    per (legislator, ballot) pair, [VotingNetwork.build_network] completes
    when the required columns are present, and whenever it completes two
    distinct legislators are joined by an edge if and only if some ballot has
    a row of each; the weight of the edge is the number of common ballots on
    which their votes are equal minus the number on which they differ.  The
    existence of the edge does not depend on that number, so an edge with
    tally zero is still an edge. *)
Theorem voting_edge_correctness (df : DataFrame) :
  unique_votes df →
  (voting_columns ⊆ columns df →
   ∃ G, VotingNetwork.build_network df nx_Graph = (Ok tt, G))
  ∧ ∀ G, VotingNetwork.build_network df nx_Graph = (Ok tt, G) →
      ∀ a b, a ≠ b →
        (has_edge a b G = true ↔ ∃ k, covoted df a b k)
        ∧ (has_edge a b G = true →
           edge_weight G a b
           = Some (Z.of_nat (agreements df a b)
                   - Z.of_nat (disagreements df a b))%Z).
Proof.
  intros Hu. split.
  { intros Hc. eexists. by apply voting_build_run. }
  intros G ->%voting_build_inv a b Hne.
  destruct (voting_graph_spec df) as (Hwf & _ & _ & _ & Hw).
  specialize (Hw a b Hne). rewrite !has_edge_weight, Hw by done.
  destruct (decide (filter (covoted df a b) (ballots df) = [])) as [E|E].
  - apply filter_covoted_nil in E. split; [|by intros [? ?]].
    split; [by intros [? ?]|done].
  - apply filter_covoted_cons in E. split.
    + split; [done|by eauto].
    + intros _. by rewrite tally_counts.
Qed.

(** Two legislators who agree once and disagree once: the edge exists and
    has weight 0. *)
Lemma voting_edge_correctness_witness :
  has_edge (VInt 1) (VInt 2) (voting_graph ex_cancel nx_Graph) = true
  ∧ edge_weight (voting_graph ex_cancel nx_Graph) (VInt 1) (VInt 2) = Some 0%Z.
Proof.
  assert (unique_votes ex_cancel) as Hu.
  { intros k u. unfold votes_in. rewrite length_fmap.
    unfold ex_cancel. cbn [rows]. rewrite !filter_cons, filter_nil.
    repeat case_decide; simpl; try lia;
      repeat match goal with
             | H : _ ∧ _ |- _ => destruct H
             | H : voting_row _ _ _ _ _ _ _ = _ |- _ => vm_compute in H
             end; congruence. }
  assert (VotingNetwork.build_network ex_cancel nx_Graph
          = (Ok tt, voting_graph ex_cancel nx_Graph)) as Hrun
    by (vm_compute; reflexivity).
  assert (VInt 1 ≠ VInt 2) as Hne by discriminate.
  destruct (proj2 (voting_edge_correctness ex_cancel Hu) _ Hrun _ _ Hne)
    as (Hiff & Hweight).
  assert (has_edge (VInt 1) (VInt 2) (voting_graph ex_cancel nx_Graph) = true)
    as He by (vm_compute; reflexivity).
  split; [exact He|].
  rewrite (Hweight He). vm_compute. reflexivity.
Defined.

(** C9. Duplicate votes in one ballot: [VotingNetwork.build_network] raises
    nothing on a table with several rows for one (legislator, ballot) pair
    (it completes whenever the required columns are present); the weight of
    an edge is the signed tally of the legislators' last votes over the
    ballots in which both have a row; and two tables whose last votes
    coincide yield the same edges and weights, so that the earlier rows of a
    pair contribute nothing. *)
Theorem duplicate_votes_last_wins (df : DataFrame) :
  (voting_columns ⊆ columns df →
   ∃ G, VotingNetwork.build_network df nx_Graph = (Ok tt, G))
  ∧ (∀ G, VotingNetwork.build_network df nx_Graph = (Ok tt, G) →
       ∀ a b, a ≠ b →
         ((∃ k, covoted df a b k) → edge_weight G a b = Some (tally df a b))
         ∧ ((¬ ∃ k, covoted df a b k) → edge_weight G a b = None))
  ∧ (∀ df' G G',
       (∀ k u, last_vote df k u = last_vote df' k u) →
       VotingNetwork.build_network df nx_Graph = (Ok tt, G) →
       VotingNetwork.build_network df' nx_Graph = (Ok tt, G') →
       ∀ a b, a ≠ b → edge_weight G a b = edge_weight G' a b).
Proof.
  split_and!.
  - intros Hc. eexists. by apply voting_build_run.
  - intros G ->%voting_build_inv a b Hne.
    destruct (voting_graph_spec df) as (_ & _ & _ & _ & Hw).
    rewrite (Hw a b Hne). split.
    + intros H. rewrite decide_False; [done|].
      rewrite filter_covoted_nil. naive_solver.
    + intros H. rewrite decide_True; [done|]. by apply filter_covoted_nil.
  - intros df' G G' Hl ->%voting_build_inv ->%voting_build_inv a b Hne.
    destruct (voting_graph_spec df) as (_ & _ & _ & _ & Hw).
    destruct (voting_graph_spec df') as (_ & _ & _ & _ & Hw').
    rewrite (Hw a b Hne), (Hw' a b Hne).
    destruct (tally_last_vote df df' a b Hl) as [-> Hnil].
    destruct (decide (filter (covoted df a b) (ballots df) = [])) as [E|E].
    + by rewrite decide_True by by apply Hnil.
    + by rewrite decide_False by by rewrite <- Hnil.
Qed.

(** Legislator 1 votes twice in one ballot: the last vote counts, and
    dropping the earlier row changes nothing. *)
Lemma duplicate_votes_last_wins_witness :
  edge_weight (voting_graph ex_revote nx_Graph) (VInt 1) (VInt 2) = Some 1%Z
  ∧ edge_weight (voting_graph ex_revote nx_Graph) (VInt 1) (VInt 2)
    = edge_weight (voting_graph ex_revote_last nx_Graph) (VInt 1) (VInt 2).
Proof.
  assert (VotingNetwork.build_network ex_revote nx_Graph
          = (Ok tt, voting_graph ex_revote nx_Graph)) as Hrun
    by (vm_compute; reflexivity).
  assert (VotingNetwork.build_network ex_revote_last nx_Graph
          = (Ok tt, voting_graph ex_revote_last nx_Graph)) as Hrun'
    by (vm_compute; reflexivity).
  assert (VInt 1 ≠ VInt 2) as Hne by discriminate.
  assert (∀ k u, last_vote ex_revote k u = last_vote ex_revote_last k u) as Hl.
  { intros k u.
    apply (last_vote_drop_earlier _ _ _ (voting_row 1 "A" "PT" "SP" "b1" "Nao")).
    - apply elem_of_cons. right. apply elem_of_cons. by left.
    - vm_compute. reflexivity.
    - vm_compute. reflexivity. }
  destruct (duplicate_votes_last_wins ex_revote) as (_ & Hw & Heq).
  split.
  - destruct (Hw _ Hrun _ _ Hne) as [Hsome _]. rewrite Hsome.
    + vm_compute. reflexivity.
    + exists (VStr "b1"). split; vm_compute; discriminate.
  - exact (Heq _ _ _ Hl Hrun Hrun' _ _ Hne).
Defined.

(** ** Both policies *)

(** C3. Node completeness: for both policies, a completed [build_network]
    leaves a graph whose nodes are exactly the legislator ids of the table,
    each once.  The build completes on every table with the policy's
    columns. *)
Theorem node_completeness (df : DataFrame) :
  ((frente_columns ⊆ columns df →
    ∃ G, FrenteNetwork.build_network df nx_Graph = (Ok tt, G))
   ∧ ∀ G, FrenteNetwork.build_network df nx_Graph = (Ok tt, G) →
       NoDup (nodes G) ∧ ∀ k, k ∈ nodes G ↔ k ∈ ids df)
  ∧ ((voting_columns ⊆ columns df →
      ∃ G, VotingNetwork.build_network df nx_Graph = (Ok tt, G))
     ∧ ∀ G, VotingNetwork.build_network df nx_Graph = (Ok tt, G) →
         NoDup (nodes G) ∧ ∀ k, k ∈ nodes G ↔ k ∈ ids df).
Proof.
  split; split.
  - intros Hc. eexists. by apply frente_build_run.
  - intros G ->%frente_build_inv.
    by destruct (frente_graph_spec df) as (_ & Hnd & Hk & _).
  - intros Hc. eexists. by apply voting_build_run.
  - intros G ->%voting_build_inv.
    by destruct (voting_graph_spec df) as (_ & Hnd & Hk & _).
Qed.

(** The nodes of the graphs built from two example tables. *)
Lemma node_completeness_witness :
  nodes (frente_graph ex_frentes nx_Graph) = [VInt 1; VInt 2]
  ∧ (VInt 2 ∈ nodes (frente_graph ex_frentes nx_Graph) ↔ VInt 2 ∈ ids ex_frentes)
  ∧ (VInt 3 ∈ nodes (voting_graph ex_three nx_Graph) ↔ VInt 3 ∈ ids ex_three).
Proof.
  assert (FrenteNetwork.build_network ex_frentes nx_Graph
          = (Ok tt, frente_graph ex_frentes nx_Graph)) as Hf
    by (vm_compute; reflexivity).
  assert (VotingNetwork.build_network ex_three nx_Graph
          = (Ok tt, voting_graph ex_three nx_Graph)) as Hv
    by (vm_compute; reflexivity).
  split; [vm_compute; reflexivity|]. split.
  - exact (proj2 (proj2 (proj1 (node_completeness ex_frentes)) _ Hf) (VInt 2)).
  - exact (proj2 (proj2 (proj2 (node_completeness ex_three)) _ Hv) (VInt 3)).
Defined.

(** C7. Empty input: on a table with zero rows and the required columns,
    [build_network] of either policy completes and leaves the graph without
    nodes and without edges. *)
Theorem empty_input (df : DataFrame) :
  rows df = [] →
  (frente_columns ⊆ columns df →
   ∃ G, FrenteNetwork.build_network df nx_Graph = (Ok tt, G)
        ∧ nodes G = [] ∧ edges G = [])
  ∧ (voting_columns ⊆ columns df →
     ∃ G, VotingNetwork.build_network df nx_Graph = (Ok tt, G)
          ∧ nodes G = [] ∧ edges G = []).
Proof.
  intros Hrows. split; intros Hc.
  - exists nx_Graph. split; [|done]. rewrite frente_build_run by done.
    unfold frente_graph, nodes_of, dep_pairs. by rewrite Hrows.
  - exists nx_Graph. split; [|done]. rewrite voting_build_run by done.
    unfold voting_graph, nodes_of, dep_pairs, ballots. by rewrite Hrows.
Qed.

(** The two tables with all columns and no row. *)
Lemma empty_input_witness :
  (∃ G, FrenteNetwork.build_network ex_empty_frentes nx_Graph = (Ok tt, G)
        ∧ nodes G = [] ∧ edges G = [])
  ∧ (∃ G, VotingNetwork.build_network ex_empty_votes nx_Graph = (Ok tt, G)
          ∧ nodes G = [] ∧ edges G = []).
Proof.
  split.
  - apply (proj1 (empty_input ex_empty_frentes eq_refl)). done.
  - apply (proj2 (empty_input ex_empty_votes eq_refl)). done.
Defined.

(** C5. No self-loop: the claim fails for the membership policy.  On a table
    in which one legislator id occurs under two names, the list of
    legislators holds that id twice and [FrenteNetwork.build_network] joins
    the legislator to itself; the graph then has the single edge (1, 1). *)
Theorem frente_self_loop :
  FrenteNetwork.build_network ex_two_names nx_Graph
  = (Ok tt, frente_graph ex_two_names nx_Graph)
  ∧ ids ex_two_names = [VInt 1; VInt 1]
  ∧ has_edge (VInt 1) (VInt 1) (frente_graph ex_two_names nx_Graph) = true
  ∧ edges (frente_graph ex_two_names nx_Graph) = [(VInt 1, VInt 1, 0)].
Proof. split_and!; vm_compute; reflexivity. Qed.

(** C8. First-row node attributes: the claim fails for the name.  On a table
    in which one legislator id occurs under two names, the node of that id
    carries party and state of its first row but the name of its last
    distinct (id, name) pair; this holds for both policies. *)
Theorem node_name_from_last_pair :
  (nome <$> ((λ r, {| nome := r "nome_deputado";
                      partido := r "siglaPartido_deputado";
                      uf := r "siglaUf_deputado" |})
             <$> first_row ex_two_names (VInt 1)) = Some (VStr "A")
   ∧ _node (frente_graph ex_two_names nx_Graph)
     = [(VInt 1, Some {| nome := VStr "B"; partido := VStr "PT"; uf := VStr "SP" |})])
  ∧ (FrenteNetwork.build_network ex_two_names nx_Graph
     = (Ok tt, frente_graph ex_two_names nx_Graph))
  ∧ (VotingNetwork.build_network ex_two_names_votes nx_Graph
     = (Ok tt, voting_graph ex_two_names_votes nx_Graph))
  ∧ _node (voting_graph ex_two_names_votes nx_Graph)
    = [(VInt 1, Some {| nome := VStr "B"; partido := VStr "PT"; uf := VStr "SP" |})].
Proof. split_and!; vm_compute; reflexivity. Qed.

(** ** Sorted edges *)

(** C4, as stated, fails: in the graph built from [ex_three] the three edges
    have the same weight, and the sorted view lists the edge created second
    before the edge created first. *)
Lemma sorted_edges_not_by_creation :
  VotingNetwork.build_network ex_three nx_Graph
  = (Ok tt, voting_graph ex_three nx_Graph)
  ∧ ∃ out,
      BaseNetwork.get_sorted_edges (voting_graph ex_three nx_Graph)
      = (Ok out, voting_graph ex_three nx_Graph)
      ∧ ¬ ties_by_creation (voting_graph ex_three nx_Graph) out.
Proof.
  split; [vm_compute; reflexivity|].
  exists [(VInt 1, VInt 2, 1); (VInt 1, VInt 3, 2); (VInt 2, VInt 3, 0)].
  split; [vm_compute; reflexivity|].
  intros H.
  specialize (H 0 2 (VInt 1, VInt 2, 1) (VInt 2, VInt 3, 0)).
  simpl in H. apply (Nat.nlt_0_r 1), H; [lia|done|done|].
  vm_compute. reflexivity.
Qed.

(** C4, amended. [get_sorted_edges] returns the edges of the graph, each as
    often as [G.edges] yields it, in non-decreasing order of weight; edges
    of equal weight keep the order in which [G.edges] yields them; the graph
    is unchanged and a second call returns the same list. *)
Theorem sorted_edges_view (G : Graph) :
  ∃ out,
    BaseNetwork.get_sorted_edges G = (Ok out, G)
    ∧ out ≡ₚ edges G
    ∧ StronglySorted (λ x y, (weight_at G x.2 ≤ weight_at G y.2)%Z) out
    ∧ (∀ w, filter (λ x, weight_at G x.2 = w) out
            = filter (λ x, weight_at G x.2 = w) (edges G))
    ∧ (a ← BaseNetwork.get_sorted_edges;
       b ← BaseNetwork.get_sorted_edges;
       mret (a, b)) G = (Ok (out, out), G).
Proof.
  exists (sorted (λ x, weight_at G x.2) (edges G)). split_and!.
  - done.
  - apply sorted_perm.
  - apply (sorted_key_sorted (λ x, weight_at G x.2)).
  - intros w. apply (sorted_stable (λ x, weight_at G x.2)).
  - done.
Qed.

(** ** Missing columns *)

(** C6, as stated, fails: the table [ex_no_party] has no party column, which
    the membership policy requires, and [build_network] completes on it
    without raising anything, because the table has no row and the party
    column is only read inside the node loop. *)
Lemma missing_column_no_failure :
  "siglaPartido_deputado" ∈ frente_columns
  ∧ ("siglaPartido_deputado" ∉ columns ex_no_party)
  ∧ FrenteNetwork.build_network ex_no_party nx_Graph = (Ok tt, nx_Graph).
Proof.
  split_and!.
  - apply (bool_decide_unpack _). vm_compute. exact I.
  - apply (bool_decide_unpack _). vm_compute. exact I.
  - vm_compute. reflexivity.
Qed.

(** C6, amended.  When the table lacks a column the policy reads, and either
    has at least one row or lacks one of the columns read outside the node
    and ballot loops (the id and name columns, and [titulo] or [id]),
    [build_network] fails by raising pandas' [KeyError], whose argument is
    one string that contains the name of a column the policy requires and
    the table lacks.  On a table with no row that has the id and name
    columns and [titulo] (membership policy) or [id] (agreement policy),
    the other columns are never read: [build_network] raises nothing and
    leaves the graph as it was. *)
Theorem missing_column_raises (df : DataFrame) (G : Graph) :
  (∀ c, c ∈ frente_columns → c ∉ columns df →
     rows df ≠ [] ∨ c ∈ ["id_deputado"; "nome_deputado"; "titulo"] →
     ∃ msg m G',
       FrenteNetwork.build_network df G = (Raise (KeyError [VStr msg]), G')
       ∧ m ∈ frente_columns ∧ (m ∉ columns df) ∧ mentions msg m)
  ∧ (∀ c, c ∈ voting_columns → c ∉ columns df →
       rows df ≠ [] ∨ c ∈ ["id_deputado"; "nome"; "id"] →
       ∃ msg m G',
         VotingNetwork.build_network df G = (Raise (KeyError [VStr msg]), G')
         ∧ m ∈ voting_columns ∧ (m ∉ columns df) ∧ mentions msg m)
  ∧ (rows df = [] →
     ["id_deputado"; "nome_deputado"; "titulo"] ⊆ columns df →
     FrenteNetwork.build_network df G = (Ok tt, G))
  ∧ (rows df = [] →
     ["id_deputado"; "nome"; "id"] ⊆ columns df →
     VotingNetwork.build_network df G = (Ok tt, G)).
Proof.
  split_and!.
  - intros c. apply frente_missing_column.
  - intros c. apply voting_missing_column.
  - intros Hr Hc. apply frente_build_empty; [done|apply Hc; set_solver..].
  - intros Hr Hc. apply voting_build_empty; [done|apply Hc; set_solver..].
Qed.

(** A table with one row and no party column, and the table without rows
    and without party column. *)
Lemma missing_column_raises_witness :
  (∃ msg m G',
     FrenteNetwork.build_network ex_no_party_row nx_Graph
     = (Raise (KeyError [VStr msg]), G')
     ∧ m ∈ frente_columns ∧ (m ∉ columns ex_no_party_row) ∧ mentions msg m)
  ∧ FrenteNetwork.build_network ex_no_party nx_Graph = (Ok tt, nx_Graph).
Proof.
  split.
  - apply (proj1 (missing_column_raises ex_no_party_row nx_Graph)
             "siglaPartido_deputado").
    + apply (bool_decide_unpack _). vm_compute. exact I.
    + apply (bool_decide_unpack _). vm_compute. exact I.
    + left. discriminate.
  - apply (proj1 (proj2 (proj2 (missing_column_raises ex_no_party nx_Graph)))).
    + reflexivity.
    + apply (bool_decide_unpack _). vm_compute. exact I.
Defined.

(** ** Building twice *)

(** C10. The membership build is idempotent: when a first call of
    [FrenteNetwork.build_network] on a fresh instance completes, a second
    call on the same instance completes too and leaves the graph exactly as
    the first call left it: the same nodes with the same attributes in the
    same order, the same adjacency and the same edge weights.  The first
    call completes on every table with the required columns. *)
Theorem frente_build_idempotent (df : DataFrame) :
  (frente_columns ⊆ columns df →
   ∃ G, FrenteNetwork.build_network df nx_Graph = (Ok tt, G))
  ∧ ∀ G, FrenteNetwork.build_network df nx_Graph = (Ok tt, G) →
      FrenteNetwork.build_network df G = (Ok tt, G)
      ∧ (FrenteNetwork.build_network df;; FrenteNetwork.build_network df) nx_Graph
        = (Ok tt, G).
Proof.
  split.
  { intros Hc. eexists. by apply frente_build_run. }
  intros G HG.
  assert (FrenteNetwork.build_network df G = (Ok tt, G)) as H2.
  { rewrite (frente_build_Ok_any df nx_Graph G G HG).
    apply frente_build_inv in HG as ->. by rewrite frente_graph_again. }
  split; [done|]. by erewrite bind_Ok by exact HG.
Qed.

(** Building twice from the table of two legislators. *)
Lemma frente_build_idempotent_witness :
  (FrenteNetwork.build_network ex_frentes;; FrenteNetwork.build_network ex_frentes)
    nx_Graph
  = (Ok tt, frente_graph ex_frentes nx_Graph).
Proof.
  assert (FrenteNetwork.build_network ex_frentes nx_Graph
          = (Ok tt, frente_graph ex_frentes nx_Graph)) as Hrun
    by (vm_compute; reflexivity).
  exact (proj2 (proj2 (frente_build_idempotent ex_frentes) _ Hrun)).
Defined.

(** * Further properties of the builders *)

(** X1. Symmetry: in a graph built by either policy, an edge and its weight
    are the same in both directions, and both endpoints of every edge are
    legislator ids of the table. *)
Theorem built_graph_symmetric (df : DataFrame) (G : Graph) (a b : value) :
  built df G →
  has_edge a b G = has_edge b a G
  ∧ edge_weight G a b = edge_weight G b a
  ∧ (has_edge a b G = true → a ∈ ids df ∧ b ∈ ids df).
Proof.
  intros (Hwf & _ & _ & Hk)%built_spec. split_and!.
  - by apply has_edge_sym.
  - by apply edge_weight_sym.
  - intros He. split; apply Hk, elem_of_nodes.
    + apply (wf_node _ Hwf a b). by apply has_edge_true.
    + apply (wf_node _ Hwf b a). apply has_edge_true. by rewrite has_edge_sym.
Qed.

(** The table of two legislators sharing one front. *)
Lemma built_graph_symmetric_witness :
  has_edge (VInt 1) (VInt 2) (frente_graph ex_frentes nx_Graph)
  = has_edge (VInt 2) (VInt 1) (frente_graph ex_frentes nx_Graph)
  ∧ edge_weight (frente_graph ex_frentes nx_Graph) (VInt 1) (VInt 2)
    = edge_weight (frente_graph ex_frentes nx_Graph) (VInt 2) (VInt 1)
  ∧ (has_edge (VInt 1) (VInt 2) (frente_graph ex_frentes nx_Graph) = true →
     VInt 1 ∈ ids ex_frentes ∧ VInt 2 ∈ ids ex_frentes).
Proof.
  apply (built_graph_symmetric ex_frentes). left. vm_compute. reflexivity.
Defined.

(** X2. The agreement policy never joins a legislator to itself: on every
    table, the built graph has no self-loop, and every triple of its edge
    view has two different endpoints. *)
Theorem voting_never_self_loop (df : DataFrame) (G : Graph) :
  VotingNetwork.build_network df nx_Graph = (Ok tt, G) →
  (∀ a, has_edge a a G = false)
  ∧ ∀ u v r, (u, v, r) ∈ edges G → u ≠ v.
Proof.
  intros HG.
  assert (∀ a, has_edge a a G = false) as Hself.
  { intros a. by eapply voting_no_self_loop. }
  split; [done|]. intros u v r Huv ->.
  destruct (built_spec df G) as (_ & Hok & _); [by right|].
  apply edges_sound in Huv; [|done].
  specialize (Hself v). rewrite has_edge_ref, Huv in Hself.
  by rewrite bool_decide_eq_false in Hself; destruct Hself.
Qed.

(** Three legislators voting in one ballot. *)
Lemma voting_never_self_loop_witness :
  (∀ a, has_edge a a (voting_graph ex_three nx_Graph) = false)
  ∧ ∀ u v r, (u, v, r) ∈ edges (voting_graph ex_three nx_Graph) → u ≠ v.
Proof.
  apply (voting_never_self_loop ex_three). vm_compute. reflexivity.
Defined.

(** X3. Self-loops of the membership policy: the built graph joins a
    legislator to itself exactly when its id occurs in the table under at
    least two different names; the weight of that loop is the number of the
    legislator's titles. *)
Theorem frente_self_loop_iff (df : DataFrame) (G : Graph) (a : value) :
  FrenteNetwork.build_network df nx_Graph = (Ok tt, G) →
  (has_edge a a G = true ↔ 2 ≤ length (names_of df "nome_deputado" a))
  ∧ (has_edge a a G = true →
     edge_weight G a a = Some (Z.of_nat (size (frentes df a)))).
Proof.
  intros ->%frente_build_inv.
  destruct (frente_graph_spec df) as (Hwf & _).
  rewrite has_edge_weight, frente_weight, decide_True by done.
  destruct (decide (2 ≤ length (names_of df "nome_deputado" a))).
  - split; [by eauto|done].
  - split; [|by intros [? ?]]. split; [by intros [? ?]|done].
Qed.

(** Legislator 1 under the names A and B, with one title. *)
Lemma frente_self_loop_iff_witness :
  (has_edge (VInt 1) (VInt 1) (frente_graph ex_two_names nx_Graph) = true
   ↔ 2 ≤ length (names_of ex_two_names "nome_deputado" (VInt 1)))
  ∧ (has_edge (VInt 1) (VInt 1) (frente_graph ex_two_names nx_Graph) = true →
     edge_weight (frente_graph ex_two_names nx_Graph) (VInt 1) (VInt 1)
     = Some (Z.of_nat (size (frentes ex_two_names (VInt 1))))).
Proof.
  apply (frente_self_loop_iff ex_two_names). vm_compute. reflexivity.
Defined.

(** X4. Weights of the membership policy: every edge of the built graph,
    loops included, has a weight of at least 1 that does not exceed the
    number of titles of either endpoint; no edge of weight zero exists. *)
Theorem frente_weight_bounds (df : DataFrame) (G : Graph) (a b : value) (w : Z) :
  FrenteNetwork.build_network df nx_Graph = (Ok tt, G) →
  edge_weight G a b = Some w →
  (1 ≤ w)%Z
  ∧ (w ≤ Z.of_nat (size (frentes df a)))%Z
  ∧ (w ≤ Z.of_nat (size (frentes df b)))%Z.
Proof.
  intros ->%frente_build_inv. rewrite frente_weight.
  destruct (decide (a = b)) as [<-|Hne].
  - case_decide as H2; [|done]. intros [= <-].
    assert (0 < shared df a a) as Hpos.
    { apply frentes_nonempty, (names_of_ids df "nome_deputado").
      intros E. rewrite E in H2. simpl in H2. lia. }
    rewrite shared_self in Hpos. lia.
  - case_decide as Hpos; [|done]. intros [= <-].
    assert (shared df a b ≤ size (frentes df a)) by
      (apply subseteq_size; set_solver).
    assert (shared df a b ≤ size (frentes df b)) by
      (apply subseteq_size; set_solver).
    lia.
Qed.

(** Two legislators sharing one front out of two each. *)
Lemma frente_weight_bounds_witness :
  (1 ≤ 1)%Z
  ∧ (1 ≤ Z.of_nat (size (frentes ex_frentes (VInt 1))))%Z
  ∧ (1 ≤ Z.of_nat (size (frentes ex_frentes (VInt 2))))%Z.
Proof.
  apply (frente_weight_bounds ex_frentes (frente_graph ex_frentes nx_Graph)).
  - vm_compute. reflexivity.
  - vm_compute. reflexivity.
Defined.

(** X6. The sorted edge view of a built graph lists every edge of the graph
    exactly once: no edge attribute dict occurs twice in it, every triple is
    an edge, and every edge occurs in one of its two orientations. *)
Theorem sorted_edges_each_once (df : DataFrame) (G : Graph) :
  built df G →
  ∃ out, BaseNetwork.get_sorted_edges G = (Ok out, G)
         ∧ NoDup (out.*2)
         ∧ (∀ u v r, (u, v, r) ∈ out → edge_ref G u v = Some r)
         ∧ ∀ u v, has_edge u v G = true ↔
                  ∃ r, (u, v, r) ∈ out ∨ (v, u, r) ∈ out.
Proof.
  intros HG. destruct (built_spec df G HG) as (Hwf & Hok & _).
  destruct (built_edges_spec G Hwf Hok) as (Hnd & Hsound & Hiff).
  exists (sorted (λ x, weight_at G x.2) (edges G)). split_and!.
  - done.
  - by rewrite sorted_perm.
  - intros u v r. rewrite sorted_perm. apply Hsound.
  - intros u v. rewrite Hiff. by setoid_rewrite sorted_perm.
Qed.

(** The three edges of [ex_three]. *)
Lemma sorted_edges_each_once_witness :
  ∃ out, BaseNetwork.get_sorted_edges (voting_graph ex_three nx_Graph)
         = (Ok out, voting_graph ex_three nx_Graph)
         ∧ NoDup (out.*2)
         ∧ (∀ u v r, (u, v, r) ∈ out →
              edge_ref (voting_graph ex_three nx_Graph) u v = Some r)
         ∧ ∀ u v, has_edge u v (voting_graph ex_three nx_Graph) = true ↔
                  ∃ r, (u, v, r) ∈ out ∨ (v, u, r) ∈ out.
Proof.
  apply (sorted_edges_each_once ex_three). right. vm_compute. reflexivity.
Defined.

(** X5. Weights of the agreement policy: the weight of an edge between two
    different legislators lies between minus and plus the number of ballots
    in which both have a row, has the parity of that number, and that number
    is at least 1. *)
Theorem voting_weight_bounds (df : DataFrame) (G : Graph) (a b : value) (w : Z) :
  VotingNetwork.build_network df nx_Graph = (Ok tt, G) →
  a ≠ b → edge_weight G a b = Some w →
  (Z.abs w ≤ Z.of_nat (common_ballots df a b))%Z
  ∧ Z.Even (w + Z.of_nat (common_ballots df a b))
  ∧ 1 ≤ common_ballots df a b.
Proof.
  intros ->%voting_build_inv Hne.
  destruct (voting_graph_spec df) as (_ & _ & _ & _ & Hw).
  rewrite (Hw a b Hne). case_decide as E; [done|]. intros [= <-].
  destruct (tally_agreements df a b) as (g & Hg & ->).
  pose proof (common_ballots_pos df a b E).
  split_and!; [lia| |lia]. exists (Z.of_nat g). lia.
Qed.

(** One agreement and one disagreement: weight 0 with two common ballots. *)
Lemma voting_weight_bounds_witness :
  (Z.abs 0 ≤ Z.of_nat (common_ballots ex_cancel (VInt 1) (VInt 2)))%Z
  ∧ Z.Even (0 + Z.of_nat (common_ballots ex_cancel (VInt 1) (VInt 2)))
  ∧ 1 ≤ common_ballots ex_cancel (VInt 1) (VInt 2).
Proof.
  apply (voting_weight_bounds ex_cancel (voting_graph ex_cancel nx_Graph)).
  - vm_compute. reflexivity.
  - discriminate.
  - vm_compute. reflexivity.
Defined.

(** X7. Node attributes: for both policies, the node of a legislator carries
    the party and state of the first row of its id, on every table; its name
    is one of the names of that id, and the name of the first row when every
    id of the table has one name. *)
Theorem node_attributes (df : DataFrame) (G : Graph) (k : value)
    (r : string → value) :
  first_row df k = Some r →
  (FrenteNetwork.build_network df nx_Graph = (Ok tt, G) →
   ∃ n, dget k (_node G)
        = Some (Some {| nome := n; partido := r "siglaPartido_deputado";
                        uf := r "siglaUf_deputado" |})
        ∧ n ∈ names_of df "nome_deputado" k
        ∧ (unique_names df "nome_deputado" → n = r "nome_deputado"))
  ∧ (VotingNetwork.build_network df nx_Graph = (Ok tt, G) →
     ∃ n, dget k (_node G)
          = Some (Some {| nome := n; partido := r "siglaPartido";
                          uf := r "siglaUf" |})
          ∧ n ∈ names_of df "nome" k
          ∧ (unique_names df "nome" → n = r "nome")).
Proof.
  intros Hr. split.
  - intros ->%frente_build_inv. rewrite node_frente_graph.
    destruct (nodes_of_attrs df "nome_deputado" "siglaPartido_deputado"
                "siglaUf_deputado" k r Hr) as (n & Hn & (r' & Hr' & Hk & Hnn) & Hu).
    exists n. split_and!; [done| |done].
    apply elem_of_names_of, elem_of_dep_pairs. eauto.
  - intros ->%voting_build_inv. rewrite node_voting_graph.
    destruct (nodes_of_attrs df "nome" "siglaPartido" "siglaUf" k r Hr)
      as (n & Hn & (r' & Hr' & Hk & Hnn) & Hu).
    exists n. split_and!; [done| |done].
    apply elem_of_names_of, elem_of_dep_pairs. eauto.
Qed.

(** Legislator 2 of the table of two legislators. *)
Lemma node_attributes_witness :
  ∃ n, dget (VInt 2) (_node (frente_graph ex_frentes nx_Graph))
       = Some (Some {| nome := n; partido := VStr "PSDB"; uf := VStr "RJ" |})
       ∧ n ∈ names_of ex_frentes "nome_deputado" (VInt 2)
       ∧ (unique_names ex_frentes "nome_deputado" → n = VStr "B").
Proof.
  apply (proj1 (node_attributes ex_frentes (frente_graph ex_frentes nx_Graph)
                  (VInt 2) (frente_row 2 "B" "PSDB" "RJ" "FrenteY") eq_refl)).
  vm_compute. reflexivity.
Defined.

(** X8. A failed build is not undone: when the table has the id, name, party
    and state columns but lacks [titulo] (membership policy) or [id]
    (agreement policy), [build_network] raises [KeyError] after the node
    loop has run, with the argument pandas gives it: the message [Column
    not found: titulo] from the selection on the groups, the label [id]
    from [groupby].  The instance is left with all legislators as nodes and
    no edge. *)
Theorem failed_build_leaves_nodes (df : DataFrame) :
  ("id_deputado" ∈ columns df → "nome_deputado" ∈ columns df →
   "siglaPartido_deputado" ∈ columns df → "siglaUf_deputado" ∈ columns df →
   "titulo" ∉ columns df →
   ∃ G, FrenteNetwork.build_network df nx_Graph
        = (Raise (KeyError [VStr "Column not found: titulo"]), G)
        ∧ NoDup (nodes G) ∧ (∀ k, k ∈ nodes G ↔ k ∈ ids df)
        ∧ ∀ a b, has_edge a b G = false)
  ∧ ("id_deputado" ∈ columns df → "nome" ∈ columns df →
     "siglaPartido" ∈ columns df → "siglaUf" ∈ columns df →
     "id" ∉ columns df →
     ∃ G, VotingNetwork.build_network df nx_Graph
          = (Raise (KeyError [VStr "id"]), G)
          ∧ NoDup (nodes G) ∧ (∀ k, k ∈ nodes G ↔ k ∈ ids df)
          ∧ ∀ a b, has_edge a b G = false).
Proof.
  split; intros Hid Hn Hp Hu Hmiss; eexists.
  - rewrite frente_raise_titulo by done.
    destruct (nodes_of_empty df "nome_deputado" "siglaPartido_deputado"
                "siglaUf_deputado") as (_ & Hnd & Hk & Hno).
    split_and!; [done..|]. intros a b. by apply edgeless_has_edge.
  - rewrite voting_raise_id by done.
    destruct (nodes_of_empty df "nome" "siglaPartido" "siglaUf")
      as (_ & Hnd & Hk & Hno).
    split_and!; [done..|]. intros a b. by apply edgeless_has_edge.
Qed.

(** A membership table with two rows and no [titulo] column. *)
Lemma failed_build_leaves_nodes_witness :
  ∃ G, FrenteNetwork.build_network ex_no_titulo nx_Graph
       = (Raise (KeyError [VStr "Column not found: titulo"]), G)
       ∧ NoDup (nodes G) ∧ (∀ k, k ∈ nodes G ↔ k ∈ ids ex_no_titulo)
       ∧ ∀ a b, has_edge a b G = false.
Proof.
  apply (proj1 (failed_build_leaves_nodes ex_no_titulo)); by_compute.
Defined.

(** X9. The agreement build is not idempotent: when a first call of
    [VotingNetwork.build_network] on a fresh instance completes, a second
    call on the same instance completes too, keeps the nodes, and adds every
    tally once more, so that the weight of every edge between two different
    legislators is doubled. *)
Theorem voting_build_twice_doubles (df : DataFrame) (G : Graph) :
  VotingNetwork.build_network df nx_Graph = (Ok tt, G) →
  ∃ G', VotingNetwork.build_network df G = (Ok tt, G')
        ∧ (VotingNetwork.build_network df;; VotingNetwork.build_network df)
            nx_Graph = (Ok tt, G')
        ∧ nodes G' = nodes G
        ∧ ∀ a b, a ≠ b → edge_weight G' a b = Z.mul 2 <$> edge_weight G a b.
Proof.
  intros HG. exists (voting_graph df G).
  pose proof (voting_build_Ok_any df nx_Graph G G HG) as H2.
  split_and!.
  - done.
  - by erewrite bind_Ok by exact HG.
  - apply voting_build_inv in HG as ->.
    apply (voting_graph_again df (VInt 0) (VInt 1)). discriminate.
  - intros a b Hne. apply voting_build_inv in HG as ->.
    by apply voting_graph_again.
Qed.

(** Three legislators agreeing in one ballot: weights 1, then 2. *)
Lemma voting_build_twice_doubles_witness :
  ∃ G', VotingNetwork.build_network ex_three (voting_graph ex_three nx_Graph)
        = (Ok tt, G')
        ∧ (VotingNetwork.build_network ex_three;;
           VotingNetwork.build_network ex_three) nx_Graph = (Ok tt, G')
        ∧ nodes G' = nodes (voting_graph ex_three nx_Graph)
        ∧ ∀ a b, a ≠ b →
            edge_weight G' a b
            = Z.mul 2 <$> edge_weight (voting_graph ex_three nx_Graph) a b.
Proof.
  apply (voting_build_twice_doubles ex_three). vm_compute. reflexivity.
Defined.

(** X10. Row order does not matter to the membership policy: two tables with
    the same rows in a different order yield graphs with the same nodes, the
    same edges and the same weights, self-loops included. *)
Theorem frente_row_order (df df' : DataFrame) (G G' : Graph) :
  rows df ≡ₚ rows df' →
  FrenteNetwork.build_network df nx_Graph = (Ok tt, G) →
  FrenteNetwork.build_network df' nx_Graph = (Ok tt, G') →
  nodes G ≡ₚ nodes G'
  ∧ ∀ a b, has_edge a b G = has_edge a b G'
           ∧ edge_weight G a b = edge_weight G' a b.
Proof.
  intros Hperm ->%frente_build_inv ->%frente_build_inv.
  destruct (frente_graph_spec df) as (Hwf & Hnd & Hk & _).
  destruct (frente_graph_spec df') as (Hwf' & Hnd' & Hk' & _).
  assert (∀ a b, edge_weight (frente_graph df nx_Graph) a b
                 = edge_weight (frente_graph df' nx_Graph) a b) as Hw.
  { intros a b. rewrite !frente_weight.
    rewrite (perm_names_of df df' Hperm), (perm_frentes df df' Hperm),
      (perm_shared df df' Hperm). done. }
  split.
  - apply NoDup_Permutation; [done..|]. intros k.
    by rewrite Hk, Hk', (perm_ids df df' Hperm).
  - intros a b. split; [|done].
    by rewrite !has_edge_weight_eq, Hw by done.
Qed.

(** The table of two legislators and the same table read backwards. *)
Lemma frente_row_order_witness :
  nodes (frente_graph ex_frentes nx_Graph)
  ≡ₚ nodes (frente_graph ex_frentes_rev nx_Graph)
  ∧ ∀ a b,
      has_edge a b (frente_graph ex_frentes nx_Graph)
      = has_edge a b (frente_graph ex_frentes_rev nx_Graph)
      ∧ edge_weight (frente_graph ex_frentes nx_Graph) a b
        = edge_weight (frente_graph ex_frentes_rev nx_Graph) a b.
Proof.
  apply (frente_row_order ex_frentes ex_frentes_rev).
  - symmetry. apply reverse_Permutation.
  - vm_compute. reflexivity.
  - vm_compute. reflexivity.
Defined.

(** X11. Row order does not matter to the agreement policy when the table
    has at most one row per (legislator, ballot) pair: two such tables with
    the same rows in a different order yield graphs with the same nodes, the
    same edges and the same weights. *)
Theorem voting_row_order (df df' : DataFrame) (G G' : Graph) :
  rows df ≡ₚ rows df' → unique_votes df →
  VotingNetwork.build_network df nx_Graph = (Ok tt, G) →
  VotingNetwork.build_network df' nx_Graph = (Ok tt, G') →
  nodes G ≡ₚ nodes G'
  ∧ ∀ a b, has_edge a b G = has_edge a b G'
           ∧ edge_weight G a b = edge_weight G' a b.
Proof.
  intros Hperm Hu ->%voting_build_inv ->%voting_build_inv.
  destruct (voting_graph_spec df) as (Hwf & Hnd & Hk & Hself & Hw).
  destruct (voting_graph_spec df') as (Hwf' & Hnd' & Hk' & Hself' & Hw').
  assert (∀ a b, edge_weight (voting_graph df nx_Graph) a b
                 = edge_weight (voting_graph df' nx_Graph) a b) as Heq.
  { intros a b. destruct (decide (a = b)) as [<-|Hne].
    - by rewrite Hself, Hself'.
    - rewrite (Hw a b Hne), (Hw' a b Hne).
      destruct (tally_last_vote df df' a b) as [-> Hnil].
      { intros k u. by apply perm_last_vote. }
      destruct (decide (filter (covoted df a b) (ballots df) = [])) as [E|E].
      + by rewrite decide_True by by apply Hnil.
      + by rewrite decide_False by by rewrite <- Hnil. }
  split.
  - apply NoDup_Permutation; [done..|]. intros k.
    by rewrite Hk, Hk', (perm_ids df df' Hperm).
  - intros a b. split; [|done].
    by rewrite !has_edge_weight_eq, Heq by done.
Qed.

(** The table of one agreement and one disagreement, read backwards. *)
Lemma voting_row_order_witness :
  nodes (voting_graph ex_cancel nx_Graph)
  ≡ₚ nodes (voting_graph ex_cancel_rev nx_Graph)
  ∧ ∀ a b,
      has_edge a b (voting_graph ex_cancel nx_Graph)
      = has_edge a b (voting_graph ex_cancel_rev nx_Graph)
      ∧ edge_weight (voting_graph ex_cancel nx_Graph) a b
        = edge_weight (voting_graph ex_cancel_rev nx_Graph) a b.
Proof.
  apply (voting_row_order ex_cancel ex_cancel_rev).
  - symmetry. apply reverse_Permutation.
  - apply unique_votes_ex_cancel.
  - vm_compute. reflexivity.
  - vm_compute. reflexivity.
Defined.

(** * Paginated requests *)

(** X12. What [_get_paginated_data] returns: whenever it returns, it has
    requested the pages 1 to [k] for some [k], each once and in order, with
    the caller's parameters and [pagina] and [itens] set; every page but the
    last had items and a next link; and the list returned is the
    concatenation, in page order, of the [dados] of these pages (nothing for
    a page whose request failed or that has no [dados]). *)
Theorem paginated_result_shape {A} (fuel : nat)
    (request : list (string * value) → api_result A)
    (params : option (list (string * value))) (max_pages : option Z)
    (d : list A) (s : list (list (string * value))) :
  _get_paginated_data fuel request params max_pages = Some (d, s) →
  ∃ k, s = page_params params <$> pages_from 1 k
       ∧ d = concat (page_data request params <$> pages_from 1 k)
       ∧ Forall (λ p, continues request params p = true)
           (pages_from 1 (pred k)).
Proof.
  intros (k & _ & -> & -> & _ & Hc)%paginate_loop_shape. by exists k.
Qed.

(** The server with two pages. *)
Lemma paginated_result_shape_witness :
  ∃ k, [[("pagina", VInt 1); ("itens", VInt 100)];
        [("pagina", VInt 2); ("itens", VInt 100)]]
       = page_params None <$> pages_from 1 k
       ∧ [10; 11; 12]%Z = concat (page_data ex_server None <$> pages_from 1 k)
       ∧ Forall (λ p, continues ex_server None p = true) (pages_from 1 (pred k)).
Proof.
  apply (paginated_result_shape 5 ex_server None None). vm_compute. reflexivity.
Defined.

(** X13. The page limit: with [max_pages = n] and [n] positive,
    [_get_paginated_data] returns whatever the server answers, and it makes
    at most [n] requests. *)
Theorem paginated_page_limit {A}
    (request : list (string * value) → api_result A)
    (params : option (list (string * value))) (n : Z) :
  (0 < n)%Z →
  is_Some (_get_paginated_data (S (Z.to_nat n)) request params (Some n))
  ∧ ∀ fuel d s,
      _get_paginated_data fuel request params (Some n) = Some (d, s) →
      length s ≤ Z.to_nat n.
Proof.
  intros Hn. split.
  - apply paginate_loop_terminates; lia.
  - intros fuel d s (k & _ & _ & -> & Hl & _)%paginate_loop_shape.
    simpl. rewrite length_fmap, length_pages_from.
    destruct k as [|k]; [lia|].
    rewrite Forall_forall in Hl. specialize (Hl (1 + Z.of_nat k)%Z).
    unfold past_limit in Hl. rewrite elem_of_pages_from in Hl.
    destruct (n <? 1 + Z.of_nat k)%Z eqn:E.
    + apply Z.ltb_lt in E. assert ((n =? 0)%Z = false) as E0 by (apply Z.eqb_neq; lia).
      rewrite E0 in Hl. simpl in Hl. discriminate Hl. lia.
    + apply Z.ltb_ge in E. lia.
Qed.

(** A server on which every page has a next page, limited to 3 pages. *)
Lemma paginated_page_limit_witness :
  is_Some (_get_paginated_data (S (Z.to_nat 3)) ex_endless None (Some 3%Z))
  ∧ ∀ fuel d s,
      _get_paginated_data fuel ex_endless None (Some 3%Z) = Some (d, s) →
      length s ≤ Z.to_nat 3.
Proof. apply (paginated_page_limit ex_endless None 3). lia. Defined.

(** X14. Where [_get_paginated_data] stops: when the pages 1 to [k] have
    items and a next link and page [k + 1] has no items, no next link, or
    fails with [CamaraAPIError], and the limit allows these pages, the call
    returns after [k + 1] requests with the [dados] of the pages 1 to
    [k + 1]; a failure of the last request is not reported, the items read
    before it are returned. *)
Theorem paginated_stops_at_first_break {A} (fuel k : nat)
    (request : list (string * value) → api_result A)
    (params : option (list (string * value))) (max_pages : option Z) :
  Forall (λ p, continues request params p = true
               ∧ past_limit max_pages p = false) (pages_from 1 k) →
  past_limit max_pages (1 + Z.of_nat k) = false →
  continues request params (1 + Z.of_nat k) = false →
  k < fuel →
  _get_paginated_data fuel request params max_pages
  = Some (concat (page_data request params <$> pages_from 1 (S k)),
          page_params params <$> pages_from 1 (S k))
  ∧ (∀ msg, request (page_params params (1 + Z.of_nat k)) = CamaraAPIError msg →
       concat (page_data request params <$> pages_from 1 (S k))
       = concat (page_data request params <$> pages_from 1 k)).
Proof.
  intros Hk Hl Hc Hf. split.
  - unfold _get_paginated_data.
    replace fuel with (k + S (fuel - S k)) by lia.
    rewrite paginate_loop_continue, paginate_loop_last by done.
    rewrite pages_from_snoc, !fmap_app, concat_app. simpl.
    by rewrite app_nil_r.
  - intros msg Hmsg. rewrite pages_from_snoc, fmap_app, concat_app. simpl.
    unfold page_data at 2. rewrite Hmsg. by rewrite !app_nil_r.
Qed.

(** The server with two pages: page 1 continues, page 2 has no next link. *)
Lemma paginated_stops_at_first_break_witness :
  _get_paginated_data 2 ex_server None None
  = Some (concat (page_data ex_server None <$> pages_from 1 2),
          page_params None <$> pages_from 1 2)
  ∧ (∀ msg, ex_server (page_params None (1 + Z.of_nat 1)) = CamaraAPIError msg →
       concat (page_data ex_server None <$> pages_from 1 2)
       = concat (page_data ex_server None <$> pages_from 1 1)).
Proof.
  apply (paginated_stops_at_first_break 2 1 ex_server None None).
  - repeat constructor.
  - reflexivity.
  - reflexivity.
  - lia.
Defined.

(** X15. Limits that are not positive: [max_pages = 0] is treated as no
    limit at all, and with a negative [max_pages] no request is made and
    the empty list is returned. *)
Theorem paginated_nonpositive_limit {A}
    (request : list (string * value) → api_result A)
    (params : option (list (string * value))) :
  (∀ fuel, _get_paginated_data fuel request params (Some 0%Z)
           = _get_paginated_data fuel request params None)
  ∧ (∀ fuel n, (n < 0)%Z →
       _get_paginated_data (S fuel) request params (Some n) = Some ([], [])).
Proof.
  split.
  - intros fuel. apply paginate_loop_zero.
  - intros fuel n Hn. unfold _get_paginated_data. simpl.
    assert ((n =? 0)%Z = false) as -> by (apply Z.eqb_neq; lia).
    assert ((n <? 1)%Z = true) as -> by (apply Z.ltb_lt; lia).
    done.
Qed.

(** A limit of -1 on the server with two pages. *)
Lemma paginated_nonpositive_limit_witness :
  _get_paginated_data 1 ex_server None (Some (-1)%Z) = Some ([], []).
Proof.
  apply (proj2 (paginated_nonpositive_limit ex_server None) 0 (-1)%Z). lia.
Defined.

(** X16. No bound of its own: without a page limit ([max_pages] absent or
    0), on a server whose every page has items and a next link the loop of
    [_get_paginated_data] never ends: no amount of fuel gives a result. *)
Theorem paginated_unbounded {A} (fuel : nat)
    (request : list (string * value) → api_result A)
    (params : option (list (string * value))) (max_pages : option Z) :
  max_pages = None ∨ max_pages = Some 0%Z →
  (∀ p, (1 ≤ p)%Z → continues request params p = true) →
  _get_paginated_data fuel request params max_pages = None.
Proof.
  intros Hmax Hc. unfold _get_paginated_data.
  replace fuel with (fuel + 0) by lia.
  rewrite paginate_loop_continue; [done|].
  apply Forall_forall. intros p Hp%elem_of_pages_from. split.
  - apply Hc. lia.
  - by destruct Hmax as [-> | ->].
Qed.

(** The server on which every page has a next page. *)
Lemma paginated_unbounded_witness :
  _get_paginated_data 50 ex_endless None None = None.
Proof.
  apply (paginated_unbounded 50 ex_endless None None); [by left|].
  intros p _. reflexivity.
Defined.

(** ** [CamaraClient.get_votacoes] *)

(** X17. The requests of [get_votacoes]: whenever it returns, it has sent
    at least one request; the [i]-th request it sent (counting from 0) asks
    for page [i + 1] with 100 items, carries each of the five filters
    exactly when the argument was given and with the value given, and has
    no other parameter.  No page limit is passed: every request but the
    last was answered with items and a next link, and the last one was not,
    so that the listing ends only where the server ends it. *)
Theorem get_votacoes_requests {A} (fuel : nat)
    (request : list (string * value) → api_result A)
    (id idProposicao dataInicio dataFim idOrgao : option value)
    (d : list A) (s : list (list (string * value))) :
  get_votacoes fuel request id idProposicao dataInicio dataFim idOrgao
    = Some (d, s) →
  s ≠ []
  ∧ ∀ i current_params,
      s !! i = Some current_params →
      dget "pagina" current_params = Some (VInt (Z.of_nat i + 1))
      ∧ dget "itens" current_params = Some (VInt 100)
      ∧ dget "id" current_params = id
      ∧ dget "idProposicao" current_params = idProposicao
      ∧ dget "dataInicio" current_params = dataInicio
      ∧ dget "dataFim" current_params = dataFim
      ∧ dget "idOrgao" current_params = idOrgao
      ∧ dkeys current_params
          ⊆ ["id"; "idProposicao"; "dataInicio"; "dataFim"; "idOrgao";
             "pagina"; "itens"]
      ∧ (has_more request current_params = true ↔ S i < length s).
Proof.
  unfold get_votacoes, _get_paginated_data.
  set (params := set_if_given "idOrgao" idOrgao _).
  intros (k & -> & Hk & Hlast)%paginate_loop_unlimited.
  rewrite app_nil_l. split; [done|].
  intros i current_params. rewrite list_lookup_fmap.
  destruct (pages_from 1 (S k) !! i) as [p|] eqn:Hp; [|done].
  assert (i < S k) as Hi.
  { apply lookup_lt_Some in Hp. by rewrite length_pages_from in Hp. }
  apply lookup_pages_from in Hp. subst p. intros [= <-].
  assert (has_more request
            (page_params (match params with [] => None | _ => Some params end)
               (1 + Z.of_nat i)) = true ↔ S i < S k) as Hmore.
  { change (has_more request (page_params ?q ?p)) with (continues request q p).
    destruct (decide (i = k)) as [->|Hne].
    - rewrite Hlast. split; [done|lia].
    - split; [lia|intros _]. rewrite Forall_forall in Hk. apply Hk.
      apply elem_of_pages_from. lia. }
  rewrite length_fmap, length_pages_from.
  rewrite page_params_nonempty in *.
  assert (∀ key, key ≠ "itens" → key ≠ "pagina" →
            dget key (page_params (Some params) (1 + Z.of_nat i))
            = dget key params) as Hget.
  { intros key H1 H2. by rewrite dget_page_params, !decide_False by done. }
  split_and!.
  - rewrite dget_page_params. simpl. do 2 f_equal. lia.
  - by rewrite dget_page_params.
  - rewrite Hget by done. unfold params. rewrite !dget_set_if_given. simpl.
    by destruct id.
  - rewrite Hget by done. unfold params. rewrite !dget_set_if_given. simpl.
    by destruct idProposicao.
  - rewrite Hget by done. unfold params. rewrite !dget_set_if_given. simpl.
    by destruct dataInicio.
  - rewrite Hget by done. unfold params. rewrite !dget_set_if_given. simpl.
    by destruct dataFim.
  - rewrite Hget by done. unfold params. rewrite !dget_set_if_given. simpl.
    by destruct idOrgao.
  - intros key Hkey%dkeys_page_params. simpl in Hkey.
    destruct Hkey as [->|[->|Hkey]]; [set_solver..|].
    unfold params in Hkey.
    repeat (apply dkeys_set_if_given in Hkey as [->|Hkey]; [set_solver|]).
    by apply elem_of_nil in Hkey.
  - done.
Qed.

(** The ballots of a period on the server with two pages. *)
Lemma get_votacoes_requests_witness :
  let s :=
    [[("dataInicio", VStr "2024-01-01"); ("dataFim", VStr "2024-01-31");
      ("pagina", VInt 1); ("itens", VInt 100)];
     [("dataInicio", VStr "2024-01-01"); ("dataFim", VStr "2024-01-31");
      ("pagina", VInt 2); ("itens", VInt 100)]] in
  s ≠ []
  ∧ ∀ i current_params,
      s !! i = Some current_params →
      dget "pagina" current_params = Some (VInt (Z.of_nat i + 1))
      ∧ dget "itens" current_params = Some (VInt 100)
      ∧ dget "id" current_params = None
      ∧ dget "idProposicao" current_params = None
      ∧ dget "dataInicio" current_params = Some (VStr "2024-01-01")
      ∧ dget "dataFim" current_params = Some (VStr "2024-01-31")
      ∧ dget "idOrgao" current_params = None
      ∧ dkeys current_params
          ⊆ ["id"; "idProposicao"; "dataInicio"; "dataFim"; "idOrgao";
             "pagina"; "itens"]
      ∧ (has_more ex_server current_params = true ↔ S i < length s).
Proof.
  apply (get_votacoes_requests 5 ex_server None None
           (Some (VStr "2024-01-01")) (Some (VStr "2024-01-31")) None
           [10; 11; 12]%Z).
  vm_compute. reflexivity.
Defined.

(** ** [DataEnricher.get_votos_periodo]: the rows of one ballot *)

(** X18. The rows built for one ballot. When the ballot is a dictionary and
    every vote is a dictionary whose [deputado_] entry is a dictionary with
    an [id], the loop raises nothing and builds one row per vote, in the
    order of the votes. In the row of a vote, [id_deputado] is the deputy's
    [id]; [id] is the vote's own [id] if it has one and the ballot's
    otherwise, never the deputy's; the vote's [deputado_] entry is left
    out, so that a [deputado_] key comes from the deputy or else from the
    ballot; and any other key is looked up in the deputy first, then in the
    vote, then in the ballot. *)
Theorem enriched_rows {A} (votacao : list (string * json A))
    (votos_votacao : list (list (string * json A))) :
  NoDup (dkeys votacao) →
  Forall voto_ok votos_votacao →
  ∃ enriched_votos,
    enrich_votos votacao votos_votacao = EOk enriched_votos
    ∧ length enriched_votos = length votos_votacao
    ∧ ∀ n voto deputado enriched_voto,
        votos_votacao !! n = Some voto →
        deputy_of voto = Some deputado →
        enriched_votos !! n = Some enriched_voto →
        NoDup (dkeys enriched_voto)
        ∧ dget "id_deputado" enriched_voto = dget "id" deputado
        ∧ dget "id" enriched_voto = dget "id" voto ∪ dget "id" votacao
        ∧ dget "deputado_" enriched_voto
          = dget "deputado_" deputado ∪ dget "deputado_" votacao
        ∧ ∀ k, k ≠ "id_deputado" → k ≠ "id" → k ≠ "deputado_" →
               dget k enriched_voto
               = dget k deputado ∪ (dget k voto ∪ dget k votacao).
Proof.
  intros Hvotacao Hok.
  assert (∃ es, Forall2 (λ voto e, enrich_voto votacao voto = EOk e)
                  votos_votacao es) as [es Hes].
  { induction Hok as [|voto votos (_ & deputado & Hd & _ & [i Hi]) _ [es IH]].
    - exists []. constructor.
    - eexists (_ :: es). constructor; [|done]. by eapply enrich_voto_ok. }
  exists es. split; [by apply enrich_votos_EOk|].
  split; [symmetry; by eapply Forall2_length|].
  intros n voto deputado e Hn Hd He.
  pose proof (Forall2_lookup_lr _ _ _ _ _ _ Hes Hn He) as Hrow. simpl in Hrow.
  rewrite Forall_lookup in Hok.
  destruct (Hok _ _ Hn) as (Hvoto & deputado' & Hd' & Hdep & [i Hi]).
  rewrite Hd in Hd'. injection Hd' as <-.
  rewrite (enrich_voto_ok votacao voto deputado i) in Hrow by done.
  injection Hrow as <-.
  pose proof (λ k, dget_enriched votacao voto deputado i k
                     Hvotacao Hvoto Hdep) as Hget.
  split_and!.
  - apply NoDup_dkeys_dict_of.
  - rewrite Hget, Hi. simpl.
    by destruct (dget "id_deputado" voto), (dget "id_deputado" votacao).
  - rewrite Hget. simpl. by destruct (dget "id" voto), (dget "id" votacao).
  - rewrite Hget. simpl.
    by destruct (dget "deputado_" deputado), (dget "deputado_" votacao).
  - intros k H1 H2 H3. rewrite Hget. by rewrite !decide_False by done.
Qed.

(** The ballot [b1] with the vote of deputy 7. *)
Lemma enriched_rows_witness :
  ∃ enriched_votos,
    enrich_votos ex_votacao [ex_voto] = EOk enriched_votos
    ∧ length enriched_votos = length [ex_voto]
    ∧ ∀ n voto deputado enriched_voto,
        [ex_voto] !! n = Some voto →
        deputy_of voto = Some deputado →
        enriched_votos !! n = Some enriched_voto →
        NoDup (dkeys enriched_voto)
        ∧ dget "id_deputado" enriched_voto = dget "id" deputado
        ∧ dget "id" enriched_voto = dget "id" voto ∪ dget "id" ex_votacao
        ∧ dget "deputado_" enriched_voto
          = dget "deputado_" deputado ∪ dget "deputado_" ex_votacao
        ∧ ∀ k, k ≠ "id_deputado" → k ≠ "id" → k ≠ "deputado_" →
               dget k enriched_voto
               = dget k deputado ∪ (dget k voto ∪ dget k ex_votacao).
Proof.
  apply (enriched_rows ex_votacao [ex_voto]).
  - by_compute.
  - constructor; [|constructor]. split; [by_compute|].
    eexists. split; [reflexivity|]. split; [by_compute|]. vm_compute. eauto.
Defined.

(** X19. The loop over the votes of a ballot is all or nothing: it returns
    rows exactly when every vote has a [deputado_] entry that is a
    dictionary with an [id]; one vote without it raises, and the rows built
    for the votes before it are lost. *)
Theorem enrich_votos_all_or_nothing {A} (votacao : list (string * json A))
    (votos_votacao : list (list (string * json A))) :
  (∃ enriched_votos, enrich_votos votacao votos_votacao = EOk enriched_votos)
  ↔ Forall (λ voto, ∃ deputado, deputy_of voto = Some deputado
                                ∧ is_Some (dget "id" deputado))
      votos_votacao.
Proof.
  split.
  - intros [es Hes%enrich_votos_EOk].
    induction Hes as [|voto e votos es He _ IH]; constructor; [|done].
    apply enrich_voto_EOk_inv in He as (deputado & i & ? & ?). eauto.
  - intros Hall.
    assert (∃ es, Forall2 (λ voto e, enrich_voto votacao voto = EOk e)
                    votos_votacao es) as [es Hes].
    { induction Hall as [|voto votos (deputado & Hd & [i Hi]) _ [es IH]].
      - exists []. constructor.
      - eexists (_ :: es). constructor; [|done]. by eapply enrich_voto_ok. }
    exists es. by apply enrich_votos_EOk.
Qed.

(** X20. The rows of [get_votos_periodo] have the columns [VotingNetwork]
    reads: when the ballot has an [id], the vote has a [tipoVoto] and no
    [id] of its own, and its deputy has [id], [nome], [siglaPartido] and
    [siglaUf], the loop builds a row that has all six columns, whose [id]
    is the ballot's and whose [id_deputado] is the deputy's. *)
Theorem enriched_row_voting_columns {A}
    (votacao voto deputado : list (string * json A)) :
  NoDup (dkeys votacao) → NoDup (dkeys voto) → NoDup (dkeys deputado) →
  deputy_of voto = Some deputado →
  is_Some (dget "id" votacao) →
  dget "id" voto = None →
  is_Some (dget "tipoVoto" voto) →
  Forall (λ k, is_Some (dget k deputado))
    ["id"; "nome"; "siglaPartido"; "siglaUf"] →
  ∃ enriched_voto,
    enrich_votos votacao [voto] = EOk [enriched_voto]
    ∧ voting_columns ⊆ dkeys enriched_voto
    ∧ dget "id" enriched_voto = dget "id" votacao
    ∧ dget "id_deputado" enriched_voto = dget "id" deputado.
Proof.
  intros Hvotacao Hvoto Hdep Hd Hid Hnoid Htipo Hcols.
  rewrite Forall_forall in Hcols.
  destruct (Hcols "id") as [i Hi]; [set_solver|].
  simpl. rewrite (enrich_voto_ok votacao voto deputado i) by done.
  eexists. split; [reflexivity|].
  pose proof (λ k, dget_enriched votacao voto deputado i k
                     Hvotacao Hvoto Hdep) as Hget.
  assert (∀ k, k ≠ "id" → k ≠ "id_deputado" →
            is_Some (dget k deputado) →
            is_Some (dget k (dict_of (votacao ++ ddel "deputado_" voto
                       ++ ddel "id" (dset "id_deputado" i deputado)))))
    as Hsome.
  { intros k H1 H2 [v Hv]. rewrite Hget, Hv, !decide_False by done.
    destruct (decide (k = "deputado_")), (dget k voto), (dget k votacao);
      by eexists. }
  destruct Hid as [b Hb]. destruct Htipo as [t Ht].
  split_and!.
  - intros c Hc. apply dget_is_Some. unfold voting_columns in Hc.
    repeat (apply elem_of_cons in Hc as [->|Hc]);
      [| | | | | |by apply elem_of_nil in Hc].
    + rewrite Hget. simpl.
      destruct (dget "id_deputado" voto), (dget "id_deputado" votacao);
        by eexists.
    + apply Hsome; [done..|]. apply Hcols. set_solver.
    + apply Hsome; [done..|]. apply Hcols. set_solver.
    + apply Hsome; [done..|]. apply Hcols. set_solver.
    + rewrite Hget, Hnoid, Hb. by eexists.
    + rewrite Hget, Ht. simpl.
      destruct (dget "tipoVoto" deputado), (dget "tipoVoto" votacao);
        by eexists.
  - by rewrite Hget, Hnoid, Hb.
  - rewrite Hget, Hi. simpl.
    by destruct (dget "id_deputado" voto), (dget "id_deputado" votacao).
Qed.

(** The ballot [b1] with the vote of deputy 7. *)
Lemma enriched_row_voting_columns_witness :
  ∃ enriched_voto,
    enrich_votos ex_votacao [ex_voto] = EOk [enriched_voto]
    ∧ voting_columns ⊆ dkeys enriched_voto
    ∧ dget "id" enriched_voto = dget "id" ex_votacao
    ∧ dget "id_deputado" enriched_voto = Some (JAtom (VInt 7)).
Proof.
  apply (enriched_row_voting_columns ex_votacao ex_voto
           [("id", JAtom (VInt 7)); ("uri", JAtom (VStr "deputados/7"));
            ("nome", JAtom (VStr "A")); ("siglaPartido", JAtom (VStr "PT"));
            ("siglaUf", JAtom (VStr "SP"))]).
  - by_compute.
  - by_compute.
  - by_compute.
  - reflexivity.
  - vm_compute. eauto.
  - reflexivity.
  - vm_compute. eauto.
  - repeat constructor; vm_compute; eauto.
Defined.
